(** * Swarm feedback loops: a shallow embedding of [SwarmFeedbackLoops]

    The class [SwarmFeedbackLoops] (swarm feedback loops system) keeps a
    registry of named feedback loops, runs each of them on an interval
    timer, scores the sampled metrics against the configured thresholds,
    and applies adaptation strategies when the score is too low.

    Conventions of the embedding:
    - a JavaScript number is an exact rational, or one of [Infinity],
      [-Infinity], [NaN]; rounding of doubles and the sign of zero are not
      modelled (zero divides like [+0]);
    - sample values, thresholds and the [realTimeMetrics] gauges are finite
      numbers ([Q]); whatever the code computes from them by division is a
      [number], so that a division by zero is visible;
    - objects that are shared and mutated (the loop objects) live in a heap
      and are referred to by location; the [Map]s and plain objects whose
      iteration order the code relies on are association lists with the
      insertion discipline of JavaScript;
    - [Date.now()] and [Math.random()] read oracles carried by the world;
    - a thrown value is an [Error] object; [console] output, the text of
      recommendations and the command line are not modelled; emitted events
      are recorded, without their payload;
    - every [await] of the class waits for a promise that is already
      settled, so a cycle runs to its end before any other timer fires:
      [executeLoop] is one step of the world. *)

From Stdlib Require Import QArith Qminmax Lqa ZArith Sorted.
From stdpp Require Import gmap strings list.

Local Open Scope Q_scope.

(** ** JavaScript numbers *)

Inductive number : Type :=
| Fin (q : Q)
| PInf
| NInf
| NaN.

Definition Qltb (x y : Q) : bool := negb (Qle_bool y x).

Definition num_neg (a : number) : number :=
  match a with
  | Fin x => Fin (- x)
  | PInf => NInf
  | NInf => PInf
  | NaN => NaN
  end.

Definition num_add (a b : number) : number :=
  match a, b with
  | NaN, _ | _, NaN => NaN
  | Fin x, Fin y => Fin (x + y)
  | PInf, NInf | NInf, PInf => NaN
  | PInf, _ | _, PInf => PInf
  | NInf, _ | _, NInf => NInf
  end.

Definition num_sub (a b : number) : number := num_add a (num_neg b).

(** Sign of a finite number: [Gt], [Eq] or [Lt] against zero. *)
Definition Qsign (x : Q) : comparison := Qcompare x 0.

Definition num_mul (a b : number) : number :=
  match a, b with
  | NaN, _ | _, NaN => NaN
  | Fin x, Fin y => Fin (x * y)
  | Fin x, PInf | PInf, Fin x =>
      match Qsign x with Gt => PInf | Lt => NInf | Eq => NaN end
  | Fin x, NInf | NInf, Fin x =>
      match Qsign x with Gt => NInf | Lt => PInf | Eq => NaN end
  | PInf, PInf | NInf, NInf => PInf
  | PInf, NInf | NInf, PInf => NInf
  end.

Definition num_div (a b : number) : number :=
  match a, b with
  | NaN, _ | _, NaN => NaN
  | Fin x, Fin y =>
      if Qeq_bool y 0
      then match Qsign x with Gt => PInf | Lt => NInf | Eq => NaN end
      else Fin (x / y)
  | Fin _, PInf | Fin _, NInf => Fin 0
  | PInf, Fin y => if Qle_bool 0 y then PInf else NInf
  | NInf, Fin y => if Qle_bool 0 y then NInf else PInf
  | PInf, PInf | PInf, NInf | NInf, PInf | NInf, NInf => NaN
  end.

(** [a < b]; every comparison with [NaN] is false. *)
Definition num_ltb (a b : number) : bool :=
  match a, b with
  | NaN, _ | _, NaN => false
  | Fin x, Fin y => Qltb x y
  | NInf, NInf | PInf, _ => false
  | NInf, _ | Fin _, PInf => true
  | Fin _, NInf => false
  end.

(** [a >= b]. *)
Definition num_geb (a b : number) : bool :=
  match a, b with
  | NaN, _ | _, NaN => false
  | Fin x, Fin y => Qle_bool y x
  | PInf, _ | _, NInf => true
  | NInf, _ | Fin _, PInf => false
  end.

(** [Math.min] of two numbers. *)
Definition num_min (a b : number) : number :=
  match a, b with
  | NaN, _ | _, NaN => NaN
  | _, _ => if num_ltb b a then b else a
  end.

Definition of_nat (n : nat) : Q := inject_Z (Z.of_nat n).

(** Numeric equality of numbers: rationals up to [==]. *)
Definition num_eq (a b : number) : Prop :=
  match a, b with
  | Fin x, Fin y => x == y
  | PInf, PInf | NInf, NInf | NaN, NaN => True
  | _, _ => False
  end.

Infix "=n=" := num_eq (at level 70, no associativity).

(** ** Exceptions and results *)

Inductive exn : Type :=
| TypeError (msg : string)
| Error (msg : string).

Inductive result (A : Type) : Type :=
| Ok (a : A)
| Throw (e : exn).
Arguments Ok {A} a.
Arguments Throw {A} e.

Definition throws {A} (r : result A) : bool :=
  match r with Ok _ => false | Throw _ => true end.

(** ** Analysis of one metrics snapshot *)

Inductive severity : Type := high | medium | low.
Inductive status : Type := excellent | good | fair | poor.

#[global] Instance severity_eq_dec : EqDecision severity.
Proof. solve_decision. Defined.
#[global] Instance status_eq_dec : EqDecision status.
Proof. solve_decision. Defined.

(** A metrics object: metric name to sampled value, [None] for [null].
    [Object.entries] enumerates it in insertion order; assigning to a key
    that is present keeps its place (keys that look like array indices,
    which JavaScript enumerates first, are not modelled). *)
Definition metricsObj : Type := list (string * option Q).

Fixpoint assoc_set {K V} `{EqDecision K} (o : list (K * V)) (k : K) (v : V) : list (K * V) :=
  match o with
  | [] => [(k, v)]
  | (k', v') :: rest =>
      if decide (k' = k) then (k, v) :: rest else (k', v') :: assoc_set rest k v
  end.

Fixpoint assoc_get {K V} `{EqDecision K} (o : list (K * V)) (k : K) : option V :=
  match o with
  | [] => None
  | (k', v') :: rest => if decide (k' = k) then Some v' else assoc_get rest k
  end.

Record issue : Type := mkIssue {
  i_metric : string;
  i_value : Q;
  i_threshold : Q;
  i_severity : severity
}.

Inductive recommendationType : Type := issue_resolution | general_improvement.

(** The recommendation text is not modelled. *)
Record recommendation : Type := mkRecommendation {
  r_type : recommendationType;
  r_metric : option string;
  r_severity : option severity
}.

Record analysis : Type := mkAnalysis {
  overall : status;
  issues : list issue;
  score : number;
  recommendations : list recommendation
}.

Definition higherIsBetterNames : list string :=
  ["throughput"; "learning_velocity"; "pattern_recognition"; "adaptation_success";
   "task_distribution"; "agent_efficiency"; "memory_utilization"; "retrieval_accuracy";
   "storage_efficiency"; "idea_quality"; "implementation_success"; "user_satisfaction"]%string.

Definition isHigherBetterMetric (metricName : string) : bool :=
  existsb (String.eqb metricName) higherIsBetterNames.

Definition calculateSeverity (value threshold : Q) (higherIsBetter : bool) : severity :=
  let ratio := if higherIsBetter
               then num_div (Fin value) (Fin threshold)
               else num_div (Fin threshold) (Fin value) in
  if num_ltb ratio (Fin 0.5) then high
  else if num_ltb ratio (Fin 0.8) then medium
  else low.

(** The score of one metric and the issue reported for it, if any: the body
    of the loop of [analyzeMetrics] once value and threshold are known. *)
Definition scoreMetric (metricName : string) (value threshold : Q) : number * list issue :=
  let higherIsBetter := isHigherBetterMetric metricName in
  if higherIsBetter then
    (if Qle_bool threshold value then Fin 1 else num_div (Fin value) (Fin threshold),
     if Qltb value threshold
     then [mkIssue metricName value threshold (calculateSeverity value threshold higherIsBetter)]
     else [])
  else
    (if Qle_bool value threshold then Fin 1 else num_div (Fin threshold) (Fin value),
     if Qltb threshold value
     then [mkIssue metricName value threshold (calculateSeverity value threshold higherIsBetter)]
     else []).

Record tally : Type := mkTally {
  totalScore : number;
  metricCount : nat;
  found : list issue
}.

(** The [for] loop of [analyzeMetrics]. [thresholds] is [None] when the
    threshold table of the loop is [undefined]; reading a property of it
    raises a [TypeError], which happens at the first sample that is not
    [null]. *)
Fixpoint analyzeEntries (thresholds : option (gmap string Q))
    (entries : metricsObj) (t : tally) : result tally :=
  match entries with
  | [] => Ok t
  | (metricName, None) :: rest => analyzeEntries thresholds rest t
  | (metricName, Some value) :: rest =>
      match thresholds with
      | None => Throw (TypeError "Cannot read properties of undefined")
      | Some ths =>
          match ths !! metricName with
          | None => analyzeEntries thresholds rest t
          | Some threshold =>
              let '(metricScore, new) := scoreMetric metricName value threshold in
              analyzeEntries thresholds rest
                (mkTally (num_add (totalScore t) metricScore)
                         (S (metricCount t))
                         (found t ++ new))
          end
      end
  end.

Definition overallOf (s : number) : status :=
  if num_geb s (Fin 0.9) then excellent
  else if num_geb s (Fin 0.7) then good
  else if num_geb s (Fin 0.5) then fair
  else poor.

Definition generateRecommendations (iss : list issue) (s : number) : list recommendation :=
  map (fun i => mkRecommendation issue_resolution (Some (i_metric i)) (Some (i_severity i))) iss
  ++ (if num_ltb s (Fin 0.8) then [mkRecommendation general_improvement None None] else []).

Definition analyzeMetrics (thresholds : option (gmap string Q)) (metrics : metricsObj)
  : result analysis :=
  match analyzeEntries thresholds metrics (mkTally (Fin 0) 0 []) with
  | Throw e => Throw e
  | Ok t =>
      let s := if (0 <? metricCount t)%nat
               then num_div (totalScore t) (Fin (of_nat (metricCount t)))
               else Fin 0 in
      Ok (mkAnalysis (overallOf s) (found t) s (generateRecommendations (found t) s))
  end.

(** ** The data of the supervisor *)

Definition loc : Type := nat.
Definition timerId : Type := nat.

Inductive loopState : Type := active | inactive.

#[global] Instance loopState_eq_dec : EqDecision loopState.
Proof. solve_decision. Defined.

Record loopConfig : Type := mkConfig {
  c_metrics : list string;
  c_interval : Z;
  c_threshold : option (gmap string Q);
  c_adaptation : string;
  c_priority : string
}.

Record performance : Type := mkPerformance {
  averageExecutionTime : Q;
  successRate : Q;
  improvementRate : Q
}.

Record strategy : Type := mkStrategy {
  s_name : string;
  s_target : string;
  s_severity : severity;
  s_expectedImprovement : Q
}.

Record adaptation : Type := mkAdaptation {
  a_type : string;
  a_target : string;
  a_issues : list issue;
  a_strategies : list strategy;
  a_priority : string;
  a_expectedImpact : number;
  a_timestamp : Z
}.

(** One entry of [loop.adaptations]. *)
Record attempt : Type := mkAttempt {
  at_adaptation : adaptation;
  at_timestamp : Z;
  at_successRate : Q;
  at_strategiesExecuted : nat;
  at_totalStrategies : nat
}.

Record loopObj : Type := mkLoop {
  l_name : string;
  l_config : loopConfig;
  l_state : loopState;
  lastExecution : option Z;
  executionCount : nat;
  improvementCount : nat;
  l_metrics : list (Z * metricsObj);
  adaptations : list attempt;
  l_performance : performance;
  intervalId : option timerId
}.

Record improvement : Type := mkImprovement {
  im_timestamp : Z;
  im_loop : string;
  im_beforeScore : number;
  im_adaptation : string;
  im_strategiesApplied : nat;
  im_expectedImpact : number
}.

Record realTime : Type := mkRealTime {
  responseTime : Q;
  throughput : Q;
  errorRate : Q;
  adaptationRate : nat;
  learningVelocity : Q
}.

Inductive event : Type :=
| started
| stopped
| loopExecuted (name : string) (adaptationNeeded : bool)
| loopError (name : string) (e : exn).

(** What an interval timer of the host runs when it fires. *)
Inductive timer : Type :=
| LoopTimer (l : loc)
| MetricsTimer.

(** The supervisor object together with the part of the host it uses:
    the heap of loop objects, the table of pending interval timers, and the
    oracles behind [Date.now()] and [Math.random()]. *)
Record world : Type := mkWorld {
  heap : gmap loc loopObj;
  activeLoops : list (string * loc);
  performanceThresholds : gmap string (option (gmap string Q));
  improvementHistory : list improvement;
  realTimeMetrics : realTime;
  isRunning : bool;
  metricsInterval : option timerId;
  timers : gmap timerId timer;
  events : list event;
  clock : nat -> Z;
  clockReads : nat;
  random : nat -> Q;
  randomReads : nat
}.

Definition set_heap (f : gmap loc loopObj -> gmap loc loopObj) (w : world) : world :=
  mkWorld (f (heap w)) (activeLoops w) (performanceThresholds w) (improvementHistory w)
    (realTimeMetrics w) (isRunning w) (metricsInterval w) (timers w) (events w)
    (clock w) (clockReads w) (random w) (randomReads w).

Definition set_activeLoops (f : list (string * loc) -> list (string * loc)) (w : world) : world :=
  mkWorld (heap w) (f (activeLoops w)) (performanceThresholds w) (improvementHistory w)
    (realTimeMetrics w) (isRunning w) (metricsInterval w) (timers w) (events w)
    (clock w) (clockReads w) (random w) (randomReads w).

Definition set_performanceThresholds
    (f : gmap string (option (gmap string Q)) -> gmap string (option (gmap string Q)))
    (w : world) : world :=
  mkWorld (heap w) (activeLoops w) (f (performanceThresholds w)) (improvementHistory w)
    (realTimeMetrics w) (isRunning w) (metricsInterval w) (timers w) (events w)
    (clock w) (clockReads w) (random w) (randomReads w).

Definition set_improvementHistory (f : list improvement -> list improvement) (w : world) : world :=
  mkWorld (heap w) (activeLoops w) (performanceThresholds w) (f (improvementHistory w))
    (realTimeMetrics w) (isRunning w) (metricsInterval w) (timers w) (events w)
    (clock w) (clockReads w) (random w) (randomReads w).

Definition set_realTimeMetrics (f : realTime -> realTime) (w : world) : world :=
  mkWorld (heap w) (activeLoops w) (performanceThresholds w) (improvementHistory w)
    (f (realTimeMetrics w)) (isRunning w) (metricsInterval w) (timers w) (events w)
    (clock w) (clockReads w) (random w) (randomReads w).

Definition set_isRunning (b : bool) (w : world) : world :=
  mkWorld (heap w) (activeLoops w) (performanceThresholds w) (improvementHistory w)
    (realTimeMetrics w) b (metricsInterval w) (timers w) (events w)
    (clock w) (clockReads w) (random w) (randomReads w).

Definition set_metricsInterval (i : option timerId) (w : world) : world :=
  mkWorld (heap w) (activeLoops w) (performanceThresholds w) (improvementHistory w)
    (realTimeMetrics w) (isRunning w) i (timers w) (events w)
    (clock w) (clockReads w) (random w) (randomReads w).

Definition set_timers (f : gmap timerId timer -> gmap timerId timer) (w : world) : world :=
  mkWorld (heap w) (activeLoops w) (performanceThresholds w) (improvementHistory w)
    (realTimeMetrics w) (isRunning w) (metricsInterval w) (f (timers w)) (events w)
    (clock w) (clockReads w) (random w) (randomReads w).

Definition add_event (e : event) (w : world) : world :=
  mkWorld (heap w) (activeLoops w) (performanceThresholds w) (improvementHistory w)
    (realTimeMetrics w) (isRunning w) (metricsInterval w) (timers w) (events w ++ [e])
    (clock w) (clockReads w) (random w) (randomReads w).

Definition tick_clock (w : world) : world :=
  mkWorld (heap w) (activeLoops w) (performanceThresholds w) (improvementHistory w)
    (realTimeMetrics w) (isRunning w) (metricsInterval w) (timers w) (events w)
    (clock w) (S (clockReads w)) (random w) (randomReads w).

Definition tick_random (w : world) : world :=
  mkWorld (heap w) (activeLoops w) (performanceThresholds w) (improvementHistory w)
    (realTimeMetrics w) (isRunning w) (metricsInterval w) (timers w) (events w)
    (clock w) (clockReads w) (random w) (S (randomReads w)).

(** ** Computations: state and exceptions *)

Definition M (A : Type) : Type := world -> result A * world.

Definition ret {A} (a : A) : M A := fun w => (Ok a, w).

Definition bind {A B} (m : M A) (k : A -> M B) : M B :=
  fun w => match m w with
           | (Ok a, w') => k a w'
           | (Throw e, w') => (Throw e, w')
           end.

Definition throw {A} (e : exn) : M A := fun w => (Throw e, w).

(** [try { m } catch (e) { h e }] *)
Definition try_catch {A} (m : M A) (h : exn -> M A) : M A :=
  fun w => match m w with
           | (Ok a, w') => (Ok a, w')
           | (Throw e, w') => h e w'
           end.

Definition lift {A} (r : result A) : M A := fun w => (r, w).
Definition modify (f : world -> world) : M unit := fun w => (Ok tt, f w).
Definition gets {A} (f : world -> A) : M A := fun w => (Ok (f w), w).

Notation "'let*' x ':=' m 'in' k" := (bind m (fun x => k))
  (at level 10, x name, m at level 100, k at level 200).
Notation "m ';;' k" := (bind m (fun _ => k))
  (at level 100, k at level 200, right associativity).

(** [Date.now()] *)
Definition now : M Z := fun w => (Ok (clock w (clockReads w)), tick_clock w).

(** [Math.random()] *)
Definition mathRandom : M Q := fun w => (Ok (random w (randomReads w)), tick_random w).

Definition emit (e : event) : M unit := modify (add_event e).

(** A location denotes an allocated loop object in every run that starts
    from the constructor; reading an unallocated one yields [blankLoop]. *)
Definition blankLoop : loopObj :=
  mkLoop "" (mkConfig [] 0 None "" "") inactive None 0 0 [] [] (mkPerformance 0 0 0) None.

Definition getLoop (l : loc) : M loopObj := gets (fun w => default blankLoop (heap w !! l)).
Definition modifyLoop (l : loc) (f : loopObj -> loopObj) : M unit := modify (set_heap (alter f l)).

(** ** Metric sources *)

(** The table [metricCalculators]: each calculator draws one random number
    [r] and reads the gauges [rt]. (Property names inherited from
    [Object.prototype] are not modelled.) *)
Definition metricCalculators : list (string * (realTime -> Q -> Q)) :=
  [ ("response_time", fun rt r => responseTime rt + r * 500);
    ("throughput", fun rt r => throughput rt + r * 20);
    ("error_rate", fun rt r => Qmax 0 (errorRate rt + (r * 0.02 - 0.01)));
    ("learning_velocity", fun _ r => r * 0.3 + 0.7);
    ("pattern_recognition", fun _ r => r * 0.2 + 0.8);
    ("adaptation_success", fun _ r => r * 0.4 + 0.6);
    ("task_distribution", fun _ r => r * 0.3 + 0.7);
    ("agent_efficiency", fun _ r => r * 0.25 + 0.75);
    ("communication_latency", fun _ r => r * 300 + 200);
    ("memory_utilization", fun _ r => r * 0.2 + 0.6);
    ("retrieval_accuracy", fun _ r => r * 0.1 + 0.9);
    ("storage_efficiency", fun _ r => r * 0.3 + 0.7);
    ("idea_quality", fun _ r => r * 0.3 + 0.7);
    ("implementation_success", fun _ r => r * 0.2 + 0.8);
    ("user_satisfaction", fun _ r => r * 0.15 + 0.85) ]%string.

Definition getMetricValue (metricName : string) : M Q :=
  match assoc_get metricCalculators metricName with
  | Some calculator =>
      let* rt := gets realTimeMetrics in
      let* r := mathRandom in
      ret (calculator rt r)
  | None => throw (Error ("Unknown metric: " +:+ metricName))
  end.

(** [collectMetrics], over an arbitrary metric source [source]; the class
    uses [getMetricValue]. *)
Fixpoint collectInto (source : string -> M Q) (metricNames : list string)
    (metrics : metricsObj) : M metricsObj :=
  match metricNames with
  | [] => ret metrics
  | metricName :: rest =>
      let* v := try_catch (let* x := source metricName in ret (Some x))
                          (fun _ => ret None) in
      collectInto source rest (assoc_set metrics metricName v)
  end.

Definition collectMetricsWith (source : string -> M Q) (metricNames : list string)
  : M metricsObj :=
  collectInto source metricNames [].

Definition collectMetrics : list string -> M metricsObj := collectMetricsWith getMetricValue.

(** ** Deciding on an adaptation *)

Fixpoint insertDesc (e : Z * metricsObj) (l : list (Z * metricsObj)) : list (Z * metricsObj) :=
  match l with
  | [] => [e]
  | x :: rest => if (fst x <? fst e)%Z then e :: x :: rest else x :: insertDesc e rest
  end.

(** [entries.sort((a, b) => b[0] - a[0])]: newest first; the keys of a
    [Map] are distinct. *)
Definition sortDesc (l : list (Z * metricsObj)) : list (Z * metricsObj) :=
  foldr insertDesc [] l.

Definition getRecentMetrics (L : loopObj) (count : nat) : list (Z * metricsObj) :=
  take count (sortDesc (l_metrics L)).

Definition calculateAverageScore (metrics : metricsObj) : Q :=
  let values := omap snd metrics in
  if (0 <? length values)%nat
  then foldl Qplus 0 values / of_nat (length values)
  else 0.

Definition calculateTrend (recentMetrics : list (Z * metricsObj)) : number :=
  if (length recentMetrics <? 2)%nat then Fin 0
  else
    let first := default [] (snd <$> last recentMetrics) in
    let latest := default [] (snd <$> head recentMetrics) in
    let firstScore := calculateAverageScore first in
    let lastScore := calculateAverageScore latest in
    num_div (num_sub (Fin lastScore) (Fin firstScore)) (Fin firstScore).

Definition needsAdaptation (L : loopObj) (a : analysis) : bool :=
  if num_ltb (score a) (Fin 0.7) then true
  else if (0 <? length (filter (fun i => i_severity i = high) (issues a)))%nat then true
  else
    let recentMetrics := getRecentMetrics L 5 in
    if (3 <=? length recentMetrics)%nat
    then (if num_ltb (calculateTrend recentMetrics) (Fin (-0.1)) then true else false)
    else false.

(** ** Generating an adaptation *)

Definition calculateAdaptationPriority (a : analysis) : string :=
  if num_ltb (score a) (Fin 0.5) then "critical"
  else if num_ltb (score a) (Fin 0.7) then "high"
  else if num_ltb (score a) (Fin 0.85) then "medium"
  else "low".

Definition estimateAdaptationImpact (a : analysis) : number :=
  num_min (Fin 0.3) (num_mul (num_sub (Fin 1.0) (score a)) (Fin 0.5)).

Definition baseImpact : list (string * Q) :=
  [ ("optimize_response_time", 0.2); ("increase_parallel_processing", 0.15);
    ("reduce_error_rate", 0.25); ("enhance_pattern_recognition", 0.1);
    ("accelerate_learning", 0.15); ("improve_task_distribution", 0.1);
    ("enhance_communication", 0.05); ("optimize_memory_usage", 0.1);
    ("improve_retrieval", 0.15) ]%string.

Definition estimateStrategyImpact (strategyName : string) (i : issue) : Q :=
  let impact := default 0.05 (assoc_get baseImpact strategyName) in
  let severityMultiplier :=
    match i_severity i with high => 1.5 | medium => 1.2 | low => 1.0 end in
  impact * severityMultiplier.

Definition strategyMap : list (string * list (string * list string)) :=
  [ ("performance_optimization",
      [ ("response_time", ["optimize_response_time"; "increase_parallel_processing"]);
        ("throughput", ["increase_parallel_processing"; "optimize_resource_allocation"]);
        ("error_rate", ["reduce_error_rate"; "improve_error_handling"]) ]);
    ("learning_optimization",
      [ ("learning_velocity", ["accelerate_learning"; "optimize_algorithms"]);
        ("pattern_recognition", ["enhance_pattern_recognition"; "improve_data_quality"]) ]);
    ("coordination_optimization",
      [ ("task_distribution", ["improve_task_distribution"; "enhance_load_balancing"]);
        ("communication_latency", ["enhance_communication"; "optimize_protocols"]) ]);
    ("memory_optimization",
      [ ("memory_utilization", ["optimize_memory_usage"; "improve_garbage_collection"]);
        ("retrieval_accuracy", ["improve_retrieval"; "enhance_indexing"]) ]);
    ("innovation_enhancement",
      [ ("idea_quality", ["enhance_creativity"; "improve_brainstorming"]);
        ("implementation_success", ["improve_implementation"; "enhance_testing"]) ]) ]%string.

Definition generateStrategiesForIssue (i : issue) (adaptationType : string) : list strategy :=
  let strategies :=
    default [] (assoc_get strategyMap adaptationType ≫= fun m => assoc_get m (i_metric i)) in
  map (fun name => mkStrategy name (i_metric i) (i_severity i) (estimateStrategyImpact name i))
      strategies.

Definition generalStrategies : list (string * list string) :=
  [ ("performance_optimization", ["general_performance_tuning"]);
    ("learning_optimization", ["enhance_learning_algorithms"]);
    ("coordination_optimization", ["improve_coordination_protocols"]);
    ("memory_optimization", ["optimize_memory_management"]);
    ("innovation_enhancement", ["enhance_innovation_processes"]) ]%string.

Definition generateGeneralStrategies (adaptationType : string) (a : analysis) : list strategy :=
  let strategies := default [] (assoc_get generalStrategies adaptationType) in
  map (fun name => mkStrategy name "general" medium 0.1) strategies.

Definition generateAdaptation (L : loopObj) (a : analysis) : M adaptation :=
  let adaptationType := c_adaptation (l_config L) in
  let* timestamp := now in
  ret (mkAdaptation adaptationType (l_name L) (issues a)
         (concat (map (fun i => generateStrategiesForIssue i adaptationType) (issues a))
          ++ generateGeneralStrategies adaptationType a)
         (calculateAdaptationPriority a) (estimateAdaptationImpact a) timestamp).

(** ** Applying an adaptation *)

Definition set_l_state (s : loopState) (L : loopObj) : loopObj :=
  mkLoop (l_name L) (l_config L) s (lastExecution L) (executionCount L) (improvementCount L)
    (l_metrics L) (adaptations L) (l_performance L) (intervalId L).

Definition set_lastExecution (t : option Z) (L : loopObj) : loopObj :=
  mkLoop (l_name L) (l_config L) (l_state L) t (executionCount L) (improvementCount L)
    (l_metrics L) (adaptations L) (l_performance L) (intervalId L).

Definition set_executionCount (n : nat) (L : loopObj) : loopObj :=
  mkLoop (l_name L) (l_config L) (l_state L) (lastExecution L) n (improvementCount L)
    (l_metrics L) (adaptations L) (l_performance L) (intervalId L).

Definition set_improvementCount (n : nat) (L : loopObj) : loopObj :=
  mkLoop (l_name L) (l_config L) (l_state L) (lastExecution L) (executionCount L) n
    (l_metrics L) (adaptations L) (l_performance L) (intervalId L).

Definition set_l_metrics (m : list (Z * metricsObj)) (L : loopObj) : loopObj :=
  mkLoop (l_name L) (l_config L) (l_state L) (lastExecution L) (executionCount L)
    (improvementCount L) m (adaptations L) (l_performance L) (intervalId L).

Definition set_adaptations (a : list attempt) (L : loopObj) : loopObj :=
  mkLoop (l_name L) (l_config L) (l_state L) (lastExecution L) (executionCount L)
    (improvementCount L) (l_metrics L) a (l_performance L) (intervalId L).

Definition set_l_performance (p : performance) (L : loopObj) : loopObj :=
  mkLoop (l_name L) (l_config L) (l_state L) (lastExecution L) (executionCount L)
    (improvementCount L) (l_metrics L) (adaptations L) p (intervalId L).

Definition set_intervalId (i : option timerId) (L : loopObj) : loopObj :=
  mkLoop (l_name L) (l_config L) (l_state L) (lastExecution L) (executionCount L)
    (improvementCount L) (l_metrics L) (adaptations L) (l_performance L) i.

(** The table [strategies] of [executeAdaptationStrategy]: what each known
    strategy does to the gauges; every one of them returns [true]. *)
Definition strategyExecutors : list (string * (realTime -> realTime)) :=
  [ ("increase_parallel_processing",
      fun rt => mkRealTime (responseTime rt) (throughput rt * 1.1) (errorRate rt)
                  (adaptationRate rt) (learningVelocity rt));
    ("optimize_response_time",
      fun rt => mkRealTime (responseTime rt * 0.9) (throughput rt) (errorRate rt)
                  (adaptationRate rt) (learningVelocity rt));
    ("reduce_error_rate",
      fun rt => mkRealTime (responseTime rt) (throughput rt) (errorRate rt * 0.8)
                  (adaptationRate rt) (learningVelocity rt));
    ("enhance_pattern_recognition", fun rt => rt);
    ("accelerate_learning",
      fun rt => mkRealTime (responseTime rt) (throughput rt) (errorRate rt)
                  (adaptationRate rt) (learningVelocity rt * 1.15));
    ("improve_task_distribution", fun rt => rt);
    ("enhance_communication", fun rt => rt);
    ("optimize_memory_usage", fun rt => rt);
    ("improve_retrieval", fun rt => rt);
    ("enhance_creativity", fun rt => rt);
    ("improve_implementation", fun rt => rt) ]%string.

Definition executeAdaptationStrategy (s : strategy) : M bool :=
  match assoc_get strategyExecutors (s_name s) with
  | Some executor => modify (set_realTimeMetrics executor) ;; ret true
  | None => ret false
  end.

(** The [for] loop of [applyAdaptation], over an arbitrary executor: a
    strategy counts when the executor returns [true]; when it throws, the
    [catch] logs and the loop goes on. *)
Fixpoint runStrategies (executor : strategy -> M bool) (strategies : list strategy)
    (successCount : nat) : M nat :=
  match strategies with
  | [] => ret successCount
  | s :: rest =>
      let* successCount' :=
        try_catch (let* success := executor s in
                   ret (if success then S successCount else successCount))
                  (fun _ => ret successCount) in
      runStrategies executor rest successCount'
  end.

Definition applyAdaptationWith (executor : strategy -> M bool) (l : loc) (a : adaptation)
  : M bool :=
  let totalStrategies := length (a_strategies a) in
  let* successCount := runStrategies executor (a_strategies a) 0 in
  let successRate := if (0 <? totalStrategies)%nat
                     then of_nat successCount / of_nat totalStrategies
                     else 0 in
  let* timestamp := now in
  modifyLoop l (fun L => set_adaptations
     (adaptations L ++ [mkAttempt a timestamp successRate successCount totalStrategies]) L) ;;
  ret (Qltb 0.5 successRate).

Definition applyAdaptation : loc -> adaptation -> M bool :=
  applyAdaptationWith executeAdaptationStrategy.

(** [slice(-n)]: the last [n] elements. *)
Definition lastN {A} (n : nat) (l : list A) : list A := drop (length l - n) l.

Definition recordImprovement (l : loc) (a : adaptation) (an : analysis) : M unit :=
  let* timestamp := now in
  let* L := getLoop l in
  modify (set_improvementHistory (fun h =>
    let h' := h ++ [mkImprovement timestamp (l_name L) (score an) (a_type a)
                      (length (a_strategies a)) (a_expectedImpact a)] in
    if (100 <? length h')%nat then lastN 100 h' else h')).

Definition updateLoopPerformance (l : loc) (executionTime : Z) (success : bool) : M unit :=
  modifyLoop l (fun L =>
    let perf := l_performance L in
    let count := of_nat (executionCount L) in
    let averageExecutionTime' :=
      (averageExecutionTime perf * count + inject_Z executionTime) / (count + 1) in
    let successCount := successRate perf * count + (if success then 1 else 0) in
    let successRate' := successCount / (count + 1) in
    let improvementRate' := of_nat (improvementCount L) / (count + 1) in
    set_l_performance (mkPerformance averageExecutionTime' successRate' improvementRate') L).

(** ** One cycle of a loop *)

(** The [try] block of [executeLoop]. *)
Definition executeLoopTry (source : string -> M Q) (executor : strategy -> M bool)
    (l : loc) (startTime : Z) : M unit :=
  let* L := getLoop l in
  let* metrics := collectMetricsWith source (c_metrics (l_config L)) in
  let* stamp := now in
  modifyLoop l (fun L => set_l_metrics (assoc_set (l_metrics L) stamp metrics) L) ;;
  let* thresholds := gets (fun w => performanceThresholds w !! l_name L ≫= id) in
  let* an := lift (analyzeMetrics thresholds metrics) in
  let* L1 := getLoop l in
  let adaptationNeeded := needsAdaptation L1 an in
  (if adaptationNeeded then
     let* a := generateAdaptation L1 an in
     let* success := applyAdaptationWith executor l a in
     if success then
       modifyLoop l (fun L => set_improvementCount (S (improvementCount L)) L) ;;
       recordImprovement l a an
     else ret tt
   else ret tt) ;;
  let* finish := now in
  let executionTime := (finish - startTime)%Z in
  updateLoopPerformance l executionTime (negb adaptationNeeded || adaptationNeeded) ;;
  modifyLoop l (fun L => set_executionCount (S (executionCount L)) L) ;;
  let* t := now in
  modifyLoop l (set_lastExecution (Some t)) ;;
  emit (loopExecuted (l_name L) adaptationNeeded).

Definition executeLoopWith (source : string -> M Q) (executor : strategy -> M bool)
    (l : loc) : M unit :=
  let* startTime := now in
  try_catch (executeLoopTry source executor l startTime)
            (fun error => let* L := getLoop l in emit (loopError (l_name L) error)).

Definition executeLoop : loc -> M unit :=
  executeLoopWith getMetricValue executeAdaptationStrategy.

(** ** Registry and life cycle *)

Definition newLoop (name : string) (config : loopConfig) : loopObj :=
  mkLoop name config inactive None 0 0 [] [] (mkPerformance 0 0 0) None.

(** The loop object is allocated at a location that no existing object
    occupies; [activeLoops.set] and [performanceThresholds.set] overwrite
    whatever was registered under [name]. *)
Definition createFeedbackLoop (name : string) (config : loopConfig) : M loc :=
  let* l := gets (fun w => fresh (dom (heap w))) in
  modify (set_heap (insert l (newLoop name config))) ;;
  modify (set_activeLoops (fun m => assoc_set m name l)) ;;
  modify (set_performanceThresholds (insert name (c_threshold config))) ;;
  ret l.

(** [setInterval]: a new pending timer under a handle not in use. *)
Definition setInterval (t : timer) : M timerId :=
  let* id := gets (fun w => fresh (dom (timers w))) in
  modify (set_timers (insert id t)) ;;
  ret id.

Definition clearInterval (id : timerId) : M unit := modify (set_timers (delete id)).

Definition startLoop (l : loc) : M unit :=
  let* L := getLoop l in
  match l_state L with
  | active => ret tt
  | inactive =>
      modifyLoop l (set_l_state active) ;;
      let* id := setInterval (LoopTimer l) in
      modifyLoop l (set_intervalId (Some id))
  end.

Definition stopLoop (l : loc) : M unit :=
  let* L := getLoop l in
  match l_state L with
  | inactive => ret tt
  | active =>
      modifyLoop l (set_l_state inactive) ;;
      match intervalId L with
      | Some id => clearInterval id ;; modifyLoop l (set_intervalId None)
      | None => ret tt
      end
  end.

Fixpoint forEach {A} (f : A -> M unit) (l : list A) : M unit :=
  match l with
  | [] => ret tt
  | x :: rest => f x ;; forEach f rest
  end.

Definition startRealTimeMetrics : M unit :=
  let* id := setInterval MetricsTimer in
  modify (set_metricsInterval (Some id)).

Definition start : M unit :=
  let* running := gets isRunning in
  if running then ret tt
  else
    modify (set_isRunning true) ;;
    let* loops := gets activeLoops in
    forEach (fun e => startLoop (snd e)) loops ;;
    startRealTimeMetrics ;;
    emit started.

Definition stop : M unit :=
  let* running := gets isRunning in
  if negb running then ret tt
  else
    modify (set_isRunning false) ;;
    let* loops := gets activeLoops in
    forEach (fun e => stopLoop (snd e)) loops ;;
    emit stopped.

(** [calculateAdaptationRate]: the filter reads the clock once per entry. *)
Fixpoint countRecent (h : list improvement) (n : nat) : M nat :=
  match h with
  | [] => ret n
  | imp :: rest =>
      let* t := now in
      countRecent rest (if (t - im_timestamp imp <? 60000)%Z then S n else n)
  end.

Definition calculateAdaptationRate : M nat :=
  let* h := gets improvementHistory in countRecent h 0.

(** The callback of the timer set by [startRealTimeMetrics]. *)
Definition updateRealTimeMetrics : M unit :=
  let* r1 := mathRandom in
  modify (set_realTimeMetrics (fun rt =>
    mkRealTime (responseTime rt + (r1 - 0.5) * 100) (throughput rt) (errorRate rt)
      (adaptationRate rt) (learningVelocity rt))) ;;
  let* r2 := mathRandom in
  modify (set_realTimeMetrics (fun rt =>
    mkRealTime (responseTime rt) (throughput rt + (r2 - 0.5) * 2) (errorRate rt)
      (adaptationRate rt) (learningVelocity rt))) ;;
  let* r3 := mathRandom in
  modify (set_realTimeMetrics (fun rt =>
    mkRealTime (responseTime rt) (throughput rt) (errorRate rt + (r3 - 0.5) * 0.001)
      (adaptationRate rt) (learningVelocity rt))) ;;
  let* rate := calculateAdaptationRate in
  let* r4 := mathRandom in
  modify (set_realTimeMetrics (fun rt =>
    mkRealTime (Qmax 100 (Qmin 5000 (responseTime rt)))
      (Qmax 1 (Qmin 100 (throughput rt)))
      (Qmax 0 (Qmin 0.2 (errorRate rt)))
      rate
      (Qmax 0.1 (Qmin 1.0 (learningVelocity rt + (r4 - 0.5) * 0.1))))).

(** A pending interval timer fires. The callback of a loop timer calls
    [executeLoop] on the loop object it captured and drops the promise. *)
Definition fire (id : timerId) : M unit :=
  let* t := gets (fun w => timers w !! id) in
  match t with
  | Some (LoopTimer l) => executeLoop l
  | Some MetricsTimer => updateRealTimeMetrics
  | None => ret tt
  end.

(** ** The constructor *)

Definition thresholdsOf (l : list (string * Q)) : option (gmap string Q) :=
  Some (list_to_map l).

Definition initializeDefaultLoops : M unit :=
  createFeedbackLoop "performance"
    (mkConfig ["response_time"; "throughput"; "error_rate"] 5000
       (thresholdsOf [("response_time", 2000); ("throughput", 10); ("error_rate", 0.05)])
       "performance_optimization" "high") ;;
  createFeedbackLoop "learning"
    (mkConfig ["learning_velocity"; "pattern_recognition"; "adaptation_success"] 10000
       (thresholdsOf [("learning_velocity", 0.7); ("pattern_recognition", 0.8);
                      ("adaptation_success", 0.6)])
       "learning_optimization" "medium") ;;
  createFeedbackLoop "coordination"
    (mkConfig ["task_distribution"; "agent_efficiency"; "communication_latency"] 15000
       (thresholdsOf [("task_distribution", 0.8); ("agent_efficiency", 0.75);
                      ("communication_latency", 500)])
       "coordination_optimization" "high") ;;
  createFeedbackLoop "memory"
    (mkConfig ["memory_utilization"; "retrieval_accuracy"; "storage_efficiency"] 20000
       (thresholdsOf [("memory_utilization", 0.8); ("retrieval_accuracy", 0.9);
                      ("storage_efficiency", 0.7)])
       "memory_optimization" "medium") ;;
  createFeedbackLoop "innovation"
    (mkConfig ["idea_quality"; "implementation_success"; "user_satisfaction"] 30000
       (thresholdsOf [("idea_quality", 0.7); ("implementation_success", 0.8);
                      ("user_satisfaction", 0.85)])
       "innovation_enhancement" "medium") ;;
  ret tt.

Definition emptyWorld (clock : nat -> Z) (random : nat -> Q) : world :=
  mkWorld ∅ [] ∅ [] (mkRealTime 0 0 0 0 0) false None ∅ [] clock 0 random 0.

(** [new SwarmFeedbackLoops()] on a host with the given oracles. *)
Definition constructor (clock : nat -> Z) (random : nat -> Q) : world :=
  snd (initializeDefaultLoops (emptyWorld clock random)).

(** ** Runs *)

(** What the outside may do to a supervisor: call a public method, or let
    time pass until a pending timer fires. *)
Inductive call : Type :=
| CreateFeedbackLoop (name : string) (config : loopConfig)
| Start
| Stop
| StartLoop (l : loc)
| StopLoop (l : loc)
| ExecuteLoop (l : loc)
| Fire (id : timerId).

Definition perform (c : call) : M unit :=
  match c with
  | CreateFeedbackLoop name config => createFeedbackLoop name config ;; ret tt
  | Start => start
  | Stop => stop
  | StartLoop l => startLoop l
  | StopLoop l => stopLoop l
  | ExecuteLoop l => executeLoop l
  | Fire id => fire id
  end.

Definition run (cs : list call) (w : world) : world :=
  foldl (fun w c => snd (perform c w)) w cs.

Inductive reachable : world -> Prop :=
| reach_new clock random : reachable (constructor clock random)
| reach_call w c : reachable w -> reachable (snd (perform c w)).

(** ** The evaluator as the specification words it *)

(** The samples that have a value and a configured threshold, in the order
    in which [analyzeMetrics] meets them: name, value, limit. *)
Definition matched (ths : gmap string Q) (metrics : metricsObj) : list (string * Q * Q) :=
  omap (fun e => v ← snd e; l ← ths !! fst e; Some (fst e, v, l)) metrics.

(** The per-metric scores that one evaluation computes. *)
Definition metricScores (ths : gmap string Q) (metrics : metricsObj) : list number :=
  map (fun m => fst (scoreMetric m.1.1 m.1.2 m.2)) (matched ths metrics).

Definition num_sum (l : list number) : number := foldl num_add (Fin 0) l.

(** Arithmetic mean, 0 for the empty list. *)
Definition num_mean (l : list number) : number :=
  match l with
  | [] => Fin 0
  | _ => num_div (num_sum l) (Fin (of_nat (length l)))
  end.

(** Spec: [min(1, value/limit)] for HigherIsBetter; [min(1, limit/value)]
    for LowerIsBetter, with value 0 scored 1. *)
Definition specScore (higherIsBetter : bool) (value limit : Q) : Q :=
  if higherIsBetter then Qmin 1 (value / limit)
  else if Qeq_bool value 0 then 1
  else Qmin 1 (limit / value).

(** Spec: High if score < 0.5, Medium if score < 0.8, else Low. *)
Definition specSeverity (s : Q) : severity :=
  if Qltb s 0.5 then high else if Qltb s 0.8 then medium else low.

(** Spec: a metric is a violation when its score is below 1. *)
Definition specViolation (metricName : string) (value limit : Q) : list issue :=
  let s := specScore (isHigherBetterMetric metricName) value limit in
  if Qltb s 1 then [mkIssue metricName value limit (specSeverity s)] else [].

(** The evaluator agrees with the specification on one metric. *)
Definition agreesWithSpec (metricName : string) (value limit : Q) : Prop :=
  fst (scoreMetric metricName value limit)
    =n= Fin (specScore (isHigherBetterMetric metricName) value limit)
  /\ snd (scoreMetric metricName value limit) = specViolation metricName value limit.

(** Spec: >= 0.9 Excellent, >= 0.7 Good, >= 0.5 Fair, else Poor. *)
Definition specStatus (q : Q) (s : status) : Prop :=
  match s with
  | excellent => 0.9 <= q
  | good => 0.7 <= q /\ q < 0.9
  | fair => 0.5 <= q /\ q < 0.7
  | poor => q < 0.5
  end.

(** The same buckets for a score that may be infinite. *)
Definition specStatusOf (s : number) (st : status) : Prop :=
  match s with
  | Fin q => specStatus q st
  | NInf => st = poor
  | PInf => st = excellent
  | NaN => False
  end.

Definition finiteOrNInf (s : number) : Prop :=
  match s with
  | Fin _ | NInf => True
  | PInf | NaN => False
  end.

Definition inUnitInterval (s : number) : Prop :=
  exists q, s = Fin q /\ 0 <= q /\ q <= 1.

(** ** The decision, the counters, registration and stopping as the
    specification words them *)

(** Spec: the mean per-metric score of the analysis of a snapshot. *)
Definition specSnapshotScore (ths : gmap string Q) (metrics : metricsObj) : number :=
  num_mean (metricScores ths metrics).

(** Spec: [(recent - older)/older] over the mean per-metric scores of the
    most recent snapshot and of the oldest of the recent ones. *)
Definition specTrend (ths : gmap string Q) (recentMetrics : list (Z * metricsObj)) : number :=
  if (length recentMetrics <? 2)%nat then Fin 0
  else
    let older := specSnapshotScore ths (default [] (snd <$> last recentMetrics)) in
    let recent := specSnapshotScore ths (default [] (snd <$> head recentMetrics)) in
    num_div (num_sub recent older) older.

(** Spec: adapt when the score is below 0.7, or some violation is high, or
    at least three recent analyses exist and the trend is below -0.1. *)
Definition specNeedsAdaptation (ths : gmap string Q) (L : loopObj) (a : analysis) : bool :=
  num_ltb (score a) (Fin 0.7)
  || bool_decide (Exists (fun i => i_severity i = high) (issues a))
  || ((3 <=? length (getRecentMetrics L 5))%nat
      && num_ltb (specTrend ths (getRecentMetrics L 5)) (Fin (-0.1))).

(** Spec: every cycle, failed or not, adds one to the execution count. *)
Definition specCountsEveryCycle (l : loc) (w : world) : Prop :=
  executionCount <$> heap (executeLoop l w).2 !! l
  = (fun L => S (executionCount L)) <$> heap w !! l.

(** Spec: registering a name whose loop is active raises an error. *)
Definition specRejectsActive (name : string) (config : loopConfig) (w : world) : Prop :=
  (exists l L, assoc_get (activeLoops w) name = Some l
               /\ heap w !! l = Some L /\ l_state L = active) ->
  throws (createFeedbackLoop name config w).1 = true.

(** Spec: once [stop()] has returned, no firing of a timer, however many
    of them, changes the execution count of any loop. *)
Definition specStopQuiesces (w : world) : Prop :=
  forall (ids : list timerId) (l : loc),
    executionCount <$> heap (run (Fire <$> ids) (stop w).2) !! l
    = executionCount <$> heap (stop w).2 !! l.

(** ** Effects of computations *)

Definition alwaysThrows {A} (m : M A) : Prop := forall w, throws (m w).1 = true.
Definition alwaysReturns {A} (m : M A) (a : A) : Prop := forall w, (m w).1 = Ok a.

(** [post m w Q]: the result and the final world of [m] run in [w]
    satisfy [Q]. *)
Definition post {A} (m : M A) (w : world) (Q : result A -> world -> Prop) : Prop :=
  Q (m w).1 (m w).2.

(** The control state of the supervisor: pending timers, registry, flag. *)
Definition sameControl (w w' : world) : Prop :=
  timers w' = timers w /\ activeLoops w' = activeLoops w /\ isRunning w' = isRunning w.

(** A computation that leaves the loop objects and the control state alone. *)
Definition quiet {A} (m : M A) : Prop :=
  forall w, heap (m w).2 = heap w /\ sameControl w (m w).2.

(** [updates l F w w']: from [w] to [w'] the loop object at [l] went
    through [F] and nothing else of the heap or the control state changed. *)
Definition updates (l : loc) (F : loopObj -> loopObj) (w w' : world) : Prop :=
  heap w' = alter F l (heap w) /\ sameControl w w'.

Definition touches (l : loc) (R : loopObj -> loopObj -> Prop) (w w' : world) : Prop :=
  (exists F, updates l F w w' /\ forall L, R L (F L)).

(** The name, the configuration, the state and the timer handle of a loop. *)
Definition sameIdentity (L L' : loopObj) : Prop :=
  l_name L' = l_name L /\ l_config L' = l_config L
  /\ l_state L' = l_state L /\ intervalId L' = intervalId L.

(** Either the improvement count is unchanged, or it grew by one and the
    cycle appended an adaptation attempt whose success rate, successful
    strategies over strategies attempted, exceeds 0.5. *)
Definition improved (L L' : loopObj) : Prop :=
  improvementCount L' = improvementCount L
  \/ (improvementCount L' = S (improvementCount L)
      /\ exists att, adaptations L' = adaptations L ++ [att]
           /\ 0.5 < at_successRate att
           /\ at_successRate att
              == of_nat (at_strategiesExecuted att) / of_nat (at_totalStrategies att)).

(** The state of a loop before the performance update of a cycle. *)
Definition beforeUpdate (L L' : loopObj) : Prop :=
  sameIdentity L L' /\ executionCount L' = executionCount L
  /\ l_performance L' = l_performance L /\ improved L L'.

(** What one cycle does to its loop object, by the way the [try] block
    ended. *)
Definition cycleEffect (r : result unit) (L L' : loopObj) : Prop :=
  sameIdentity L L'
  /\ match r with
     | Throw _ =>
         executionCount L' = executionCount L
         /\ improvementCount L' = improvementCount L
         /\ l_performance L' = l_performance L
     | Ok _ =>
         executionCount L' = S (executionCount L)
         /\ successRate (l_performance L')
            = (successRate (l_performance L) * of_nat (executionCount L) + 1)
              / (of_nat (executionCount L) + 1)
         /\ improved L L'
     end.

(** Whether the [try] block of the cycle of [l] started in [w] throws. *)
Definition cycleThrows (source : string -> M Q) (executor : strategy -> M bool)
    (l : loc) (w : world) : bool :=
  throws (executeLoopTry source executor l (clock w (clockReads w)) (tick_clock w)).1.

(** ** Invariants *)

Definition loopsSatisfy (P : loopObj -> Prop) (w : world) : Prop :=
  forall l L, heap w !! l = Some L -> P L.

Definition maintains {A} (I : world -> Prop) (m : M A) : Prop :=
  forall w, I w -> I (m w).2.

(** A loop that has not run yet, or whose recorded success rate is 1. *)
Definition cleanRecord (L : loopObj) : Prop :=
  executionCount L = 0%nat \/ successRate (l_performance L) == 1.

(** A pending loop timer is owned when the loop object it runs is active,
    holds the handle of the timer, and is registered. *)
Definition ownsTimer (w : world) (id : timerId) (t : timer) : bool :=
  match t with
  | MetricsTimer => true
  | LoopTimer l =>
      match heap w !! l with
      | Some L =>
          bool_decide (l_state L = active)
          && bool_decide (intervalId L = Some id)
          && bool_decide (l ∈ (snd <$> activeLoops w))
      | None => false
      end
  end.

Definition timersOwned (w : world) : Prop :=
  map_Forall (fun id t => ownsTimer w id t = true) (timers w).

(** Each pending loop timer belongs to an active loop object that holds
    its handle. *)
Definition timersHeld (w : world) : Prop :=
  forall id l, timers w !! id = Some (LoopTimer l) ->
    exists L, heap w !! l = Some L /\ l_state L = active /\ intervalId L = Some id.

Definition noLoopTimer (w : world) : Prop :=
  forall id l, timers w !! id <> Some (LoopTimer l).

Definition noTimerFor (l : loc) (w : world) : Prop :=
  forall id, timers w !! id <> Some (LoopTimer l).

(** ** Scenarios *)

Definition steadyClock (n : nat) : Z := Z.of_nat n.
Definition midRandom (n : nat) : Q := 0.5.

(** The threshold table of the default performance loop. *)
Definition performanceThresholdTable : gmap string Q :=
  list_to_map [("response_time"%string, 2000); ("throughput"%string, 10);
               ("error_rate"%string, 0.05)].

Definition latencyThresholds : option (gmap string Q) :=
  thresholdsOf [("response_time"%string, 1000)].

Definition latencySample : metricsObj := [("response_time"%string, Some 2000)].

Definition latencyTable : gmap string Q := list_to_map [("response_time"%string, 2000)].

(** A loop whose response time went from 1000 over 800 to 500, all within
    the limit 2000. *)
Definition improvingLoop : loopObj :=
  mkLoop "latency"
    (mkConfig ["response_time"%string] 5000 (Some latencyTable) "performance_optimization" "high")
    active (Some 2000%Z) 2 0
    [ (1000%Z, [("response_time"%string, Some 1000)]);
      (2000%Z, [("response_time"%string, Some 800)]);
      (3000%Z, [("response_time"%string, Some 500)]) ]
    [] (mkPerformance 0 1 0) (Some 0%nat).

(** Random numbers that make the response time of the performance loop
    450 on the first two cycles and 50 on the third, with the throughput
    at 18 throughout. *)
Definition fallingLatency (n : nat) : Q :=
  match n with
  | 6%nat => 0.1
  | _ => 0.9
  end.

(** A strategy executor that always throws. *)
Definition failingExecutor (s : strategy) : M bool := throw (Error "strategy failed").

(** A loop registered without a threshold table: the evaluation of its
    first sample throws. *)
Definition unconfigured : loopConfig :=
  mkConfig ["response_time"%string] 1000 None "performance_optimization" "high".

Definition unconfiguredWorld : world :=
  run [CreateFeedbackLoop "bare" unconfigured] (constructor steadyClock midRandom).

(** The supervisor after [start()]. *)
Definition runningWorld : world := run [Start] (constructor steadyClock midRandom).

(** The performance loop is registered again while it runs. *)
Definition replacement : loopConfig :=
  mkConfig ["response_time"%string] 1000 (thresholdsOf [("response_time"%string, 500)])
    "performance_optimization" "high".

Definition replacedWorld : world :=
  run [Start; Fire 0%nat; CreateFeedbackLoop "performance" replacement]
      (constructor steadyClock midRandom).

(** ** The status report *)

Record loopStatus : Type := mkLoopStatus {
  ls_state : loopState;
  ls_executionCount : nat;
  ls_improvementCount : nat;
  ls_lastExecution : option Z;
  ls_performance : performance
}.

Record statusReport : Type := mkStatus {
  st_running : bool;
  st_activeLoops : nat;
  st_totalExecutions : nat;
  st_totalImprovements : nat;
  st_realTimeMetrics : realTime;
  st_loops : list (string * loopStatus);
  st_recentImprovements : list improvement
}.

(** [Array.from(this.activeLoops.values())] *)
Definition loopValues (w : world) : list loopObj :=
  (fun e => default blankLoop (heap w !! e.2)) <$> activeLoops w.

Definition statusOf (L : loopObj) : loopStatus :=
  mkLoopStatus (l_state L) (executionCount L) (improvementCount L) (lastExecution L)
    (l_performance L).

(** [getStatus]; it reads the supervisor and changes nothing. *)
Definition getStatus (w : world) : statusReport :=
  mkStatus (isRunning w)
    (length (activeLoops w))
    (foldl (fun sum L => sum + executionCount L)%nat 0%nat (loopValues w))
    (foldl (fun sum L => sum + improvementCount L)%nat 0%nat (loopValues w))
    (realTimeMetrics w)
    (foldl (fun o e => assoc_set o e.1 (statusOf (default blankLoop (heap w !! e.2))))
           [] (activeLoops w))
    (lastN 10 (improvementHistory w)).

(** ** Notions for the further properties *)

(** The improvement ledger holds at most 100 entries. *)
Definition historyBounded (w : world) : Prop :=
  (length (improvementHistory w) <= 100)%nat.

(** What [recordImprovement] does to the ledger, given the new entry. *)
Definition pushImprovement (imp : improvement) (h : list improvement) : list improvement :=
  let h' := h ++ [imp] in
  if (100 <? length h')%nat then lastN 100 h' else h'.

(** The gauges of [realTimeMetrics] are not negative. *)
Definition gaugesNonneg (w : world) : Prop :=
  0 <= responseTime (realTimeMetrics w) /\ 0 <= throughput (realTimeMetrics w)
  /\ 0 <= errorRate (realTimeMetrics w) /\ 0 <= learningVelocity (realTimeMetrics w).

(** The gauges after a callback of the metrics timer. *)
Definition gaugesClamped (rt : realTime) : Prop :=
  (100 <= responseTime rt /\ responseTime rt <= 5000)
  /\ (1 <= throughput rt /\ throughput rt <= 100)
  /\ (0 <= errorRate rt /\ errorRate rt <= 0.2)
  /\ (0.1 <= learningVelocity rt /\ learningVelocity rt <= 1).

(** A metrics object without a negative sample. *)
Definition samplesNonneg (metrics : metricsObj) : Prop :=
  forall n v, (n, Some v) ∈ metrics -> 0 <= v.


(** The strategies that [executeAdaptationStrategy] implements. *)
Definition implemented (s : strategy) : bool :=
  bool_decide (is_Some (assoc_get strategyExecutors (s_name s))).

Definition countImplemented (strategies : list strategy) : nat :=
  length (filter (fun s => implemented s = true) strategies).

(** The loop object at [l] is active and the timer whose handle it holds
    is pending and runs its cycles. *)
Definition scheduled (w : world) (l : loc) : Prop :=
  exists L id, heap w !! l = Some L /\ l_state L = active
               /\ intervalId L = Some id /\ timers w !! id = Some (LoopTimer l).

(** Every registered loop object exists and is idle: inactive, without a
    timer handle. *)
Definition registeredIdle (w : world) : Prop :=
  forall e, e ∈ activeLoops w ->
    exists L, heap w !! e.2 = Some L /\ l_state L = inactive /\ intervalId L = None.

(** The loop object at [l] exists and is idle. *)
Definition idleAt (w : world) (l : loc) : Prop :=
  exists L, heap w !! l = Some L /\ l_state L = inactive /\ intervalId L = None.

(** An allocated loop object is either idle or active with a timer handle
    that does not denote the metrics timer. *)
Definition idleOrRunning (w : world) (l : loc) : Prop :=
  idleAt w l
  \/ exists L id, heap w !! l = Some L /\ l_state L = active /\ intervalId L = Some id
                  /\ timers w !! id <> Some MetricsTimer.

(** The registry and the timers fit the loop objects: every registered
    loop object is allocated, and every allocated loop object is idle or
    scheduled. *)
Definition loopsConsistent (w : world) : Prop :=
  (forall e, e ∈ activeLoops w -> is_Some (heap w !! e.2))
  /\ (forall l L, heap w !! l = Some L -> idleAt w l \/ scheduled w l).

(** A number that is at most [b]: a finite one, or [-Infinity]. *)
Definition atMost (b : Q) (s : number) : Prop :=
  match s with
  | Fin q => q <= b
  | NInf => True
  | PInf | NaN => False
  end.

(** Snapshots ordered by timestamp, newest first. *)
Definition newestFirst : list (Z * metricsObj) -> Prop :=
  StronglySorted (fun a b => (b.1 <= a.1)%Z).

(** A loop has improved at most as often as it has completed a cycle. *)
Definition countsBounded (L : loopObj) : Prop :=
  (improvementCount L <= executionCount L)%nat.

(** A snapshot without any value: every metric source failed. *)
Definition allNull (metrics : metricsObj) : Prop :=
  forall e, e ∈ metrics -> e.2 = None.

(** A loop whose oldest snapshot holds no value: the source of its one
    metric failed on the first cycle. *)
Definition staleLoop : loopObj :=
  mkLoop "latency"
    (mkConfig ["response_time"%string] 5000 (Some latencyTable) "performance_optimization" "high")
    active (Some 3000%Z) 3 0
    [ (1000%Z, [("response_time"%string, None)]);
      (2000%Z, [("response_time"%string, Some 800)]);
      (3000%Z, [("response_time"%string, Some 500)]) ]
    [] (mkPerformance 0 1 0) (Some 0%nat).

(** The configurations under which the constructor registers the learning
    loop and the innovation loop. *)
Definition learningConfig : loopConfig :=
  mkConfig ["learning_velocity"; "pattern_recognition"; "adaptation_success"]%string 10000
    (thresholdsOf [("learning_velocity"%string, 0.7); ("pattern_recognition"%string, 0.8);
                   ("adaptation_success"%string, 0.6)])
    "learning_optimization" "medium".

Definition innovationConfig : loopConfig :=
  mkConfig ["idea_quality"; "implementation_success"; "user_satisfaction"]%string 30000
    (thresholdsOf [("idea_quality"%string, 0.7); ("implementation_success"%string, 0.8);
                   ("user_satisfaction"%string, 0.85)])
    "innovation_enhancement" "medium".

(** Every sample that the metric sources of the class can produce for a
    metric of the table [ths] meets its limit. *)
Definition sourcesMeet (ths : gmap string Q) : Prop :=
  forall n f rt r l,
    In (n, f) metricCalculators -> 0 <= r -> ths !! n = Some l ->
    scoreMetric n (f rt r) l = (Fin 1, []).

(** The improvement rate on record is the share of the completed cycles
    that brought an improvement. *)
Definition rateRecorded (L : loopObj) : Prop :=
  (executionCount L = 0%nat /\ improvementRate (l_performance L) == 0)
  \/ ((0 < executionCount L)%nat
      /\ improvementRate (l_performance L)
         == of_nat (improvementCount L) / of_nat (executionCount L)).

(** ** A caller: the feedback loop challenge of the validation system *)

(** The period of a pending interval timer, in milliseconds: the interval
    of the loop for a loop timer, one second for the metrics timer. *)
Definition period (w : world) (t : timer) : Z :=
  match t with
  | MetricsTimer => 1000
  | LoopTimer l => c_interval (l_config (default blankLoop (heap w !! l)))
  end.

(** What the timers do while the caller waits [ms] milliseconds: of the
    handles in [firings], in this order, those of a pending timer whose
    period is at most [ms] fire; an interval timer does not fire before its
    period has passed. *)
Definition elapse (ms : Z) (firings : list timerId) : M unit :=
  forEach (fun id =>
    let* p := gets (fun w => period w <$> timers w !! id) in
    match p with
    | Some p => if (p <=? ms)%Z then fire id else ret tt
    | None => ret tt
    end) firings.

Record challengeResult : Type := mkChallenge {
  ch_passed : bool;
  ch_score : Q;
  ch_duration : Z
}.

(** [challengeFeedbackLoops] of [swarm-validation-system.js], on the
    supervisor it has just constructed: start, wait two seconds, read the
    status, stop, and judge the status. *)
Definition challengeFeedbackLoops (firings : list timerId) : M challengeResult :=
  let* startTime := now in
  try_catch
    (start ;;
     elapse 2000 firings ;;
     let* status := gets getStatus in
     let activeLoops := st_activeLoops status in
     let totalExecutions := st_totalExecutions status in
     stop ;;
     let* finish := now in
     ret (mkChallenge ((5 <=? activeLoops)%nat && (3 <=? totalExecutions)%nat)
            (Qmin 1.0 (of_nat activeLoops / 6 * 0.5 + of_nat totalExecutions / 10 * 0.5))
            (finish - startTime)))
    (fun _ => let* finish := now in ret (mkChallenge false 0 (finish - startTime))).

(** * Properties *)

(** ** Numbers *)

Lemma Qltb_lt (x y : Q) : Qltb x y = true <-> x < y.
Proof.
  unfold Qltb. rewrite negb_true_iff. split; intros H.
  - apply Qnot_le_lt. intros Hle. apply Qle_bool_iff in Hle. congruence.
  - destruct (Qle_bool y x) eqn:E; [|reflexivity].
    apply Qle_bool_iff in E. exfalso. exact (Qlt_not_le _ _ H E).
Qed.

Lemma Qltb_ge (x y : Q) : Qltb x y = false <-> y <= x.
Proof.
  unfold Qltb. rewrite negb_false_iff. apply Qle_bool_iff.
Qed.

Lemma Qle_bool_gt (x y : Q) : Qle_bool x y = false <-> y < x.
Proof.
  rewrite <- Qltb_lt. unfold Qltb. rewrite negb_true_iff. reflexivity.
Qed.

Lemma num_eq_refl (a : number) : a =n= a.
Proof. destruct a; simpl; auto. reflexivity. Qed.

Lemma Qeq_bool_false_neq (x y : Q) : Qeq_bool x y = false -> ~ x == y.
Proof. intros H E. apply Qeq_bool_iff in E. congruence. Qed.

Lemma num_div_fin (x y : Q) : ~ y == 0 -> num_div (Fin x) (Fin y) = Fin (x / y).
Proof.
  intros H. simpl. destruct (Qeq_bool y 0) eqn:E; [|reflexivity].
  apply Qeq_bool_iff in E. contradiction.
Qed.

Lemma of_nat_S (n : nat) : of_nat (S n) == of_nat n + 1.
Proof.
  unfold of_nat. rewrite Nat2Z.inj_succ, <- Z.add_1_r, inject_Z_plus. reflexivity.
Qed.

Lemma of_nat_nonneg (n : nat) : 0 <= of_nat n.
Proof.
  unfold of_nat. change 0 with (inject_Z 0). rewrite <- Zle_Qle. lia.
Qed.

Lemma of_nat_pos (n : nat) : (0 < n)%nat -> 0 < of_nat n.
Proof.
  intros H. unfold of_nat. change 0 with (inject_Z 0). rewrite <- Zlt_Qlt. lia.
Qed.

(** ** The evaluator *)

Lemma matched_cons_null ths n rest : matched ths ((n, None) :: rest) = matched ths rest.
Proof. reflexivity. Qed.

Lemma matched_cons_value ths n v rest :
  matched ths ((n, Some v) :: rest) =
  match ths !! n with
  | Some l => (n, v, l) :: matched ths rest
  | None => matched ths rest
  end.
Proof. unfold matched. simpl. destruct (ths !! n); reflexivity. Qed.

Lemma analyzeEntries_matched (ths : gmap string Q) (metrics : metricsObj) (t : tally) :
  analyzeEntries (Some ths) metrics t =
  Ok (mkTally (foldl num_add (totalScore t) (metricScores ths metrics))
              (metricCount t + length (matched ths metrics))
              (found t ++ concat (map (fun m => snd (scoreMetric m.1.1 m.1.2 m.2))
                                      (matched ths metrics)))).
Proof.
  revert t. induction metrics as [|[n [v|]] rest IH]; intros t.
  - simpl. rewrite Nat.add_0_r, app_nil_r. destruct t; reflexivity.
  - unfold metricScores in *. rewrite matched_cons_value.
    cbn [analyzeEntries]. destruct (ths !! n) as [l|] eqn:El.
    + destruct (scoreMetric n v l) as [ms new] eqn:Es. rewrite IH.
      cbn [map concat foldl totalScore metricCount found length fst snd].
      rewrite Es. cbn [fst snd]. f_equal. f_equal; [lia|]. rewrite <- app_assoc. reflexivity.
    + apply IH.
  - unfold metricScores in *. rewrite matched_cons_null. cbn [analyzeEntries]. apply IH.
Qed.

Lemma analyzeMetrics_matched (ths : gmap string Q) (metrics : metricsObj) :
  let s := num_mean (metricScores ths metrics) in
  let iss := concat (map (fun m => snd (scoreMetric m.1.1 m.1.2 m.2)) (matched ths metrics)) in
  analyzeMetrics (Some ths) metrics =
  Ok (mkAnalysis (overallOf s) iss s (generateRecommendations iss s)).
Proof.
  unfold analyzeMetrics. rewrite analyzeEntries_matched. simpl.
  assert (Hlen : length (metricScores ths metrics) = length (matched ths metrics))
    by (unfold metricScores; apply length_map).
  unfold num_mean, num_sum. rewrite <- Hlen.
  destruct (metricScores ths metrics) as [|x xs]; reflexivity.
Qed.

Lemma Qltb_proper (x x' y y' : Q) : x == x' -> y == y' -> Qltb x y = Qltb x' y'.
Proof. intros Hx Hy. unfold Qltb. f_equal. apply Qleb_comp; assumption. Qed.

Lemma Qmin_one_small (x : Q) : x < 1 -> Qmin 1 x == x.
Proof. intros H. apply Q.min_r. apply Qlt_le_weak. exact H. Qed.

Lemma Qmin_one_large (x : Q) : 1 <= x -> Qmin 1 x == 1.
Proof. intros H. apply Q.min_l. exact H. Qed.

Lemma Qdiv_lt_one (x y : Q) : 0 < y -> x < y -> x / y < 1.
Proof. intros Hy H. apply Qlt_shift_div_r; [exact Hy|]. lra. Qed.

Lemma Qdiv_ge_one (x y : Q) : 0 < y -> y <= x -> 1 <= x / y.
Proof. intros Hy H. apply Qle_shift_div_l; [exact Hy|]. lra. Qed.

Lemma Qdiv_nonneg (x y : Q) : 0 <= x -> 0 < y -> 0 <= x / y.
Proof. intros Hx Hy. apply Qle_shift_div_l; [exact Hy|]. lra. Qed.

Lemma Qpos_neq0 (y : Q) : 0 < y -> ~ y == 0.
Proof. intros H E. rewrite E in H. exact (Qlt_irrefl _ H). Qed.

Lemma specSeverity_proper (s s' : Q) : s == s' -> specSeverity s = specSeverity s'.
Proof.
  intros E. unfold specSeverity.
  rewrite (Qltb_proper s s' 0.5 0.5 E (Qeq_refl _)).
  rewrite (Qltb_proper s s' 0.8 0.8 E (Qeq_refl _)). reflexivity.
Qed.

(** On a violated metric the severity is computed from the very ratio that
    is the score of the metric. *)
Lemma calculateSeverity_ratio (value threshold : Q) (higherIsBetter : bool) (q : Q) :
  (if higherIsBetter
   then num_div (Fin value) (Fin threshold)
   else num_div (Fin threshold) (Fin value)) = Fin q ->
  calculateSeverity value threshold higherIsBetter = specSeverity q.
Proof.
  intros H. unfold calculateSeverity. rewrite H. reflexivity.
Qed.

Lemma scoreMetric_higher (n : string) (v l : Q) :
  isHigherBetterMetric n = true -> 0 < l -> agreesWithSpec n v l.
Proof.
  intros Hh Hl. unfold agreesWithSpec, specViolation, scoreMetric, specScore.
  rewrite Hh. cbn [fst snd]. pose proof (Qpos_neq0 l Hl) as Hne.
  destruct (Qle_bool l v) eqn:Ele.
  - apply Qle_bool_iff in Ele.
    pose proof (Qmin_one_large _ (Qdiv_ge_one v l Hl Ele)) as Hm.
    split; [simpl; symmetry; exact Hm|].
    rewrite (Qltb_proper _ 1 1 1 Hm (Qeq_refl _)).
    replace (Qltb v l) with false by (symmetry; apply Qltb_ge; exact Ele).
    reflexivity.
  - apply Qle_bool_gt in Ele.
    pose proof (Qdiv_lt_one v l Hl Ele) as Hlt.
    pose proof (Qmin_one_small _ Hlt) as Hm.
    rewrite (num_div_fin v l Hne).
    split; [simpl; symmetry; exact Hm|].
    rewrite (Qltb_proper _ (v / l) 1 1 Hm (Qeq_refl _)).
    replace (Qltb v l) with true by (symmetry; apply Qltb_lt; exact Ele).
    replace (Qltb (v / l) 1) with true by (symmetry; apply Qltb_lt; exact Hlt).
    rewrite (calculateSeverity_ratio v l true (v / l)) by (apply num_div_fin; exact Hne).
    rewrite (specSeverity_proper _ _ Hm). reflexivity.
Qed.

Lemma scoreMetric_lower (n : string) (v l : Q) :
  isHigherBetterMetric n = false -> 0 <= v -> 0 <= l -> agreesWithSpec n v l.
Proof.
  intros Hh Hv Hl. unfold agreesWithSpec, specViolation, scoreMetric, specScore.
  rewrite Hh. cbn [fst snd].
  destruct (Qle_bool v l) eqn:Ele.
  - apply Qle_bool_iff in Ele.
    replace (Qltb l v) with false by (symmetry; apply Qltb_ge; exact Ele).
    destruct (Qeq_bool v 0) eqn:Ez.
    + split; [simpl; reflexivity|]. reflexivity.
    + apply Qeq_bool_false_neq in Ez.
      assert (Hpos : 0 < v) by (apply Qle_lteq in Hv; destruct Hv as [H|H]; [exact H|]; exfalso; apply Ez; symmetry; exact H).
      pose proof (Qmin_one_large _ (Qdiv_ge_one l v Hpos Ele)) as Hm.
      split; [simpl; symmetry; exact Hm|].
      rewrite (Qltb_proper _ 1 1 1 Hm (Qeq_refl _)). reflexivity.
  - apply Qle_bool_gt in Ele.
    assert (Hpos : 0 < v) by lra.
    pose proof (Qpos_neq0 v Hpos) as Hne.
    replace (Qeq_bool v 0) with false
      by (symmetry; destruct (Qeq_bool v 0) eqn:Ez; [apply Qeq_bool_iff in Ez; contradiction|reflexivity]).
    pose proof (Qdiv_lt_one l v Hpos Ele) as Hlt.
    pose proof (Qmin_one_small _ Hlt) as Hm.
    rewrite (num_div_fin l v Hne).
    split; [simpl; symmetry; exact Hm|].
    rewrite (Qltb_proper _ (l / v) 1 1 Hm (Qeq_refl _)).
    replace (Qltb l v) with true by (symmetry; apply Qltb_lt; exact Ele).
    replace (Qltb (l / v) 1) with true by (symmetry; apply Qltb_lt; exact Hlt).
    rewrite (calculateSeverity_ratio v l false (l / v)) by (apply num_div_fin; exact Hne).
    rewrite (specSeverity_proper _ _ Hm). reflexivity.
Qed.

Lemma scoreMetric_agrees (n : string) (v l : Q) :
  0 <= v -> 0 <= l -> (isHigherBetterMetric n = true -> 0 < l) -> agreesWithSpec n v l.
Proof.
  intros Hv Hl Hh. destruct (isHigherBetterMetric n) eqn:E.
  - apply scoreMetric_higher; auto.
  - apply scoreMetric_lower; auto.
Qed.

Lemma issues_of_analysis (ths : gmap string Q) (metrics : metricsObj) (a : analysis) (i : issue) :
  analyzeMetrics (Some ths) metrics = Ok a ->
  i ∈ issues a <->
  exists m, m ∈ matched ths metrics /\ i ∈ snd (scoreMetric m.1.1 m.1.2 m.2).
Proof.
  rewrite analyzeMetrics_matched. intros [= <-]. cbn [issues].
  rewrite list_elem_of_In, in_concat. split.
  - intros (y & Hy & Hi). apply in_map_iff in Hy as (m & <- & Hm).
    exists m. rewrite !list_elem_of_In. auto.
  - intros (m & Hm & Hi). exists (snd (scoreMetric m.1.1 m.1.2 m.2)).
    apply list_elem_of_In in Hm. apply list_elem_of_In in Hi. split; [|exact Hi].
    apply in_map_iff. exists m. auto.
Qed.

(** C1 (as amended). For every sample that has a threshold, with a
    non-negative value and a non-negative limit (positive when higher is
    better), [analyzeMetrics] scores the metric [min(1, value/limit)] or
    [min(1, limit/value)] (1 at value 0 when lower is better), and reports
    it as an issue exactly when that score is below 1, with severity high
    below 0.5, medium below 0.8 and low otherwise. *)
Theorem analyzeMetrics_scores_and_issues
    (ths : gmap string Q) (metrics : metricsObj) (n : string) (v l : Q) :
  (n, v, l) ∈ matched ths metrics ->
  0 <= v -> 0 <= l -> (isHigherBetterMetric n = true -> 0 < l) ->
  let s := specScore (isHigherBetterMetric n) v l in
  exists a,
    analyzeMetrics (Some ths) metrics = Ok a
    /\ fst (scoreMetric n v l) ∈ metricScores ths metrics
    /\ fst (scoreMetric n v l) =n= Fin s
    /\ (s < 1 -> mkIssue n v l (specSeverity s) ∈ issues a)
    /\ (~ s < 1 -> forall sev, mkIssue n v l sev ∉ issues a).
Proof.
  intros Hin Hv Hl Hh s.
  destruct (scoreMetric_agrees n v l Hv Hl Hh) as [Hs Hi]. fold s in Hs.
  unfold specViolation in Hi. fold s in Hi.
  eexists. split; [apply analyzeMetrics_matched|].
  split.
  { unfold metricScores. apply list_elem_of_In, in_map_iff.
    exists (n, v, l). split; [reflexivity|]. apply list_elem_of_In, Hin. }
  split; [exact Hs|]. split.
  - intros Hlt. eapply issues_of_analysis; [apply analyzeMetrics_matched|].
    exists (n, v, l). split; [exact Hin|]. cbn [fst snd]. rewrite Hi.
    replace (Qltb s 1) with true by (symmetry; apply Qltb_lt; exact Hlt).
    apply list_elem_of_singleton. reflexivity.
  - intros Hnlt sev Habs.
    eapply issues_of_analysis in Habs; [|apply analyzeMetrics_matched].
    destruct Habs as ([[n' v'] l'] & Hm & Hmem). cbn [fst snd] in Hmem.
    assert (Hfields : n' = n /\ v' = v /\ l' = l).
    { unfold scoreMetric in Hmem.
      destruct (isHigherBetterMetric n'); cbn [snd] in Hmem;
        match type of Hmem with _ ∈ (if ?c then _ else _) => destruct c end;
        try (apply elem_of_nil in Hmem; contradiction);
        apply list_elem_of_singleton in Hmem; injection Hmem; auto. }
    destruct Hfields as (-> & -> & ->).
    rewrite Hi in Hmem.
    replace (Qltb s 1) with false in Hmem
      by (symmetry; apply Qltb_ge; apply Qnot_lt_le; exact Hnlt).
    apply elem_of_nil in Hmem. exact Hmem.
Qed.

Lemma analyzeMetrics_scores_and_issues_witness :
  ("response_time"%string, 4000, 2000)
    ∈ matched performanceThresholdTable [("response_time"%string, Some 4000)]
  /\ exists a,
       analyzeMetrics (Some performanceThresholdTable) [("response_time"%string, Some 4000)] = Ok a
       /\ mkIssue "response_time" 4000 2000 medium ∈ issues a.
Proof.
  assert (Hin : ("response_time"%string, 4000, 2000)
                  ∈ matched performanceThresholdTable [("response_time"%string, Some 4000)]).
  { apply list_elem_of_In. vm_compute. left. reflexivity. }
  split; [exact Hin|].
  destruct (analyzeMetrics_scores_and_issues performanceThresholdTable
              [("response_time"%string, Some 4000)] "response_time" 4000 2000 Hin)
    as (a & Ha & _ & _ & Hissue & _).
  - vm_compute. discriminate.
  - vm_compute. discriminate.
  - vm_compute. discriminate.
  - exists a. split; [exact Ha|]. apply Hissue. vm_compute. reflexivity.
Defined.

(** With a negative limit and the sample 0, a lower-is-better metric is
    not scored 1: the code divides the limit by zero. *)
Example analyzeMetrics_zero_sample_negative_limit :
  analyzeMetrics (thresholdsOf [("error_rate"%string, -0.01)]) [("error_rate"%string, Some 0)]
  = Ok (mkAnalysis poor [mkIssue "error_rate" 0 (-0.01) high] NInf
          [mkRecommendation issue_resolution (Some "error_rate"%string) (Some high);
           mkRecommendation general_improvement None None]).
Proof. vm_compute. reflexivity. Qed.

(** C1, counterexample: the evaluator does not agree with the specified
    score and violation rule on the metric [error_rate] with sample 0 and
    limit -0.01. *)
Lemma scoreMetric_disagrees_on_negative_limit :
  ~ agreesWithSpec "error_rate" 0 (-0.01).
Proof.
  intros [Hscore _]. vm_compute in Hscore. exact Hscore.
Qed.

(** ** The overall score *)

Lemma scoreMetric_in_unit (n : string) (v l : Q) :
  0 <= v -> 0 <= l -> inUnitInterval (fst (scoreMetric n v l)).
Proof.
  intros Hv Hl. unfold scoreMetric, inUnitInterval.
  destruct (isHigherBetterMetric n); cbn [fst].
  - destruct (Qle_bool l v) eqn:E.
    + exists 1. split; [reflexivity|]. lra.
    + apply Qle_bool_gt in E. assert (Hpos : 0 < l) by lra.
      rewrite (num_div_fin v l (Qpos_neq0 l Hpos)).
      exists (v / l). split; [reflexivity|]. split.
      * apply Qdiv_nonneg; assumption.
      * apply Qlt_le_weak, Qdiv_lt_one; assumption.
  - destruct (Qle_bool v l) eqn:E.
    + exists 1. split; [reflexivity|]. lra.
    + apply Qle_bool_gt in E. assert (Hpos : 0 < v) by lra.
      rewrite (num_div_fin l v (Qpos_neq0 v Hpos)).
      exists (l / v). split; [reflexivity|]. split.
      * apply Qdiv_nonneg; assumption.
      * apply Qlt_le_weak, Qdiv_lt_one; assumption.
Qed.

Lemma foldl_num_add_bounds (scores : list number) (acc : Q) :
  Forall inUnitInterval scores ->
  exists s, foldl num_add (Fin acc) scores = Fin s
            /\ acc <= s /\ s <= acc + of_nat (length scores).
Proof.
  intros H. revert acc. induction H as [|x xs Hx Hxs IH]; intros acc.
  - exists acc. split; [reflexivity|]. change (of_nat (length (@nil number))) with 0. lra.
  - destruct Hx as (q & -> & Hq0 & Hq1). cbn [foldl num_add].
    destruct (IH (acc + q)) as (s & Hs & Hlo & Hhi).
    exists s. split; [exact Hs|]. cbn [length]. rewrite of_nat_S. lra.
Qed.

Lemma num_mean_in_unit (scores : list number) :
  Forall inUnitInterval scores -> inUnitInterval (num_mean scores).
Proof.
  intros H. destruct (foldl_num_add_bounds scores 0 H) as (s & Hs & Hlo & Hhi).
  unfold num_mean, num_sum. rewrite Hs. clear Hs H.
  destruct scores as [|x xs].
  - exists 0. split; [reflexivity|]. lra.
  - set (n := length (x :: xs)) in *.
    assert (Hn : 0 < of_nat n) by (apply of_nat_pos; subst n; simpl; lia).
    rewrite (num_div_fin _ _ (Qpos_neq0 _ Hn)).
    exists (s / of_nat n). split; [reflexivity|]. split.
    + apply Qdiv_nonneg; assumption.
    + apply Qle_shift_div_r; [exact Hn|]. lra.
Qed.

Lemma overallOf_status (q : Q) (st : status) :
  overallOf (Fin q) = st <-> specStatus q st.
Proof.
  unfold overallOf. cbn [num_geb].
  destruct (Qle_bool 0.9 q) eqn:E9;
    [apply Qle_bool_iff in E9 | apply Qle_bool_gt in E9];
  (destruct (Qle_bool 0.7 q) eqn:E7;
    [apply Qle_bool_iff in E7 | apply Qle_bool_gt in E7]);
  (destruct (Qle_bool 0.5 q) eqn:E5;
    [apply Qle_bool_iff in E5 | apply Qle_bool_gt in E5]);
  destruct st; cbn [specStatus]; split; intros H;
    try discriminate; try reflexivity; try lra.
Qed.

Lemma Qsign_neg (x : Q) : x < 0 -> Qsign x = Lt.
Proof. intros H. unfold Qsign. apply Qlt_alt. exact H. Qed.

(** A per-metric score is a finite number or [-Infinity]. *)
Lemma scoreMetric_finiteOrNInf (n : string) (v l : Q) :
  finiteOrNInf (fst (scoreMetric n v l)).
Proof.
  unfold scoreMetric. destruct (isHigherBetterMetric n); cbn [fst].
  - destruct (Qle_bool l v) eqn:E; [exact I|]. apply Qle_bool_gt in E.
    cbn [num_div]. destruct (Qeq_bool l 0) eqn:Ez; [|exact I].
    apply Qeq_bool_iff in Ez. rewrite Qsign_neg by lra. exact I.
  - destruct (Qle_bool v l) eqn:E; [exact I|]. apply Qle_bool_gt in E.
    cbn [num_div]. destruct (Qeq_bool v 0) eqn:Ez; [|exact I].
    apply Qeq_bool_iff in Ez. rewrite Qsign_neg by lra. exact I.
Qed.

Lemma foldl_num_add_finiteOrNInf (scores : list number) (acc : number) :
  finiteOrNInf acc -> Forall finiteOrNInf scores ->
  finiteOrNInf (foldl num_add acc scores).
Proof.
  intros Hacc H. revert acc Hacc. induction H as [|x xs Hx _ IH]; intros acc Hacc.
  - exact Hacc.
  - cbn [foldl]. apply IH. destruct acc, x; try contradiction; exact I.
Qed.

Lemma num_mean_finiteOrNInf (scores : list number) :
  Forall finiteOrNInf scores -> finiteOrNInf (num_mean scores).
Proof.
  intros H. unfold num_mean, num_sum.
  pose proof (foldl_num_add_finiteOrNInf scores (Fin 0) I H) as Hsum.
  destruct scores as [|x xs]; [exact I|].
  set (n := length (x :: xs)).
  assert (Hn : 0 < of_nat n) by (apply of_nat_pos; subst n; simpl; lia).
  destruct (foldl num_add (Fin 0) (x :: xs)) as [q| | |]; try contradiction.
  - rewrite (num_div_fin _ _ (Qpos_neq0 _ Hn)). exact I.
  - cbn [num_div].
    replace (Qle_bool 0 (of_nat n)) with true
      by (symmetry; apply Qle_bool_iff, Qlt_le_weak, Hn).
    exact I.
Qed.

Lemma overallOf_statusOf (s : number) (st : status) :
  finiteOrNInf s -> (overallOf s = st <-> specStatusOf s st).
Proof.
  destruct s as [q| | |]; try contradiction; intros _.
  - apply overallOf_status.
  - cbn. split; intros H; congruence.
Qed.

(** C2 (as amended). For every threshold table and every metrics object,
    one evaluation returns an analysis whose score is the arithmetic mean
    of the per-metric scores (0 when no metric matched), whose status is
    excellent, good, fair or poor exactly as the score is at least 0.9, in
    [0.7, 0.9), in [0.5, 0.7), or below 0.5, and whose score lies in [0, 1]
    provided the matched sample values and limits are not negative. *)
Theorem analyzeMetrics_overall (ths : gmap string Q) (metrics : metricsObj) :
  exists a,
    analyzeMetrics (Some ths) metrics = Ok a
    /\ score a = num_mean (metricScores ths metrics)
    /\ (matched ths metrics = [] -> score a = Fin 0)
    /\ (forall st, overall a = st <-> specStatusOf (score a) st)
    /\ ((forall n v l, (n, v, l) ∈ matched ths metrics -> 0 <= v /\ 0 <= l) ->
        inUnitInterval (score a)).
Proof.
  eexists. split; [apply analyzeMetrics_matched|]. cbn [score overall].
  split; [reflexivity|]. split.
  - intros Hnil. unfold metricScores. rewrite Hnil. reflexivity.
  - split.
    + intros st. apply overallOf_statusOf, num_mean_finiteOrNInf.
      unfold metricScores. apply Forall_forall. intros x Hx.
      apply list_elem_of_In, in_map_iff in Hx as ([[n v] l] & <- & _).
      apply scoreMetric_finiteOrNInf.
    + intros Hpos. apply num_mean_in_unit. unfold metricScores.
      apply Forall_forall. intros x Hx.
      apply list_elem_of_In, in_map_iff in Hx as ([[n v] l] & <- & Hm).
      apply list_elem_of_In in Hm. destruct (Hpos n v l Hm) as [Hv Hl].
      apply scoreMetric_in_unit; assumption.
Qed.

Lemma analyzeMetrics_overall_witness :
  exists a,
    analyzeMetrics (Some performanceThresholdTable)
      [("response_time"%string, Some 4000); ("throughput"%string, Some 20)] = Ok a
    /\ inUnitInterval (score a) /\ overall a = good.
Proof.
  destruct (analyzeMetrics_overall performanceThresholdTable
              [("response_time"%string, Some 4000); ("throughput"%string, Some 20)])
    as (a & Ha & Hmean & _ & Hst & Hunit).
  exists a. split; [exact Ha|]. split.
  - apply Hunit. intros n v l Hin. apply list_elem_of_In in Hin. vm_compute in Hin.
    destruct Hin as [[= <- <- <-]|[[= <- <- <-]|[]]]; split; discriminate.
  - apply Hst. rewrite Hmean. vm_compute. split; [discriminate|reflexivity].
Defined.

(** C2, counterexample: with the thresholds of the performance loop and the
    sample throughput = -5, the score of the analysis is -0.5, outside
    [0, 1]. *)
Lemma analyzeMetrics_score_below_zero :
  ~ (forall a, analyzeMetrics (Some performanceThresholdTable)
                 [("throughput"%string, Some (-5))] = Ok a ->
               inUnitInterval (score a)).
Proof.
  intros H.
  destruct (H _ (analyzeMetrics_matched _ _)) as (q & Hq & H0 & _).
  vm_compute in Hq. injection Hq as <-. vm_compute in H0. apply H0. reflexivity.
Qed.

(** ** The latency scenario *)

(** C3 (as amended). For the threshold response_time: 1000 and the sample
    response_time: 2000, the evaluation yields the score 0.5, exactly one
    issue, of severity medium, and the status fair. *)
Theorem latency_scenario :
  exists a,
    analyzeMetrics latencyThresholds latencySample = Ok a
    /\ score a =n= Fin 0.5
    /\ issues a = [mkIssue "response_time" 2000 1000 medium]
    /\ overall a = fair.
Proof.
  eexists. split; [vm_compute; reflexivity|].
  cbn [score issues overall]. split; [|split; reflexivity].
  vm_compute. reflexivity.
Qed.

(** C3, counterexample: the status of that evaluation is not poor. *)
Lemma latency_scenario_not_poor :
  ~ (exists a,
       analyzeMetrics latencyThresholds latencySample = Ok a
       /\ score a =n= Fin 0.5
       /\ issues a = [mkIssue "response_time" 2000 1000 medium]
       /\ overall a = poor).
Proof.
  intros (a & Ha & _ & _ & Hpoor).
  vm_compute in Ha. injection Ha as <-. discriminate Hpoor.
Qed.

(** ** The decision to adapt *)

Lemma needsAdaptation_iff (L : loopObj) (a : analysis) :
  needsAdaptation L a = true <->
  num_ltb (score a) (Fin 0.7) = true
  \/ (exists i, i ∈ issues a /\ i_severity i = high)
  \/ ((3 <= length (getRecentMetrics L 5))%nat
      /\ num_ltb (calculateTrend (getRecentMetrics L 5)) (Fin (-0.1)) = true).
Proof.
  unfold needsAdaptation.
  destruct (num_ltb (score a) (Fin 0.7)); [split; auto|].
  destruct (filter (fun i => i_severity i = high) (issues a)) as [|i f] eqn:Ef.
  - cbn [length]. change (0 <? 0)%nat with false. cbv iota.
    assert (Hnone : ~ exists i, i ∈ issues a /\ i_severity i = high).
    { intros (i & Hi & Hs).
      assert (Hin : i ∈ filter (fun i => i_severity i = high) (issues a))
        by (apply list_elem_of_filter; auto).
      rewrite Ef in Hin. apply elem_of_nil in Hin. exact Hin. }
    destruct (3 <=? length (getRecentMetrics L 5))%nat eqn:E3.
    + apply Nat.leb_le in E3.
      destruct (num_ltb (calculateTrend (getRecentMetrics L 5)) (Fin (-0.1))).
      * split; auto.
      * split; [discriminate|]. intros [H|[H|[_ H]]]; try discriminate. contradiction.
    + apply Nat.leb_gt in E3. split; [discriminate|].
      intros [H|[H|[H _]]]; try discriminate; [contradiction|lia].
  - cbn [length]. change (0 <? S (length f))%nat with true. cbv iota.
    split; [|reflexivity]. intros _. right. left. exists i.
    assert (Hin : i ∈ filter (fun i => i_severity i = high) (issues a))
      by (rewrite Ef; apply list_elem_of_here).
    apply list_elem_of_filter in Hin. destruct Hin. auto.
Qed.

(** C4, the code at the failing input: every snapshot of [improvingLoop]
    scores 1 and has no issue, so the trend of the scores is 0, yet
    [needsAdaptation] answers [true], because [calculateAverageScore]
    averages the raw sample values, which fell by half. *)
Theorem needsAdaptation_on_improving_latency :
  exists a,
    analyzeMetrics (Some latencyTable) [("response_time"%string, Some 500)] = Ok a
    /\ score a =n= Fin 1
    /\ issues a = []
    /\ specTrend latencyTable (getRecentMetrics improvingLoop 5) =n= Fin 0
    /\ calculateTrend (getRecentMetrics improvingLoop 5) =n= Fin (-0.5)
    /\ needsAdaptation improvingLoop a = true
    /\ specNeedsAdaptation latencyTable improvingLoop a = false.
Proof.
  eexists. split; [apply analyzeMetrics_matched|].
  cbn [score issues]. repeat split; vm_compute; reflexivity.
Qed.

(** The same divergence in a run of the class itself: three cycles of the
    performance loop that all score 1; on the third, the response time has
    fallen from 450 to 50 and the cycle reports that adaptation is needed. *)
Example performance_loop_adapts_on_improvement :
  let w := run [Start; Fire 0%nat; Fire 0%nat; Fire 0%nat]
             (constructor (fun n => Z.of_nat n) fallingLatency) in
  exists L,
    heap w !! 0%nat = Some L
    /\ length (l_metrics L) = 3%nat
    /\ Forall (fun e => exists a,
                 analyzeMetrics (Some performanceThresholdTable) (snd e) = Ok a
                 /\ score a =n= Fin 1 /\ issues a = [])
              (l_metrics L)
    /\ events w
       = [started; loopExecuted "performance" false; loopExecuted "performance" false;
          loopExecuted "performance" true].
Proof.
  eexists. split; [vm_compute; reflexivity|]. split; [reflexivity|].
  split; [|vm_compute; reflexivity].
  cbn [l_metrics].
  repeat constructor;
    (eexists; split; [apply analyzeMetrics_matched|split; vm_compute; reflexivity]).
Qed.

(** ** Containment of exceptions *)

Lemma assoc_get_set {K V} `{EqDecision K} (o : list (K * V)) (k k' : K) (v : V) :
  assoc_get (assoc_set o k v) k' = if decide (k = k') then Some v else assoc_get o k'.
Proof.
  induction o as [|[k0 v0] rest IH]; simpl.
  - destruct (decide (k = k')); reflexivity.
  - destruct (decide (k0 = k)) as [->|Hne]; simpl.
    + destruct (decide (k = k')); reflexivity.
    + destruct (decide (k0 = k')) as [->|Hne'].
      * destruct (decide (k = k')) as [->|]; [contradiction|reflexivity].
      * exact IH.
Qed.

(** The [try]/[catch] around one metric: never throws, yields [null] when
    the source throws and the value when it returns. *)
Lemma sample_or_null (source : string -> M Q) (n : string) (w : world) :
  exists v,
    (try_catch (let* x := source n in ret (Some x)) (fun _ => ret None) w).1 = Ok v
    /\ (throws (source n w).1 = true -> v = None)
    /\ (forall x, (source n w).1 = Ok x -> v = Some x).
Proof.
  unfold try_catch, bind, ret. destruct (source n w) as [[x|e] w1]; simpl.
  - exists (Some x). repeat split; [discriminate|]. intros ? [= ->]. reflexivity.
  - exists None. repeat split. discriminate.
Qed.

Lemma collectInto_contains (source : string -> M Q) (names : list string)
    (metrics : metricsObj) (w : world) :
  exists obj,
    (collectInto source names metrics w).1 = Ok obj
    /\ (forall n, alwaysThrows (source n) ->
          n ∈ names \/ assoc_get metrics n = Some None -> assoc_get obj n = Some None)
    /\ (forall n x, alwaysReturns (source n) x ->
          n ∈ names \/ assoc_get metrics n = Some (Some x) -> assoc_get obj n = Some (Some x)).
Proof.
  revert metrics w. induction names as [|n0 rest IH]; intros metrics w.
  - exists metrics. split; [reflexivity|].
    split.
    + intros n _ [Hin|Hget]; [apply elem_of_nil in Hin; contradiction|exact Hget].
    + intros n x _ [Hin|Hget]; [apply elem_of_nil in Hin; contradiction|exact Hget].
  - cbn [collectInto]. unfold bind at 1.
    destruct (sample_or_null source n0 w) as (v & Hv & Hthrow & Hret).
    destruct (try_catch _ _ w) as [r w1]. cbn [fst] in Hv. subst r.
    destruct (IH (assoc_set metrics n0 v) w1) as (obj & Hobj & Hnull & Hval).
    exists obj. split; [exact Hobj|]. split.
    + intros n Hn Hcase. apply Hnull; [exact Hn|].
      rewrite assoc_get_set. destruct (decide (n0 = n)) as [->|Hne].
      * right. f_equal. apply Hthrow, Hn.
      * destruct Hcase as [Hin|Hget]; [|right; exact Hget].
        apply elem_of_cons in Hin as [->|Hin]; [contradiction|left; exact Hin].
    + intros n x Hn Hcase. apply Hval; [exact Hn|].
      rewrite assoc_get_set. destruct (decide (n0 = n)) as [->|Hne].
      * right. f_equal. apply Hret, Hn.
      * destruct Hcase as [Hin|Hget]; [|right; exact Hget].
        apply elem_of_cons in Hin as [->|Hin]; [contradiction|left; exact Hin].
Qed.

Lemma runStrategies_returns (executor : strategy -> M bool) (strategies : list strategy)
    (count : nat) (w : world) :
  exists n, (runStrategies executor strategies count w).1 = Ok n.
Proof.
  revert count w. induction strategies as [|s rest IH]; intros count w.
  - exists count. reflexivity.
  - cbn [runStrategies]. unfold bind at 1, try_catch, bind, ret.
    destruct (executor s w) as [[b|e] w1]; apply IH.
Qed.

Lemma runStrategies_throw (executor : strategy -> M bool) (s : strategy)
    (rest : list strategy) (count : nat) (w w1 : world) (e : exn) :
  executor s w = (Throw e, w1) ->
  runStrategies executor (s :: rest) count w = runStrategies executor rest count w1.
Proof.
  intros H. cbn [runStrategies]. unfold bind at 1, try_catch, bind, ret.
  rewrite H. reflexivity.
Qed.

Lemma runStrategies_success (executor : strategy -> M bool) (s : strategy)
    (rest : list strategy) (count : nat) (w w1 : world) (b : bool) :
  executor s w = (Ok b, w1) ->
  runStrategies executor (s :: rest) count w =
  runStrategies executor rest (if b then S count else count) w1.
Proof.
  intros H. cbn [runStrategies]. unfold bind at 1, try_catch, bind, ret.
  rewrite H. reflexivity.
Qed.

Lemma applyAdaptationWith_returns (executor : strategy -> M bool) (l : loc)
    (a : adaptation) (w : world) :
  exists b, (applyAdaptationWith executor l a w).1 = Ok b.
Proof.
  unfold applyAdaptationWith. unfold bind at 1.
  destruct (runStrategies_returns executor (a_strategies a) 0 w) as (n & Hn).
  destruct (runStrategies executor (a_strategies a) 0 w) as [r w1].
  cbn [fst] in Hn. subst r. eexists. reflexivity.
Qed.

Lemma executeLoopWith_returns (source : string -> M Q) (executor : strategy -> M bool)
    (l : loc) (w : world) :
  (executeLoopWith source executor l w).1 = Ok tt.
Proof.
  unfold executeLoopWith. unfold bind at 1. cbn [now]. unfold try_catch.
  destruct (executeLoopTry source executor l _ _) as [[[]|e] w1]; reflexivity.
Qed.

(** C6. Whatever the metric source and the strategy executor do:
    [collectMetrics] never throws, records [null] for a metric whose source
    throws and the value for one whose source returns; a strategy whose
    execution throws is skipped by the loop of [applyAdaptation] without
    being counted as successful; [applyAdaptation] returns normally; and
    [executeLoop] always completes normally, so no exception of a cycle
    reaches the caller (the timer of the loop, the supervisor, the other
    loops). *)
Theorem cycle_exceptions_contained (source : string -> M Q) (executor : strategy -> M bool) :
  (forall names w, exists metrics,
      (collectMetricsWith source names w).1 = Ok metrics
      /\ (forall n, n ∈ names -> alwaysThrows (source n) ->
            assoc_get metrics n = Some None)
      /\ (forall n x, n ∈ names -> alwaysReturns (source n) x ->
            assoc_get metrics n = Some (Some x)))
  /\ (forall s rest count w e w1,
        executor s w = (Throw e, w1) ->
        runStrategies executor (s :: rest) count w = runStrategies executor rest count w1)
  /\ (forall l a w, exists b, (applyAdaptationWith executor l a w).1 = Ok b)
  /\ (forall l w, (executeLoopWith source executor l w).1 = Ok tt).
Proof.
  split; [|split; [|split]].
  - intros names w. unfold collectMetricsWith.
    destruct (collectInto_contains source names [] w) as (obj & Hobj & Hnull & Hval).
    exists obj. split; [exact Hobj|]. split.
    + intros n Hin Hn. apply Hnull; auto.
    + intros n x Hin Hn. apply Hval; auto.
  - intros s rest count w e w1. apply runStrategies_throw.
  - intros l a w. apply applyAdaptationWith_returns.
  - intros l w. apply executeLoopWith_returns.
Qed.

Lemma cycle_exceptions_contained_witness :
  exists metrics,
    (collectMetricsWith getMetricValue ["no_such_metric"; "idea_quality"]%string
       (emptyWorld (fun _ => 0%Z) (fun _ => 0))).1 = Ok metrics
    /\ assoc_get metrics "no_such_metric"%string = Some None.
Proof.
  destruct (cycle_exceptions_contained getMetricValue failingExecutor) as (Hcollect & _).
  destruct (Hcollect ["no_such_metric"; "idea_quality"]%string
              (emptyWorld (fun _ => 0%Z) (fun _ => 0))) as (metrics & Hm & Hnull & _).
  exists metrics. split; [exact Hm|]. apply Hnull.
  - apply list_elem_of_here.
  - intros w. reflexivity.
Defined.

(** The metric source of the class throws on a name it does not know; the
    metrics object then holds [null] for it and the other samples. *)
Example collectMetrics_unknown_metric :
  (collectMetrics ["no_such_metric"; "idea_quality"]%string
     (emptyWorld (fun _ => 0%Z) (fun _ => 0.5))).1
  = Ok [("no_such_metric"%string, None); ("idea_quality"%string, Some (0.5 * 0.3 + 0.7))].
Proof. reflexivity. Qed.

(** A strategy that throws leaves the success count at 0, and the
    adaptation is reported as not successful. *)
Example applyAdaptation_failing_strategy :
  let a := mkAdaptation "performance_optimization" "performance" []
             [mkStrategy "optimize_response_time" "response_time" high 0.3] "high" (Fin 0.3) 0 in
  (applyAdaptationWith failingExecutor 0%nat a (constructor (fun _ => 0%Z) (fun _ => 0))).1
  = Ok false.
Proof. vm_compute. reflexivity. Qed.

(** ** What a computation may touch *)

Lemma post_bind {A B} (m : M A) (k : A -> M B) (w : world) (Q : result B -> world -> Prop) :
  post m w (fun r w1 => match r with
                        | Ok a => post (k a) w1 Q
                        | Throw e => Q (Throw e) w1
                        end) ->
  post (bind m k) w Q.
Proof.
  unfold post, bind. destruct (m w) as [[a|e] w1]; simpl; auto.
Qed.

Lemma post_mono {A} (m : M A) (w : world) (Q Q' : result A -> world -> Prop) :
  post m w Q -> (forall r w1, Q r w1 -> Q' r w1) -> post m w Q'.
Proof. unfold post. auto. Qed.

Lemma post_try_catch {A} (m : M A) (h : exn -> M A) (w : world)
    (Q : result A -> world -> Prop) :
  post m w (fun r w1 => match r with
                        | Ok a => Q (Ok a) w1
                        | Throw e => post (h e) w1 Q
                        end) ->
  post (try_catch m h) w Q.
Proof.
  unfold post, try_catch. destruct (m w) as [[a|e] w1]; simpl; auto.
Qed.

Lemma sameControl_refl (w : world) : sameControl w w.
Proof. repeat split. Qed.

Lemma sameControl_trans (w1 w2 w3 : world) :
  sameControl w1 w2 -> sameControl w2 w3 -> sameControl w1 w3.
Proof. intros (?&?&?) (?&?&?). repeat split; congruence. Qed.

Lemma quiet_ret {A} (a : A) : quiet (ret a).
Proof. intros w. repeat split. Qed.

Lemma quiet_throw {A} (e : exn) : quiet (@throw A e).
Proof. intros w. repeat split. Qed.

Lemma quiet_lift {A} (r : result A) : quiet (lift r).
Proof. intros w. repeat split. Qed.

Lemma quiet_gets {A} (f : world -> A) : quiet (gets f).
Proof. intros w. repeat split. Qed.

Lemma quiet_now : quiet now.
Proof. intros w. repeat split. Qed.

Lemma quiet_mathRandom : quiet mathRandom.
Proof. intros w. repeat split. Qed.

Lemma quiet_emit (e : event) : quiet (emit e).
Proof. intros w. repeat split. Qed.

Lemma quiet_set_realTimeMetrics (f : realTime -> realTime) :
  quiet (modify (set_realTimeMetrics f)).
Proof. intros w. repeat split. Qed.

Lemma quiet_set_improvementHistory (f : list improvement -> list improvement) :
  quiet (modify (set_improvementHistory f)).
Proof. intros w. repeat split. Qed.

Lemma quiet_bind {A B} (m : M A) (k : A -> M B) :
  quiet m -> (forall a, quiet (k a)) -> quiet (bind m k).
Proof.
  intros Hm Hk w. unfold bind. specialize (Hm w).
  destruct (m w) as [[a|e] w1]; cbn [fst snd] in *.
  - destruct Hm as [Hh Hc]. destruct (Hk a w1) as [Hh' Hc'].
    split; [congruence|]. eapply sameControl_trans; eassumption.
  - exact Hm.
Qed.

Lemma quiet_try_catch {A} (m : M A) (h : exn -> M A) :
  quiet m -> (forall e, quiet (h e)) -> quiet (try_catch m h).
Proof.
  intros Hm Hh w. unfold try_catch. specialize (Hm w).
  destruct (m w) as [[a|e] w1]; cbn [fst snd] in *.
  - exact Hm.
  - destruct Hm as [Hh0 Hc]. destruct (Hh e w1) as [Hh' Hc'].
    split; [congruence|]. eapply sameControl_trans; eassumption.
Qed.

Create HintDb quiet.
#[local] Hint Resolve quiet_ret quiet_throw quiet_lift quiet_gets quiet_now quiet_mathRandom
  quiet_emit quiet_set_realTimeMetrics quiet_set_improvementHistory : quiet.
#[local] Hint Extern 2 (quiet (bind _ _)) => apply quiet_bind; [|intros ?] : quiet.
#[local] Hint Extern 2 (quiet (try_catch _ _)) => apply quiet_try_catch; [|intros ?] : quiet.

Lemma quiet_getMetricValue (n : string) : quiet (getMetricValue n).
Proof. unfold getMetricValue. destruct (assoc_get _ _); auto with quiet. Qed.

Lemma quiet_executeAdaptationStrategy (s : strategy) : quiet (executeAdaptationStrategy s).
Proof. unfold executeAdaptationStrategy. destruct (assoc_get _ _); auto with quiet. Qed.

Lemma quiet_collectInto (source : string -> M Q) (names : list string) (metrics : metricsObj) :
  (forall n, quiet (source n)) -> quiet (collectInto source names metrics).
Proof.
  intros Hs. revert metrics. induction names as [|n rest IH]; intros metrics;
    cbn [collectInto]; auto with quiet.
Qed.

Lemma quiet_runStrategies (executor : strategy -> M bool) (strategies : list strategy)
    (count : nat) :
  (forall s, quiet (executor s)) -> quiet (runStrategies executor strategies count).
Proof.
  intros He. revert count. induction strategies as [|s rest IH]; intros count;
    cbn [runStrategies]; auto with quiet.
Qed.

Lemma quiet_generateAdaptation (L : loopObj) (a : analysis) : quiet (generateAdaptation L a).
Proof. unfold generateAdaptation. auto with quiet. Qed.

Lemma quiet_getLoop (l : loc) : quiet (getLoop l).
Proof. unfold getLoop. auto with quiet. Qed.

#[local] Hint Resolve quiet_getLoop quiet_generateAdaptation : quiet.

Lemma quiet_recordImprovement (l : loc) (a : adaptation) (an : analysis) :
  quiet (recordImprovement l a an).
Proof. unfold recordImprovement. auto with quiet. Qed.

Lemma quiet_countRecent (h : list improvement) (n : nat) : quiet (countRecent h n).
Proof. revert n. induction h as [|imp rest IH]; intros n; cbn [countRecent]; auto with quiet. Qed.

Lemma quiet_updateRealTimeMetrics : quiet updateRealTimeMetrics.
Proof.
  pose proof quiet_countRecent.
  unfold updateRealTimeMetrics, calculateAdaptationRate. auto 20 with quiet.
Qed.

Lemma updates_quiet (l : loc) (w w' : world) :
  heap w' = heap w -> sameControl w w' -> updates l id w w'.
Proof.
  intros Hh Hc. split; [|exact Hc]. rewrite Hh. symmetry. apply alter_id. reflexivity.
Qed.

Lemma updates_trans (l : loc) (F G : loopObj -> loopObj) (w w1 w2 : world) :
  updates l F w w1 -> updates l G w1 w2 -> updates l (G ∘ F) w w2.
Proof.
  intros [Hh Hc] [Hh' Hc']. split.
  - rewrite Hh', Hh. apply alter_alter_eq.
  - eapply sameControl_trans; eassumption.
Qed.

Lemma updates_modifyLoop (l : loc) (f : loopObj -> loopObj) (w : world) :
  updates l f w (modifyLoop l f w).2.
Proof. repeat split. Qed.

Lemma updates_then_quiet (l : loc) (F : loopObj -> loopObj) (w w1 w2 : world) :
  updates l F w w1 -> heap w2 = heap w1 -> sameControl w1 w2 -> updates l F w w2.
Proof.
  intros [Hh Hc] Hh' Hc'. split; [congruence|]. eapply sameControl_trans; eassumption.
Qed.

Lemma post_quiet {A} (m : M A) (w : world) :
  quiet m -> post m w (fun _ w' => heap w' = heap w /\ sameControl w w').
Proof. intros H. apply H. Qed.

Lemma runStrategies_post (executor : strategy -> M bool) (strategies : list strategy)
    (count : nat) (w : world) :
  (forall s, quiet (executor s)) ->
  post (runStrategies executor strategies count) w (fun r w' =>
    (exists n, r = Ok n) /\ heap w' = heap w /\ sameControl w w').
Proof.
  intros He. unfold post. split.
  - apply runStrategies_returns.
  - apply quiet_runStrategies, He.
Qed.

Lemma collectMetricsWith_post (source : string -> M Q) (names : list string) (w : world) :
  (forall n, quiet (source n)) ->
  post (collectMetricsWith source names) w (fun r w' =>
    (exists metrics, r = Ok metrics) /\ heap w' = heap w /\ sameControl w w').
Proof.
  intros Hs. unfold post, collectMetricsWith. split.
  - destruct (collectInto_contains source names [] w) as (obj & Hobj & _). eauto.
  - apply quiet_collectInto, Hs.
Qed.

Ltac step :=
  apply post_bind; unfold post at 1;
  cbn [fst snd gets modify now mathRandom emit lift getLoop modifyLoop ret].

Lemma applyAdaptationWith_post (executor : strategy -> M bool) (l : loc) (a : adaptation)
    (w : world) :
  (forall s, quiet (executor s)) ->
  post (applyAdaptationWith executor l a) w (fun r w' =>
    exists att,
      r = Ok (Qltb 0.5 (at_successRate att))
      /\ (0.5 < at_successRate att ->
          at_successRate att
          == of_nat (at_strategiesExecuted att) / of_nat (at_totalStrategies att))
      /\ updates l (fun L => set_adaptations (adaptations L ++ [att]) L) w w').
Proof.
  intros He. unfold applyAdaptationWith. apply post_bind.
  eapply post_mono; [apply runStrategies_post, He|].
  intros r w1 ((n & ->) & Hh & Hc). cbv beta iota.
  step. step. unfold post. cbn [ret fst snd].
  exists (mkAttempt a (clock w1 (clockReads w1))
            (if (0 <? length (a_strategies a))%nat
             then of_nat n / of_nat (length (a_strategies a)) else 0)
            n (length (a_strategies a))).
  split; [reflexivity|]. cbn [at_successRate at_strategiesExecuted at_totalStrategies].
  split.
  - destruct (0 <? length (a_strategies a))%nat; [reflexivity|].
    intros Habs. exfalso. revert Habs. apply Qle_not_lt. discriminate.
  - destruct Hc as (Ht & Ha & Hr). split; [|repeat split; assumption].
    cbn [heap set_heap tick_clock]. rewrite Hh. reflexivity.
Qed.

Lemma sameIdentity_refl (L : loopObj) : sameIdentity L L.
Proof. repeat split. Qed.

Lemma sameIdentity_trans (L1 L2 L3 : loopObj) :
  sameIdentity L1 L2 -> sameIdentity L2 L3 -> sameIdentity L1 L3.
Proof. intros (?&?&?&?) (?&?&?&?). repeat split; congruence. Qed.

(** The end of the [try] block: performance update, execution count, time
    of last execution, event. *)
Lemma finishCycle_post (l : loc) (startTime : Z) (name : string) (adaptationNeeded : bool)
    (w0 w : world) :
  touches l beforeUpdate w0 w ->
  post (let* finish := now in
        let executionTime := (finish - startTime)%Z in
        updateLoopPerformance l executionTime (negb adaptationNeeded || adaptationNeeded) ;;
        modifyLoop l (fun L => set_executionCount (S (executionCount L)) L) ;;
        let* t := now in
        modifyLoop l (set_lastExecution (Some t)) ;;
        emit (loopExecuted name adaptationNeeded)) w
       (fun r w' => touches l (cycleEffect r) w0 w').
Proof.
  intros (F & [Hh Hc] & HF).
  step. unfold updateLoopPerformance. step. step. step. step.
  unfold post. cbn [emit modify fst snd].
  eexists. split.
  - split.
    + cbn [heap add_event set_heap tick_clock]. rewrite Hh, !alter_alter_eq. reflexivity.
    + destruct Hc as (Ht & Ha & Hr). repeat split; assumption.
  - intros L. destruct (HF L) as (Hid & Hcount & Hperf & Himp).
    cbn [compose]. split; [|split; [|split]].
    + destruct Hid as (?&?&?&?). repeat split; assumption.
    + cbn. f_equal. exact Hcount.
    + cbn [l_performance set_lastExecution set_executionCount set_l_performance successRate].
      rewrite Hperf, Hcount. destruct adaptationNeeded; reflexivity.
    + destruct Himp as [Hsame|(Hinc & att & Hatt & Hrate)]; [left; exact Hsame|].
      right. split; [exact Hinc|]. exists att. split; [exact Hatt|exact Hrate].
Qed.

Lemma recordImprovement_post (l : loc) (a : adaptation) (an : analysis) (w : world) :
  post (recordImprovement l a an) w (fun r w' =>
    r = Ok tt /\ heap w' = heap w /\ sameControl w w').
Proof.
  unfold recordImprovement. step. step. unfold post. cbn [modify fst snd].
  repeat split.
Qed.

(** The adaptation branch of the [try] block. *)
Lemma adaptationBranch_post (executor : strategy -> M bool) (l : loc) (L1 : loopObj)
    (an : analysis) (adaptationNeeded : bool) (w0 w : world) (F : loopObj -> loopObj) :
  (forall s, quiet (executor s)) ->
  updates l F w0 w ->
  (forall L, sameIdentity L (F L) /\ executionCount (F L) = executionCount L
             /\ l_performance (F L) = l_performance L
             /\ improvementCount (F L) = improvementCount L
             /\ adaptations (F L) = adaptations L) ->
  post (if adaptationNeeded then
          let* a := generateAdaptation L1 an in
          let* success := applyAdaptationWith executor l a in
          if success then
            modifyLoop l (fun L => set_improvementCount (S (improvementCount L)) L) ;;
            recordImprovement l a an
          else ret tt
        else ret tt) w
       (fun r w' => r = Ok tt /\ touches l beforeUpdate w0 w').
Proof.
  intros He Hw HF. destruct adaptationNeeded.
  2: { unfold post. cbn [ret fst snd]. split; [reflexivity|].
       exists F. split; [exact Hw|]. intros L. destruct (HF L) as (Hid & Hc & Hp & Hi & Ha).
       repeat split; try apply Hid; try assumption. left. exact Hi. }
  unfold generateAdaptation. apply post_bind. step. unfold post at 1. cbn [ret fst snd].
  apply post_bind. eapply post_mono; [apply applyAdaptationWith_post, He|].
  intros r w1 (att & -> & Hrate & Hu). cbv beta iota.
  assert (Hw1 : updates l ((fun L => set_adaptations (adaptations L ++ [att]) L) ∘ F) w0 w1).
  { eapply updates_trans; [|exact Hu].
    destruct Hw as [Hh Hc]. split; [exact Hh|]. exact Hc. }
  destruct (Qltb 0.5 (at_successRate att)) eqn:Esucc.
  - apply Qltb_lt in Esucc. step.
    eapply post_mono; [apply recordImprovement_post|].
    intros r w2 (-> & Hh2 & Hc2). cbv beta.
    split; [reflexivity|].
    eexists. split.
    + eapply updates_then_quiet; [|exact Hh2|exact Hc2].
      eapply updates_trans; [exact Hw1|apply updates_modifyLoop].
    + intros L. destruct (HF L) as (Hid & Hc & Hp & Hi & Ha). cbn [compose].
      split; [destruct Hid as (?&?&?&?); repeat split; assumption|].
      split; [exact Hc|]. split; [exact Hp|]. right.
      split; [cbn; f_equal; exact Hi|]. exists att.
      split; [cbn; rewrite Ha; reflexivity|]. split; [exact Esucc|apply Hrate, Esucc].
  - unfold post. cbn [ret fst snd]. split; [reflexivity|].
    eexists. split; [exact Hw1|]. intros L. destruct (HF L) as (Hid & Hc & Hp & Hi & Ha).
    cbn [compose]. split; [destruct Hid as (?&?&?&?); repeat split; assumption|].
    split; [exact Hc|]. split; [exact Hp|]. left. exact Hi.
Qed.

(** One run of the [try] block of [executeLoop]. *)
Lemma executeLoopTry_post (source : string -> M Q) (executor : strategy -> M bool)
    (l : loc) (startTime : Z) (w : world) :
  (forall n, quiet (source n)) -> (forall s, quiet (executor s)) ->
  post (executeLoopTry source executor l startTime) w
       (fun r w' => touches l (cycleEffect r) w w').
Proof.
  intros Hs He. unfold executeLoopTry. step.
  apply post_bind. eapply post_mono; [apply collectMetricsWith_post, Hs|].
  intros r w1 ((metrics & ->) & Hh1 & Hc1). cbv beta iota.
  step. step. step. step.
  set (F := fun L => set_l_metrics
                       (assoc_set (l_metrics L) (clock w1 (clockReads w1)) metrics) L).
  set (w2 := set_heap (alter F l) (tick_clock w1)).
  assert (Hw2 : updates l F w w2).
  { split; [subst w2; cbn [heap set_heap tick_clock]; rewrite Hh1; reflexivity|].
    destruct Hc1 as (?&?&?). repeat split; assumption. }
  assert (HF : forall L, sameIdentity L (F L) /\ executionCount (F L) = executionCount L
                         /\ l_performance (F L) = l_performance L
                         /\ improvementCount (F L) = improvementCount L
                         /\ adaptations (F L) = adaptations L)
    by (intros L; repeat split).
  destruct (analyzeMetrics _ metrics) as [an|e].
  - step. apply post_bind.
    eapply post_mono; [exact (adaptationBranch_post executor l _ an _ w w2 F He Hw2 HF)|].
    intros r w3 (-> & Ht). cbv beta iota.
    apply finishCycle_post. exact Ht.
  - exists F. split; [exact Hw2|]. intros L. destruct (HF L) as (Hid & Hc & Hp & Hi & _).
    split; [exact Hid|]. auto.
Qed.

Lemma executeLoopWith_touches (source : string -> M Q) (executor : strategy -> M bool)
    (l : loc) (w : world) :
  (forall n, quiet (source n)) -> (forall s, quiet (executor s)) ->
  exists r,
    throws r = cycleThrows source executor l w
    /\ touches l (cycleEffect r) w (executeLoopWith source executor l w).2.
Proof.
  intros Hs He. unfold cycleThrows, executeLoopWith, bind at 1. cbn [now].
  pose proof (executeLoopTry_post source executor l (clock w (clockReads w))
                (tick_clock w) Hs He) as Hpost.
  unfold post in Hpost. unfold try_catch.
  destruct (executeLoopTry source executor l _ _) as [[[]|e] w1]; cbn [fst snd] in *.
  - exists (Ok tt). split; [reflexivity|].
    destruct Hpost as (F & [Hh Hc] & HF). exists F. split; [|exact HF].
    split; [exact Hh|exact Hc].
  - exists (Throw e). split; [reflexivity|].
    destruct Hpost as (F & [Hh Hc] & HF). exists F. split; [|exact HF].
    split; [exact Hh|exact Hc].
Qed.

(** ** Counting cycles and improvements *)

(** C5 (as amended). For every loop and every cycle, with any metric source
    and strategy executor that leave the loop objects alone: a cycle whose
    [try] block completes adds exactly one to [executionCount]; a cycle that
    throws (its evaluation raised) leaves [executionCount] and
    [improvementCount] as they were; [improvementCount] grows, by one, only
    when the cycle applied an adaptation whose success rate (successful
    strategies over strategies attempted) exceeds 0.5; and no other loop
    object is changed. *)
Theorem executeLoop_counts (source : string -> M Q) (executor : strategy -> M bool)
    (l : loc) (w : world) (L : loopObj) :
  (forall n, quiet (source n)) ->
  (forall s, quiet (executor s)) ->
  heap w !! l = Some L ->
  exists L',
    heap (executeLoopWith source executor l w).2 !! l = Some L'
    /\ (cycleThrows source executor l w = false ->
        executionCount L' = S (executionCount L))
    /\ (cycleThrows source executor l w = true ->
        executionCount L' = executionCount L /\ improvementCount L' = improvementCount L)
    /\ improved L L'
    /\ (forall l', l' <> l ->
        heap (executeLoopWith source executor l w).2 !! l' = heap w !! l').
Proof.
  intros Hs He HL.
  destruct (executeLoopWith_touches source executor l w Hs He)
    as (r & Hr & F & [Hh Hc] & HF).
  exists (F L). rewrite Hh. split; [rewrite lookup_alter_eq, HL; reflexivity|].
  destruct (HF L) as (Hid & Heff). rewrite <- Hr.
  destruct r as [u|e]; cbn [throws].
  - destruct Heff as (Hcount & _ & Himp).
    split; [intros _; exact Hcount|]. split; [discriminate|]. split; [exact Himp|].
    intros l' Hne. apply lookup_alter_ne. congruence.
  - destruct Heff as (Hcount & Himp & _).
    split; [discriminate|]. split; [intros _; split; assumption|].
    split; [left; exact Himp|].
    intros l' Hne. apply lookup_alter_ne. congruence.
Qed.

Lemma executeLoop_counts_witness :
  exists L',
    heap (executeLoop 0%nat (constructor steadyClock midRandom)).2 !! 0%nat = Some L'
    /\ executionCount L' = 1%nat.
Proof.
  destruct (heap (constructor steadyClock midRandom) !! 0%nat) as [L|] eqn:HL;
    [|vm_compute in HL; discriminate].
  destruct (executeLoop_counts getMetricValue executeAdaptationStrategy 0%nat
              (constructor steadyClock midRandom) L
              quiet_getMetricValue quiet_executeAdaptationStrategy HL)
    as (L' & HL' & Hok & _).
  exists L'. split; [exact HL'|].
  rewrite Hok; [|vm_compute; reflexivity].
  vm_compute in HL. injection HL as <-. reflexivity.
Defined.

Example unconfigured_cycle_fails :
  let w := (executeLoop 5%nat unconfiguredWorld).2 in
  events w = [loopError "bare" (TypeError "Cannot read properties of undefined")]
  /\ executionCount <$> heap w !! 5%nat = Some 0%nat.
Proof. vm_compute. split; reflexivity. Qed.

(** C5, counterexample: the cycle of the loop without thresholds throws in
    the evaluation and is not counted. *)
Lemma failed_cycle_not_counted : ~ specCountsEveryCycle 5%nat unconfiguredWorld.
Proof. vm_compute. discriminate. Qed.

(** ** Invariants of the loop objects *)

Lemma maintains_ret {A} (I : world -> Prop) (a : A) : maintains I (ret a).
Proof. intros w H. exact H. Qed.

Lemma maintains_bind {A B} (I : world -> Prop) (m : M A) (k : A -> M B) :
  maintains I m -> (forall a, maintains I (k a)) -> maintains I (bind m k).
Proof.
  intros Hm Hk w H. unfold bind. specialize (Hm w H).
  destruct (m w) as [[a|e] w1]; cbn [snd] in *; [apply Hk|]; exact Hm.
Qed.

Lemma maintains_heap_same {A} (P : loopObj -> Prop) (m : M A) :
  (forall w, heap (m w).2 = heap w) -> maintains (loopsSatisfy P) m.
Proof. intros Hm w H l L. rewrite Hm. apply H. Qed.

Lemma maintains_quiet {A} (P : loopObj -> Prop) (m : M A) :
  quiet m -> maintains (loopsSatisfy P) m.
Proof. intros Hq. apply maintains_heap_same. intros w. apply Hq. Qed.

Lemma maintains_modifyLoop (P : loopObj -> Prop) (l : loc) (f : loopObj -> loopObj) :
  (forall L, P L -> P (f L)) -> maintains (loopsSatisfy P) (modifyLoop l f).
Proof.
  intros Hf w H l' L'. cbn [modifyLoop modify snd heap set_heap].
  destruct (decide (l = l')) as [<-|Hne].
  - rewrite lookup_alter_eq. destruct (heap w !! l) as [L|] eqn:E; [|discriminate].
    intros [= <-]. apply Hf. eapply H, E.
  - rewrite lookup_alter_ne by exact Hne. apply H.
Qed.

Lemma maintains_forEach {A} (I : world -> Prop) (f : A -> M unit) (xs : list A) :
  (forall x, maintains I (f x)) -> maintains I (forEach f xs).
Proof.
  intros Hf. induction xs as [|x rest IH]; cbn [forEach].
  - apply maintains_ret.
  - apply maintains_bind; [apply Hf|intros _; exact IH].
Qed.

Lemma maintains_setInterval (P : loopObj -> Prop) (t : timer) :
  maintains (loopsSatisfy P) (setInterval t).
Proof. apply maintains_heap_same. reflexivity. Qed.

Lemma maintains_clearInterval (P : loopObj -> Prop) (id : timerId) :
  maintains (loopsSatisfy P) (clearInterval id).
Proof. apply maintains_heap_same. reflexivity. Qed.

Section LoopInvariant.
Variable P : loopObj -> Prop.
Hypothesis P_new : forall name config, P (newLoop name config).
Hypothesis P_state : forall s L, P L -> P (set_l_state s L).
Hypothesis P_interval : forall i L, P L -> P (set_intervalId i L).
Hypothesis P_cycle : forall r L L', cycleEffect r L L' -> P L -> P L'.

Lemma maintains_createFeedbackLoop (name : string) (config : loopConfig) :
  maintains (loopsSatisfy P) (createFeedbackLoop name config).
Proof.
  intros w H l L. cbn. destruct (decide (fresh (dom (heap w)) = l)) as [<-|Hne].
  - rewrite lookup_insert_eq. intros [= <-]. apply P_new.
  - rewrite lookup_insert_ne by exact Hne. apply H.
Qed.

Lemma maintains_startLoop (l : loc) : maintains (loopsSatisfy P) (startLoop l).
Proof.
  unfold startLoop. apply maintains_bind; [apply maintains_quiet, quiet_getLoop|].
  intros L. destruct (l_state L); [apply maintains_ret|].
  apply maintains_bind; [apply maintains_modifyLoop, P_state|]. intros _.
  apply maintains_bind; [apply maintains_setInterval|]. intros id.
  apply maintains_modifyLoop, P_interval.
Qed.

Lemma maintains_stopLoop (l : loc) : maintains (loopsSatisfy P) (stopLoop l).
Proof.
  unfold stopLoop. apply maintains_bind; [apply maintains_quiet, quiet_getLoop|].
  intros L. destruct (l_state L); [|apply maintains_ret].
  apply maintains_bind; [apply maintains_modifyLoop, P_state|]. intros _.
  destruct (intervalId L); [|apply maintains_ret].
  apply maintains_bind; [apply maintains_clearInterval|]. intros _.
  apply maintains_modifyLoop, P_interval.
Qed.

Lemma maintains_start : maintains (loopsSatisfy P) start.
Proof.
  unfold start. apply maintains_bind; [apply maintains_quiet, quiet_gets|].
  intros running. destruct running; [apply maintains_ret|].
  apply maintains_bind; [apply maintains_heap_same; reflexivity|]. intros _.
  apply maintains_bind; [apply maintains_quiet, quiet_gets|]. intros loops.
  apply maintains_bind; [apply maintains_forEach; intros x; apply maintains_startLoop|].
  intros _. apply maintains_bind; [|intros _; apply maintains_quiet, quiet_emit].
  unfold startRealTimeMetrics.
  apply maintains_bind; [apply maintains_setInterval|]. intros id.
  apply maintains_heap_same. reflexivity.
Qed.

Lemma maintains_stop : maintains (loopsSatisfy P) stop.
Proof.
  unfold stop. apply maintains_bind; [apply maintains_quiet, quiet_gets|].
  intros running. destruct running; [|apply maintains_ret]. cbn [negb].
  apply maintains_bind; [apply maintains_heap_same; reflexivity|]. intros _.
  apply maintains_bind; [apply maintains_quiet, quiet_gets|]. intros loops.
  apply maintains_bind; [apply maintains_forEach; intros x; apply maintains_stopLoop|].
  intros _. apply maintains_quiet, quiet_emit.
Qed.

Lemma maintains_executeLoop (l : loc) : maintains (loopsSatisfy P) (executeLoop l).
Proof.
  intros w H l' L'.
  destruct (executeLoopWith_touches getMetricValue executeAdaptationStrategy l w
              quiet_getMetricValue quiet_executeAdaptationStrategy)
    as (r & _ & F & [Hh _] & HF).
  unfold executeLoop. rewrite Hh. destruct (decide (l = l')) as [<-|Hne].
  - rewrite lookup_alter_eq. destruct (heap w !! l) as [L|] eqn:E; [|discriminate].
    intros [= <-]. eapply P_cycle; [apply HF|]. eapply H, E.
  - rewrite lookup_alter_ne by exact Hne. apply H.
Qed.

Lemma maintains_fire (id : timerId) : maintains (loopsSatisfy P) (fire id).
Proof.
  unfold fire. apply maintains_bind; [apply maintains_quiet, quiet_gets|].
  intros [[l|]|].
  - apply maintains_executeLoop.
  - apply maintains_quiet, quiet_updateRealTimeMetrics.
  - apply maintains_ret.
Qed.

Lemma maintains_perform (c : call) : maintains (loopsSatisfy P) (perform c).
Proof.
  destruct c; cbn [perform].
  - apply maintains_bind; [apply maintains_createFeedbackLoop|intros _; apply maintains_ret].
  - apply maintains_start.
  - apply maintains_stop.
  - apply maintains_startLoop.
  - apply maintains_stopLoop.
  - apply maintains_executeLoop.
  - apply maintains_fire.
Qed.

Lemma reachable_loopsSatisfy (w : world) : reachable w -> loopsSatisfy P w.
Proof.
  induction 1 as [clock random|w c Hw IH].
  - unfold constructor, initializeDefaultLoops.
    assert (H0 : loopsSatisfy P (emptyWorld clock random))
      by (intros l L; cbn; rewrite lookup_empty; discriminate).
    revert H0. generalize (emptyWorld clock random).
    change (maintains (loopsSatisfy P) initializeDefaultLoops).
    unfold initializeDefaultLoops.
    repeat (apply maintains_bind; [apply maintains_createFeedbackLoop|intros _]).
    apply maintains_ret.
  - apply maintains_perform. exact IH.
Qed.
End LoopInvariant.

(** ** The recorded success rate *)

Lemma successRate_update (rate : Q) (count : nat) :
  count = 0%nat \/ rate == 1 ->
  (rate * of_nat count + 1) / (of_nat count + 1) == 1.
Proof.
  intros H. pose proof (of_nat_nonneg count) as Hc.
  assert (Hne : ~ of_nat count + 1 == 0) by lra.
  destruct H as [->|Hr].
  - change (of_nat 0) with 0. field.
  - rewrite Hr. field. exact Hne.
Qed.

Lemma cleanRecord_cycle (r : result unit) (L L' : loopObj) :
  cycleEffect r L L' -> cleanRecord L -> cleanRecord L'.
Proof.
  intros [_ Heff] HL. destruct r as [u|e].
  - destruct Heff as (_ & Hrate & _). right. rewrite Hrate.
    apply successRate_update. exact HL.
  - destruct Heff as (Hcount & _ & Hperf). unfold cleanRecord.
    rewrite Hcount, Hperf. exact HL.
Qed.

Lemma reachable_cleanRecord (w : world) : reachable w -> loopsSatisfy cleanRecord w.
Proof.
  apply reachable_loopsSatisfy.
  - intros name config. left. reflexivity.
  - intros s L H. exact H.
  - intros i L H. exact H.
  - apply cleanRecord_cycle.
Qed.

(** C10. In every state that the supervisor can reach from its
    construction, and for every loop object: a cycle of the loop that
    completes without throwing leaves [performance.successRate] equal to 1,
    and a cycle that throws leaves [performance] as it was. *)
Theorem successRate_always_one (w : world) (l : loc) (L : loopObj) :
  reachable w ->
  heap w !! l = Some L ->
  exists L',
    heap (executeLoop l w).2 !! l = Some L'
    /\ (cycleThrows getMetricValue executeAdaptationStrategy l w = false ->
        successRate (l_performance L') == 1)
    /\ (cycleThrows getMetricValue executeAdaptationStrategy l w = true ->
        l_performance L' = l_performance L).
Proof.
  intros Hw HL. pose proof (reachable_cleanRecord w Hw l L HL) as Hclean.
  destruct (executeLoopWith_touches getMetricValue executeAdaptationStrategy l w
              quiet_getMetricValue quiet_executeAdaptationStrategy)
    as (r & Hr & F & [Hh _] & HF).
  exists (F L). unfold executeLoop. rewrite Hh.
  split; [rewrite lookup_alter_eq, HL; reflexivity|].
  destruct (HF L) as (_ & Heff). rewrite <- Hr. destruct r as [u|e]; cbn [throws].
  - split; [|discriminate]. intros _. destruct Heff as (_ & Hrate & _).
    rewrite Hrate. apply successRate_update. exact Hclean.
  - split; [discriminate|]. intros _. apply Heff.
Qed.

Lemma successRate_always_one_witness :
  exists L',
    heap (executeLoop 1%nat (run [Start; Fire 1%nat] (constructor steadyClock midRandom))).2
      !! 1%nat = Some L'
    /\ successRate (l_performance L') == 1.
Proof.
  set (w := run [Start; Fire 1%nat] (constructor steadyClock midRandom)).
  assert (Hw : reachable w).
  { subst w. unfold run. cbn [foldl]. apply reach_call, reach_call, reach_new. }
  destruct (heap w !! 1%nat) as [L|] eqn:HL; [|vm_compute in HL; discriminate].
  destruct (successRate_always_one w 1%nat L Hw HL) as (L' & HL' & Hok & _).
  exists L'. split; [exact HL'|]. apply Hok. vm_compute. reflexivity.
Defined.

(** ** Registration *)

(** C7 (as amended). Registering a loop under any name, whether or not a
    loop of that name exists and whether that loop is active or inactive,
    never raises: it allocates a new loop object, inactive and with
    [executionCount] 0, and makes the name and its threshold table refer to
    it; every loop object that existed before, the replaced one included,
    is left as it was, and so are the pending timers. *)
Theorem createFeedbackLoop_replaces (name : string) (config : loopConfig) (w : world) :
  exists l L,
    (createFeedbackLoop name config w).1 = Ok l
    /\ heap w !! l = None
    /\ heap (createFeedbackLoop name config w).2 !! l = Some L
    /\ L = newLoop name config
    /\ l_state L = inactive /\ executionCount L = 0%nat
    /\ assoc_get (activeLoops (createFeedbackLoop name config w).2) name = Some l
    /\ performanceThresholds (createFeedbackLoop name config w).2 !! name
       = Some (c_threshold config)
    /\ (forall l', l' <> l ->
        heap (createFeedbackLoop name config w).2 !! l' = heap w !! l')
    /\ timers (createFeedbackLoop name config w).2 = timers w
    /\ isRunning (createFeedbackLoop name config w).2 = isRunning w.
Proof.
  exists (fresh (dom (heap w))), (newLoop name config). cbn.
  split; [reflexivity|]. split; [apply not_elem_of_dom, is_fresh|].
  split; [apply lookup_insert_eq|]. split; [reflexivity|].
  split; [reflexivity|]. split; [reflexivity|].
  split; [rewrite assoc_get_set; destruct (decide (name = name)); congruence|].
  split; [apply lookup_insert_eq|].
  split; [intros l' Hne; apply lookup_insert_ne; congruence|].
  split; reflexivity.
Qed.

(** Re-registering the running performance loop: no error; the name now
    refers to a new, inactive loop object, and the timer of the replaced
    object is still pending. *)
Example reregister_running_loop :
  let w := (createFeedbackLoop "performance" replacement runningWorld).2 in
  (createFeedbackLoop "performance" replacement runningWorld).1 = Ok 5%nat
  /\ l_state <$> heap runningWorld !! 0%nat = Some active
  /\ assoc_get (activeLoops w) "performance"%string = Some 5%nat
  /\ l_state <$> heap w !! 5%nat = Some inactive
  /\ timers w !! 0%nat = Some (LoopTimer 0%nat).
Proof. vm_compute. repeat split; reflexivity. Qed.

(** C7, counterexample: registering "performance" while the loop of that
    name is active raises nothing. *)
Lemma createFeedbackLoop_accepts_active_name :
  ~ specRejectsActive "performance" replacement runningWorld.
Proof.
  intros H. assert (Hthrows : throws (Ok 5%nat : result loc) = true).
  { apply H. exists 0%nat. eexists. split; [vm_compute; reflexivity|].
    split; [vm_compute; reflexivity|]. reflexivity. }
  discriminate Hthrows.
Qed.

(** ** Stopping *)

Lemma stopLoop_world (l : loc) (w : world) :
  (stopLoop l w).1 = Ok tt
  /\ (stopLoop l w).2 =
     match heap w !! l with
     | Some L =>
         match l_state L, intervalId L with
         | active, Some id =>
             set_heap (alter (set_intervalId None) l)
               (set_timers (delete id) (set_heap (alter (set_l_state inactive) l) w))
         | active, None => set_heap (alter (set_l_state inactive) l) w
         | inactive, _ => w
         end
     | None => w
     end.
Proof.
  unfold stopLoop, bind, getLoop, gets.
  destruct (heap w !! l) as [L|]; cbn [from_option id].
  - destruct (l_state L); [destruct (intervalId L)|]; split; reflexivity.
  - split; reflexivity.
Qed.

Lemma stopLoop_cancels (l : loc) (w : world) :
  timersHeld w ->
  timersHeld (stopLoop l w).2
  /\ noTimerFor l (stopLoop l w).2
  /\ timers (stopLoop l w).2 ⊆ timers w.
Proof.
  intros Hheld. rewrite (proj2 (stopLoop_world l w)).
  destruct (heap w !! l) as [L|] eqn:HL.
  - destruct (l_state L) eqn:Hstate.
    + destruct (intervalId L) as [id|] eqn:Hid;
        unfold timersHeld, noTimerFor; cbn [timers heap set_heap set_timers].
      * split; [|split].
        -- intros id' l' Hlook.
           destruct (decide (id = id')) as [<-|Hne];
             [rewrite lookup_delete_eq in Hlook; discriminate|].
           rewrite lookup_delete_ne in Hlook by exact Hne.
           destruct (Hheld id' l' Hlook) as (L' & HL' & Hact & Hint).
           destruct (decide (l = l')) as [<-|Hnel].
           ++ rewrite HL in HL'. injection HL' as <-. congruence.
           ++ exists L'. rewrite !lookup_alter_ne by exact Hnel. auto.
        -- intros id' Hlook.
           destruct (decide (id = id')) as [<-|Hne];
             [rewrite lookup_delete_eq in Hlook; discriminate|].
           rewrite lookup_delete_ne in Hlook by exact Hne.
           destruct (Hheld id' l Hlook) as (L' & HL' & _ & Hint). congruence.
        -- apply delete_subseteq.
      * split; [|split].
        -- intros id' l' Hlook. destruct (Hheld id' l' Hlook) as (L' & HL' & Hact & Hint).
           destruct (decide (l = l')) as [<-|Hnel].
           ++ rewrite HL in HL'. injection HL' as <-. congruence.
           ++ exists L'. rewrite lookup_alter_ne by exact Hnel. auto.
        -- intros id' Hlook. destruct (Hheld id' l Hlook) as (L' & HL' & _ & Hint). congruence.
        -- reflexivity.
    + split; [exact Hheld|]. split; [|reflexivity].
      intros id' Hlook. destruct (Hheld id' l Hlook) as (L' & HL' & Hact & _). congruence.
  - split; [exact Hheld|]. split; [|reflexivity].
    intros id' Hlook. destruct (Hheld id' l Hlook) as (L' & HL' & _). congruence.
Qed.

Lemma bind_ok {A B} (m : M A) (k : A -> M B) (w : world) (a : A) :
  (m w).1 = Ok a -> bind m k w = k a (m w).2.
Proof. unfold bind. destruct (m w) as [r w1]. cbn [fst snd]. intros ->. reflexivity. Qed.

Lemma forEach_stopLoop_cancels (loops : list (string * loc)) (w : world) :
  timersHeld w ->
  timersHeld (forEach (fun e => stopLoop e.2) loops w).2
  /\ (forall e, e ∈ loops -> noTimerFor e.2 (forEach (fun e => stopLoop e.2) loops w).2)
  /\ timers (forEach (fun e => stopLoop e.2) loops w).2 ⊆ timers w.
Proof.
  revert w. induction loops as [|e rest IH]; intros w Hheld.
  - cbn. split; [exact Hheld|]. split; [|reflexivity].
    intros e He. apply elem_of_nil in He. contradiction.
  - cbn [forEach]. rewrite (bind_ok _ _ w tt (proj1 (stopLoop_world e.2 w))).
    destruct (stopLoop_cancels e.2 w Hheld) as (Hheld1 & Hnone & Hsub).
    destruct (IH _ Hheld1) as (Hheld2 & Hnone2 & Hsub2).
    split; [exact Hheld2|]. split; [|etrans; eassumption].
    intros e' He'. apply elem_of_cons in He' as [->|He']; [|apply Hnone2, He'].
    intros id Hlook. eapply Hnone. eapply lookup_weaken; eassumption.
Qed.

Lemma forEach_stopLoop_ok (loops : list (string * loc)) (w : world) :
  (forEach (fun e => stopLoop e.2) loops w).1 = Ok tt.
Proof.
  revert w. induction loops as [|e rest IH]; intros w; [reflexivity|].
  cbn [forEach]. rewrite (bind_ok _ _ w tt (proj1 (stopLoop_world e.2 w))). apply IH.
Qed.

Lemma stop_world (w : world) :
  isRunning w = true ->
  (stop w).2
  = add_event stopped
      (forEach (fun e => stopLoop e.2) (activeLoops w) (set_isRunning false w)).2.
Proof.
  intros Hrun. unfold stop.
  rewrite (bind_ok _ _ w true) by (cbn; rewrite Hrun; reflexivity).
  cbn [negb gets snd].
  rewrite (bind_ok _ _ w tt) by reflexivity. cbn [modify snd].
  rewrite (bind_ok _ _ _ (activeLoops w)) by reflexivity. cbn [gets snd].
  rewrite (bind_ok _ _ _ tt (forEach_stopLoop_ok _ _)). reflexivity.
Qed.

Lemma timersOwned_held (w : world) :
  timersOwned w ->
  timersHeld w
  /\ forall id l, timers w !! id = Some (LoopTimer l) -> l ∈ (snd <$> activeLoops w).
Proof.
  intros Hown.
  assert (H : forall id l, timers w !! id = Some (LoopTimer l) ->
                (exists L, heap w !! l = Some L /\ l_state L = active
                           /\ intervalId L = Some id)
                /\ l ∈ (snd <$> activeLoops w)).
  { intros id l Hlook. specialize (Hown id _ Hlook). cbn [ownsTimer] in Hown.
    destruct (heap w !! l) as [L|]; [|discriminate].
    apply andb_prop in Hown as [Hown Hreg]. apply andb_prop in Hown as [Hact Hid].
    apply bool_decide_eq_true in Hact, Hid, Hreg. split; [|exact Hreg].
    exists L. auto. }
  split.
  - intros id l Hlook. apply (H id l Hlook).
  - intros id l Hlook. apply (H id l Hlook).
Qed.

Lemma stop_cancels_all (w : world) :
  isRunning w = true -> timersOwned w -> noLoopTimer (stop w).2.
Proof.
  intros Hrun Hown. rewrite (stop_world w Hrun).
  destruct (timersOwned_held w Hown) as [Hheld Hreg].
  destruct (forEach_stopLoop_cancels (activeLoops w) (set_isRunning false w) Hheld)
    as (_ & Hnone & Hsub).
  intros id l Hlook. cbn [timers add_event] in Hlook.
  assert (Hbefore : timers w !! id = Some (LoopTimer l))
    by (eapply (lookup_weaken _ (timers (set_isRunning false w))); eassumption).
  apply Hreg in Hbefore. apply list_elem_of_fmap in Hbefore as (e & -> & He).
  exact (Hnone e He id Hlook).
Qed.

Lemma fire_without_loop_timer (id : timerId) (w : world) :
  noLoopTimer w -> heap (fire id w).2 = heap w /\ timers (fire id w).2 = timers w.
Proof.
  intros Hnone. unfold fire.
  rewrite (bind_ok _ _ w (timers w !! id)) by reflexivity. cbn [gets snd].
  destruct (timers w !! id) as [[l|]|] eqn:E.
  - exfalso. exact (Hnone id l E).
  - destruct (quiet_updateRealTimeMetrics w) as (Hh & Ht & _). auto.
  - split; reflexivity.
Qed.

Lemma fires_without_loop_timer (ids : list timerId) (w : world) :
  noLoopTimer w -> heap (run (Fire <$> ids) w) = heap w.
Proof.
  revert w. induction ids as [|id rest IH]; intros w Hnone; [reflexivity|].
  cbn [fmap list_fmap run foldl perform].
  destruct (fire_without_loop_timer id w Hnone) as [Hh Ht].
  change (heap (run (Fire <$> rest) (fire id w).2) = heap w).
  rewrite IH; [exact Hh|]. intros id' l. rewrite Ht. apply Hnone.
Qed.

Lemma timersOwned_updates (l : loc) (F : loopObj -> loopObj) (w w' : world) :
  updates l F w w' -> (forall L, sameIdentity L (F L)) -> timersOwned w -> timersOwned w'.
Proof.
  intros [Hh (Ht & Ha & _)] HF Hown id t Hlook. rewrite Ht in Hlook.
  specialize (Hown id t Hlook). cbn beta in Hown. destruct t as [l'|]; [|reflexivity].
  cbn [ownsTimer] in *. rewrite Hh, Ha.
  destruct (decide (l = l')) as [<-|Hne].
  - rewrite lookup_alter_eq. destruct (heap w !! l) as [L|]; [|discriminate].
    cbn [fmap option_fmap option_map]. destruct (HF L) as (_ & _ & -> & ->). exact Hown.
  - rewrite lookup_alter_ne by exact Hne. exact Hown.
Qed.

Lemma fire_keeps_ownership (id : timerId) (w : world) :
  timersOwned w ->
  timersOwned (fire id w).2 /\ isRunning (fire id w).2 = isRunning w.
Proof.
  intros Hown. unfold fire.
  rewrite (bind_ok _ _ w (timers w !! id)) by reflexivity. cbn [gets snd].
  destruct (timers w !! id) as [[l|]|].
  - destruct (executeLoopWith_touches getMetricValue executeAdaptationStrategy l w
                quiet_getMetricValue quiet_executeAdaptationStrategy)
      as (r & _ & F & Hu & HF).
    split; [|apply Hu].
    eapply timersOwned_updates; [exact Hu| |exact Hown]. intros L. apply HF.
  - destruct (quiet_updateRealTimeMetrics w) as (Hh & Hc).
    split; [|apply Hc].
    eapply (timersOwned_updates 0%nat); [apply updates_quiet; eassumption| |exact Hown].
    intros L. apply sameIdentity_refl.
  - split; [exact Hown|reflexivity].
Qed.

Lemma fires_keep_ownership (ids : list timerId) (w : world) :
  timersOwned w ->
  timersOwned (run (Fire <$> ids) w)
  /\ isRunning (run (Fire <$> ids) w) = isRunning w.
Proof.
  revert w. induction ids as [|id rest IH]; intros w Hown; [split; [exact Hown|reflexivity]|].
  cbn [fmap list_fmap run foldl perform].
  destruct (fire_keeps_ownership id w Hown) as [Hown1 Hrun1].
  change (timersOwned (run (Fire <$> rest) (fire id w).2)
          /\ isRunning (run (Fire <$> rest) (fire id w).2) = isRunning w).
  destruct (IH _ Hown1) as [Hown2 Hrun2]. split; [exact Hown2|congruence].
Qed.

(** C8 (as amended). When the supervisor is running and every pending loop
    timer belongs to an active loop object that is registered under some
    name (as after [start()], as long as no name is registered again while
    its loop runs), then, whatever cycles the timers run next, after
    [stop()] has returned no loop timer is pending, and no firing of
    timers, however many, changes the execution count of any loop. *)
Theorem stop_cancels_registered_loops (w : world) (cycles : list timerId) :
  isRunning w = true ->
  timersOwned w ->
  noLoopTimer (stop (run (Fire <$> cycles) w)).2
  /\ specStopQuiesces (run (Fire <$> cycles) w).
Proof.
  intros Hrun Hown. destruct (fires_keep_ownership cycles w Hown) as [Hown1 Hrun1].
  rewrite Hrun in Hrun1.
  pose proof (stop_cancels_all _ Hrun1 Hown1) as Hnone.
  split; [exact Hnone|]. intros ids l.
  rewrite (fires_without_loop_timer ids _ Hnone). reflexivity.
Qed.

Lemma stop_cancels_registered_loops_witness :
  isRunning runningWorld = true
  /\ executionCount <$> heap (run (Fire <$> [0%nat; 0%nat]) runningWorld) !! 0%nat
     = Some 2%nat
  /\ noLoopTimer (stop (run (Fire <$> [0%nat; 0%nat]) runningWorld)).2
  /\ specStopQuiesces (run (Fire <$> [0%nat; 0%nat]) runningWorld).
Proof.
  split; [vm_compute; reflexivity|]. split; [vm_compute; reflexivity|].
  apply stop_cancels_registered_loops.
  - vm_compute. reflexivity.
  - apply (bool_decide_unpack _). vm_compute. reflexivity.
Defined.

(** After [stop()], the timer of the replaced loop object is still pending
    and its next firing runs another cycle. *)
Example replaced_loop_keeps_running :
  isRunning replacedWorld = true
  /\ timers (stop replacedWorld).2 !! 0%nat = Some (LoopTimer 0%nat)
  /\ executionCount <$> heap (stop replacedWorld).2 !! 0%nat = Some 1%nat
  /\ executionCount <$> heap (run [Fire 0%nat] (stop replacedWorld).2) !! 0%nat
     = Some 2%nat.
Proof. vm_compute. repeat split; reflexivity. Qed.

(** C8, counterexample: [stop()] on a supervisor whose performance loop was
    registered again while running does not end the cycles of the replaced
    loop object. *)
Lemma stop_misses_replaced_loop : ~ specStopQuiesces replacedWorld.
Proof.
  intros H. specialize (H [0%nat] 0%nat). vm_compute in H. discriminate H.
Qed.

(** * Further properties *)

(** ** Invariants of the whole supervisor *)

Lemma maintains_try_catch {A} (I : world -> Prop) (m : M A) (h : exn -> M A) :
  maintains I m -> (forall e, maintains I (h e)) -> maintains I (try_catch m h).
Proof.
  intros Hm Hh w H. unfold try_catch. specialize (Hm w H).
  destruct (m w) as [[a|e] w1]; cbn [snd] in *; [exact Hm|apply Hh, Hm].
Qed.

Lemma maintains_modify (I : world -> Prop) (g : world -> world) :
  (forall w, I w -> I (g w)) -> maintains I (modify g).
Proof. intros Hg w H. apply Hg, H. Qed.

Lemma maintains_same {A} (I : world -> Prop) (m : M A) :
  (forall w, (m w).2 = w) -> maintains I m.
Proof. intros Hm w H. rewrite Hm. exact H. Qed.

Section WorldInvariant.
Variable I : world -> Prop.
Hypothesis I_heap : forall f w, I w -> I (set_heap f w).
Hypothesis I_activeLoops : forall f w, I w -> I (set_activeLoops f w).
Hypothesis I_thresholds : forall f w, I w -> I (set_performanceThresholds f w).
Hypothesis I_isRunning : forall b w, I w -> I (set_isRunning b w).
Hypothesis I_metricsInterval : forall i w, I w -> I (set_metricsInterval i w).
Hypothesis I_timers : forall f w, I w -> I (set_timers f w).
Hypothesis I_event : forall e w, I w -> I (add_event e w).
Hypothesis I_clock : forall w, I w -> I (tick_clock w).
Hypothesis I_random : forall w, I w -> I (tick_random w).
Hypothesis I_history : forall imp w, I w -> I (set_improvementHistory (pushImprovement imp) w).
Hypothesis I_strategy : forall s, maintains I (executeAdaptationStrategy s).
Hypothesis I_update : maintains I updateRealTimeMetrics.

Local Ltac maint :=
  repeat first
    [ apply maintains_bind; [|intros ?]
    | apply maintains_try_catch; [|intros ?]
    | apply maintains_ret
    | apply I_strategy
    | apply I_update
    | apply maintains_modify; intros ? ?; solve [eauto]
    | solve [apply maintains_same; reflexivity]
    | (intros ? ?; solve [eauto]) ].

Lemma inv_getMetricValue (n : string) : maintains I (getMetricValue n).
Proof. unfold getMetricValue. destruct (assoc_get _ _); maint. Qed.

Lemma inv_collectInto (names : list string) (metrics : metricsObj) :
  maintains I (collectInto getMetricValue names metrics).
Proof.
  revert metrics. induction names as [|n rest IH]; intros metrics; cbn [collectInto].
  - maint.
  - apply maintains_bind; [|intros ?; apply IH].
    apply maintains_try_catch; [|intros ?; maint].
    apply maintains_bind; [apply inv_getMetricValue|intros ?; maint].
Qed.

Lemma inv_runStrategies (strategies : list strategy) (count : nat) :
  maintains I (runStrategies executeAdaptationStrategy strategies count).
Proof.
  revert count. induction strategies as [|s rest IH]; intros count; cbn [runStrategies].
  - maint.
  - apply maintains_bind; [|intros ?; apply IH]. maint.
Qed.

Lemma inv_modifyLoop (l : loc) (f : loopObj -> loopObj) : maintains I (modifyLoop l f).
Proof. unfold modifyLoop. maint. Qed.

Lemma inv_now : maintains I now.
Proof. intros w H. apply I_clock, H. Qed.

Lemma inv_emit (e : event) : maintains I (emit e).
Proof. unfold emit. maint. Qed.

Lemma inv_recordImprovement (l : loc) (a : adaptation) (an : analysis) :
  maintains I (recordImprovement l a an).
Proof.
  unfold recordImprovement.
  apply maintains_bind; [apply inv_now|intros t].
  apply maintains_bind; [maint|intros L].
  apply maintains_modify. intros w H. apply (I_history _ w H).
Qed.

Lemma inv_applyAdaptation (l : loc) (a : adaptation) : maintains I (applyAdaptation l a).
Proof.
  unfold applyAdaptation, applyAdaptationWith.
  apply maintains_bind; [apply inv_runStrategies|intros n].
  apply maintains_bind; [apply inv_now|intros t].
  apply maintains_bind; [apply inv_modifyLoop|intros _]. maint.
Qed.

Lemma inv_executeLoop (l : loc) : maintains I (executeLoop l).
Proof.
  unfold executeLoop, executeLoopWith.
  apply maintains_bind; [apply inv_now|intros t0].
  apply maintains_try_catch;
    [|intros e; apply maintains_bind; [maint|intros ?; apply inv_emit]].
  unfold executeLoopTry.
  apply maintains_bind; [maint|intros L].
  apply maintains_bind; [apply inv_collectInto|intros metrics].
  apply maintains_bind; [apply inv_now|intros stamp].
  apply maintains_bind; [apply inv_modifyLoop|intros _].
  apply maintains_bind; [maint|intros ths].
  apply maintains_bind; [maint|intros an].
  apply maintains_bind; [maint|intros L1].
  apply maintains_bind.
  { destruct (needsAdaptation L1 an); [|maint].
    unfold generateAdaptation.
    apply maintains_bind; [apply maintains_bind; [apply inv_now|intros ?; maint]|intros a].
    apply maintains_bind; [apply inv_applyAdaptation|intros success].
    destruct success; [|maint].
    apply maintains_bind; [apply inv_modifyLoop|intros _]. apply inv_recordImprovement. }
  intros _. apply maintains_bind; [apply inv_now|intros finish].
  apply maintains_bind; [apply inv_modifyLoop|intros _].
  apply maintains_bind; [apply inv_modifyLoop|intros _].
  apply maintains_bind; [apply inv_now|intros t].
  apply maintains_bind; [apply inv_modifyLoop|intros _]. apply inv_emit.
Qed.

Lemma inv_createFeedbackLoop (name : string) (config : loopConfig) :
  maintains I (createFeedbackLoop name config).
Proof. unfold createFeedbackLoop. maint. Qed.

Lemma inv_setInterval (t : timer) : maintains I (setInterval t).
Proof. unfold setInterval. maint. Qed.

Lemma inv_startLoop (l : loc) : maintains I (startLoop l).
Proof.
  unfold startLoop. apply maintains_bind; [maint|intros L].
  destruct (l_state L); [maint|].
  apply maintains_bind; [apply inv_modifyLoop|intros _].
  apply maintains_bind; [apply inv_setInterval|intros id]. apply inv_modifyLoop.
Qed.

Lemma inv_stopLoop (l : loc) : maintains I (stopLoop l).
Proof.
  unfold stopLoop. apply maintains_bind; [maint|intros L].
  destruct (l_state L); [|maint].
  apply maintains_bind; [apply inv_modifyLoop|intros _].
  destruct (intervalId L); [|maint].
  apply maintains_bind; [unfold clearInterval; maint|intros _]. apply inv_modifyLoop.
Qed.

Lemma inv_start : maintains I start.
Proof.
  unfold start. apply maintains_bind; [maint|intros running].
  destruct running; [maint|].
  apply maintains_bind; [maint|intros _].
  apply maintains_bind; [maint|intros loops].
  apply maintains_bind; [apply maintains_forEach; intros x; apply inv_startLoop|intros _].
  apply maintains_bind; [|intros _; apply inv_emit].
  unfold startRealTimeMetrics.
  apply maintains_bind; [apply inv_setInterval|intros id]. maint.
Qed.

Lemma inv_stop : maintains I stop.
Proof.
  unfold stop. apply maintains_bind; [maint|intros running].
  destruct running; cbn [negb]; [|maint].
  apply maintains_bind; [maint|intros _].
  apply maintains_bind; [maint|intros loops].
  apply maintains_bind; [apply maintains_forEach; intros x; apply inv_stopLoop|intros _].
  apply inv_emit.
Qed.

Lemma inv_perform (c : call) : maintains I (perform c).
Proof.
  destruct c; cbn [perform].
  - apply maintains_bind; [apply inv_createFeedbackLoop|intros _; maint].
  - apply inv_start.
  - apply inv_stop.
  - apply inv_startLoop.
  - apply inv_stopLoop.
  - apply inv_executeLoop.
  - unfold fire. apply maintains_bind; [maint|intros [[l|]|]].
    + apply inv_executeLoop.
    + apply I_update.
    + maint.
Qed.

Lemma inv_run (cs : list call) (w : world) : I w -> I (run cs w).
Proof.
  revert w. induction cs as [|c rest IH]; intros w H; [exact H|].
  cbn [run foldl]. apply IH. apply inv_perform, H.
Qed.

Lemma inv_constructor (clock : nat -> Z) (random : nat -> Q) :
  I (emptyWorld clock random) -> I (constructor clock random).
Proof.
  intros H. unfold constructor. revert H. generalize (emptyWorld clock random).
  change (maintains I initializeDefaultLoops). unfold initializeDefaultLoops.
  repeat (apply maintains_bind; [apply inv_createFeedbackLoop|intros _]).
  maint.
Qed.

Lemma inv_reachable (w : world) :
  (forall clock random, I (emptyWorld clock random)) -> reachable w -> I w.
Proof.
  intros H0. induction 1 as [clock random|w c Hw IH].
  - apply inv_constructor, H0.
  - apply inv_perform, IH.
Qed.
End WorldInvariant.

(** ** The improvement ledger *)

Lemma lastN_length {A} (n : nat) (l : list A) : length (lastN n l) = Nat.min n (length l).
Proof. unfold lastN. rewrite length_drop. lia. Qed.

Lemma lastN_all {A} (n : nat) (l : list A) : (length l <= n)%nat -> lastN n l = l.
Proof. intros H. unfold lastN. replace (length l - n)%nat with 0%nat by lia. reflexivity. Qed.

Lemma lastN_suffix {A} (n : nat) (l : list A) : lastN n l `suffix_of` l.
Proof. unfold lastN. apply suffix_drop. Qed.

Lemma pushImprovement_lastN (imp : improvement) (h : list improvement) :
  pushImprovement imp h = lastN 100 (h ++ [imp]).
Proof.
  unfold pushImprovement. cbv zeta. destruct (100 <? length (h ++ [imp]))%nat eqn:E.
  - reflexivity.
  - apply Nat.ltb_ge in E. symmetry. apply lastN_all, E.
Qed.


Lemma countRecent_post (h : list improvement) (n : nat) (w : world) :
  post (countRecent h n) w (fun r w' =>
    exists k, r = Ok k /\ (n <= k <= n + length h)%nat
              /\ realTimeMetrics w' = realTimeMetrics w
              /\ improvementHistory w' = improvementHistory w).
Proof.
  revert n w. induction h as [|imp rest IH]; intros n w.
  - unfold post. cbn. exists n. repeat split; lia.
  - cbn [countRecent]. step.
    eapply post_mono; [apply IH|]. intros r w' (k & -> & Hk & Hrt & Hh).
    exists k. split; [reflexivity|]. cbn [length].
    split; [destruct (_ <? _)%Z; lia|]. split; assumption.
Qed.

Lemma clamp_upper (lo hi x : Q) : lo <= hi -> Qmax lo (Qmin hi x) <= hi.
Proof. intros H. apply Q.max_lub; [exact H|apply Q.le_min_l]. Qed.

Lemma updateRealTimeMetrics_post (w : world) :
  post updateRealTimeMetrics w (fun r w' =>
    r = Ok tt
    /\ improvementHistory w' = improvementHistory w
    /\ gaugesClamped (realTimeMetrics w')
    /\ (adaptationRate (realTimeMetrics w') <= length (improvementHistory w))%nat).
Proof.
  unfold updateRealTimeMetrics, calculateAdaptationRate.
  step. step. step. step. step. step.
  apply post_bind. step.
  eapply post_mono; [apply countRecent_post|].
  intros r w1 (k & -> & Hk & Hrt & Hh). cbv beta iota.
  step. unfold post. cbn [modify fst snd].
  split; [reflexivity|]. split; [exact Hh|].
  cbn [realTimeMetrics set_realTimeMetrics tick_random responseTime throughput errorRate
       learningVelocity adaptationRate].
  split; [|cbn in Hk; lia].
  unfold gaugesClamped.
  cbn [responseTime throughput errorRate learningVelocity].
  repeat split;
    match goal with
    | |- ?lo <= Qmax ?lo _ => apply Q.le_max_l
    | |- Qmax ?lo (Qmin ?hi ?x) <= _ =>
        pose proof (clamp_upper lo hi x ltac:(lra)); lra
    end.
Qed.

Lemma historyBounded_reachable (w : world) : reachable w -> historyBounded w.
Proof.
  apply inv_reachable; try (intros; assumption).
  - intros imp w0 _. unfold historyBounded. cbn [improvementHistory set_improvementHistory].
    rewrite pushImprovement_lastN, lastN_length. lia.
  - intros s w0 H. unfold historyBounded in *.
    unfold executeAdaptationStrategy. destruct (assoc_get _ _); exact H.
  - intros w0 H. unfold historyBounded in *.
    destruct (updateRealTimeMetrics_post w0) as (_ & Hh & _). rewrite Hh. exact H.
  - intros clock random. unfold historyBounded. cbn. lia.
Qed.

(** X1. In every state that the supervisor can reach from its construction
    the improvement ledger holds at most 100 entries. *)
Theorem improvementHistory_at_most_100 (w : world) :
  reachable w -> historyBounded w.
Proof. apply historyBounded_reachable. Qed.

Lemma improvementHistory_at_most_100_witness :
  historyBounded (run [Start; Fire 0%nat; Fire 1%nat] (constructor steadyClock midRandom)).
Proof.
  apply improvementHistory_at_most_100.
  unfold run. cbn [foldl]. apply reach_call, reach_call, reach_call, reach_new.
Defined.


(** X3. The callback of the metrics timer leaves the response time in
    [100, 5000], the throughput in [1, 100], the error rate in [0, 0.2]
    and the learning velocity in [0.1, 1], whatever the gauges and the
    random numbers were; it leaves the ledger as it was and sets the
    adaptation rate to a count of ledger entries. *)
Theorem updateRealTimeMetrics_clamps (w : world) :
  (updateRealTimeMetrics w).1 = Ok tt
  /\ gaugesClamped (realTimeMetrics (updateRealTimeMetrics w).2)
  /\ (adaptationRate (realTimeMetrics (updateRealTimeMetrics w).2)
      <= length (improvementHistory w))%nat
  /\ improvementHistory (updateRealTimeMetrics w).2 = improvementHistory w
  /\ heap (updateRealTimeMetrics w).2 = heap w
  /\ timers (updateRealTimeMetrics w).2 = timers w.
Proof.
  destruct (updateRealTimeMetrics_post w) as (Hok & Hh & Hc & Hr).
  destruct (quiet_updateRealTimeMetrics w) as (Hheap & Ht & _).
  repeat split; try assumption; apply Hc.
Qed.

(** ** Samples are not negative *)

Lemma assoc_get_In {K V} `{EqDecision K} (o : list (K * V)) (k : K) (v : V) :
  assoc_get o k = Some v -> In (k, v) o.
Proof.
  induction o as [|[k0 v0] rest IH]; cbn [assoc_get]; [discriminate|].
  destruct (decide (k0 = k)) as [->|Hne].
  - intros [= ->]. left. reflexivity.
  - intros H. right. apply IH, H.
Qed.

Lemma gaugesNonneg_strategy (s : strategy) : maintains gaugesNonneg (executeAdaptationStrategy s).
Proof.
  intros w (Hr & Ht & He & Hl). unfold executeAdaptationStrategy.
  destruct (assoc_get strategyExecutors (s_name s)) as [f|] eqn:E; [|repeat split; assumption].
  apply assoc_get_In in E. cbn [bind modify ret snd]. unfold gaugesNonneg.
  cbn [realTimeMetrics set_realTimeMetrics].
  cbn [strategyExecutors In] in E.
  repeat (destruct E as [E|E];
          [injection E as _ <-;
           cbn [responseTime throughput errorRate learningVelocity];
           repeat split; lra|]).
  destruct E.
Qed.

Lemma gaugesNonneg_reachable (w : world) : reachable w -> gaugesNonneg w.
Proof.
  apply inv_reachable; try (intros; assumption).
  - apply gaugesNonneg_strategy.
  - intros w0 _. destruct (updateRealTimeMetrics_post w0) as (_ & _ & Hc & _).
    destruct Hc as ((?&?) & (?&?) & (?&?) & (?&?)). repeat split; lra.
  - intros clock random. repeat split; cbn; lra.
Qed.

Lemma getMetricValue_world (n : string) (w : world) :
  realTimeMetrics (getMetricValue n w).2 = realTimeMetrics w
  /\ random (getMetricValue n w).2 = random w.
Proof. unfold getMetricValue. destruct (assoc_get _ _); split; reflexivity. Qed.

Lemma getMetricValue_nonneg (n : string) (w : world) (v : Q) :
  gaugesNonneg w -> (forall k, 0 <= random w k) ->
  (getMetricValue n w).1 = Ok v -> 0 <= v.
Proof.
  intros (Hr & Ht & He & Hl) Hrand. unfold getMetricValue.
  destruct (assoc_get metricCalculators n) as [f|] eqn:E; [|discriminate].
  apply assoc_get_In in E. cbn [bind gets mathRandom ret fst snd realTimeMetrics tick_random].
  intros [= <-]. specialize (Hrand (randomReads w)).
  cbn [metricCalculators In] in E.
  repeat (destruct E as [E|E];
          [injection E as _ <-; first [apply Q.le_max_l|lra]|]).
  destruct E.
Qed.

Lemma elem_of_assoc_set {K V} `{EqDecision K} (o : list (K * V)) (k : K) (v : V)
    (e : K * V) :
  e ∈ assoc_set o k v -> e = (k, v) \/ e ∈ o.
Proof.
  induction o as [|[k0 v0] rest IH]; cbn [assoc_set].
  - intros H. apply list_elem_of_singleton in H. left. exact H.
  - destruct (decide (k0 = k)) as [->|Hne]; intros H; apply elem_of_cons in H as [H|H].
    + left. exact H.
    + right. apply elem_of_cons. right. exact H.
    + right. apply elem_of_cons. left. exact H.
    + destruct (IH H) as [?|?]; [left; assumption|right; apply elem_of_cons; right; assumption].
Qed.

Lemma collectInto_nonneg (names : list string) (metrics : metricsObj) (w : world)
    (obj : metricsObj) :
  gaugesNonneg w -> (forall k, 0 <= random w k) -> samplesNonneg metrics ->
  (collectInto getMetricValue names metrics w).1 = Ok obj -> samplesNonneg obj.
Proof.
  revert metrics w. induction names as [|n rest IH]; intros metrics w Hg Hrand Hm.
  - cbn. intros [= <-]. exact Hm.
  - cbn [collectInto]. unfold bind at 1, try_catch, bind, ret.
    pose proof (getMetricValue_nonneg n w) as Hv.
    destruct (getMetricValue_world n w) as [Hrt Hor].
    destruct (getMetricValue n w) as [[x|e] w1]; cbn [fst snd] in *;
      (apply IH;
       [destruct Hg as (?&?&?&?); unfold gaugesNonneg; rewrite Hrt; auto
       |intros k; rewrite Hor; apply Hrand
       |intros n' v' Hin; apply elem_of_assoc_set in Hin as [Heq|Hin];
        [injection Heq as -> E; try discriminate E|eapply Hm, Hin]]).
    subst v'. apply Hv; auto.
Qed.

(** X4. In every state that the supervisor can reach, when [Math.random]
    never returns a negative number: the gauges are not negative, no sample
    that [collectMetrics] collects is negative, and the analysis of the
    collected samples against any threshold table without a negative limit
    has its score in [0, 1]. *)
Theorem collected_samples_score_in_unit (w : world) (names : list string)
    (ths : gmap string Q) (metrics : metricsObj) :
  reachable w ->
  (forall k, 0 <= random w k) ->
  map_Forall (fun _ l => 0 <= l) ths ->
  (collectMetrics names w).1 = Ok metrics ->
  gaugesNonneg w
  /\ samplesNonneg metrics
  /\ exists a, analyzeMetrics (Some ths) metrics = Ok a /\ inUnitInterval (score a).
Proof.
  intros Hw Hrand Hths Hcollect.
  pose proof (gaugesNonneg_reachable w Hw) as Hg.
  assert (Hs : samplesNonneg metrics).
  { eapply (collectInto_nonneg names [] w); try eassumption.
    intros n v Hin. apply elem_of_nil in Hin. contradiction. }
  split; [exact Hg|]. split; [exact Hs|].
  eexists. split; [apply analyzeMetrics_matched|]. cbn [score].
  apply num_mean_in_unit. unfold metricScores. apply Forall_forall. intros x Hx.
  apply list_elem_of_In, in_map_iff in Hx as ([[n v] l] & <- & Hm).
  apply list_elem_of_In in Hm. cbn [fst snd].
  unfold matched in Hm. apply list_elem_of_omap in Hm as ([n' [v'|]] & Hin & Hsome);
    cbn in Hsome; [|discriminate].
  destruct (ths !! n') as [l'|] eqn:El; cbn in Hsome; [|discriminate].
  injection Hsome as <- <- <-.
  apply scoreMetric_in_unit; [eapply Hs, Hin|exact (Hths _ _ El)].
Qed.

Lemma collected_samples_score_in_unit_witness :
  exists metrics a,
    (collectMetrics ["response_time"; "throughput"; "error_rate"]%string runningWorld).1
      = Ok metrics
    /\ samplesNonneg metrics
    /\ analyzeMetrics (Some performanceThresholdTable) metrics = Ok a
    /\ inUnitInterval (score a).
Proof.
  destruct (collectMetrics ["response_time"; "throughput"; "error_rate"]%string runningWorld).1
    as [metrics|e] eqn:Hc; [|vm_compute in Hc; discriminate].
  destruct (collected_samples_score_in_unit runningWorld
              ["response_time"; "throughput"; "error_rate"]%string
              performanceThresholdTable metrics)
    as (_ & Hs & a & Ha & Hu).
  - unfold runningWorld, run. cbn [foldl]. apply reach_call, reach_new.
  - intros k. vm_compute. discriminate.
  - intros k l Hl. unfold performanceThresholdTable in Hl.
    apply elem_of_list_to_map_2, list_elem_of_In in Hl. cbn [In] in Hl.
    destruct Hl as [[= _ <-]|[[= _ <-]|[[= _ <-]|[]]]]; discriminate.
  - exact Hc.
  - exists metrics, a. auto.
Defined.

(** ** The collected metrics object *)



Lemma collectInto_known (names : list string) (metrics : metricsObj) (w : world)
    (obj : metricsObj) (n : string) :
  is_Some (assoc_get metricCalculators n) ->
  n ∈ names \/ (exists v, assoc_get metrics n = Some (Some v)) ->
  (collectInto getMetricValue names metrics w).1 = Ok obj ->
  exists v, assoc_get obj n = Some (Some v).
Proof.
  intros [f Hf]. revert metrics w. induction names as [|n0 rest IH]; intros metrics w Hcase.
  - cbn. intros [= <-]. destruct Hcase as [H|H]; [apply elem_of_nil in H; contradiction|exact H].
  - cbn [collectInto]. unfold bind at 1.
    destruct (sample_or_null getMetricValue n0 w) as (v & Hv & _ & Hret).
    destruct (try_catch _ _ w) as [r w1]. cbn [fst] in Hv. subst r.
    apply IH. rewrite assoc_get_set. destruct (decide (n0 = n)) as [->|Hne].
    + right. unfold getMetricValue in Hret. rewrite Hf in Hret.
      eexists. f_equal. apply Hret. reflexivity.
    + destruct Hcase as [Hin|Hget]; [|right; exact Hget].
      apply elem_of_cons in Hin as [->|Hin]; [contradiction|left; exact Hin].
Qed.



(** ** Applying and generating adaptations *)

Lemma half_lt_ratio (k t : nat) :
  (0 < t)%nat -> (0.5 < of_nat k / of_nat t <-> (t < 2 * k)%nat).
Proof.
  intros Ht. pose proof (of_nat_pos t Ht) as Hpos.
  assert (Hlin : 0.5 * of_nat t < of_nat k <-> (t < 2 * k)%nat).
  { rewrite Nat2Z.inj_lt, Zlt_Qlt, Nat2Z.inj_mul, inject_Z_mult.
    change (inject_Z (Z.of_nat 2)) with 2. fold (of_nat t). fold (of_nat k).
    clear Ht Hpos. generalize (of_nat t) (of_nat k). intros x y. split; intros H; lra. }
  rewrite <- Hlin. split; intros H.
  - apply (Qmult_lt_r _ _ (of_nat t) Hpos) in H.
    assert (E : of_nat k / of_nat t * of_nat t == of_nat k) by (field; apply Qpos_neq0, Hpos).
    rewrite E in H. exact H.
  - apply Qlt_shift_div_l; assumption.
Qed.

Lemma executeAdaptationStrategy_result (s : strategy) (w : world) :
  (executeAdaptationStrategy s w).1 = Ok (implemented s).
Proof.
  unfold executeAdaptationStrategy, implemented.
  destruct (assoc_get strategyExecutors (s_name s)) as [f|]; reflexivity.
Qed.

Lemma runStrategies_class (strategies : list strategy) (count : nat) (w : world) :
  (runStrategies executeAdaptationStrategy strategies count w).1
  = Ok (count + countImplemented strategies)%nat.
Proof.
  revert count w. induction strategies as [|s rest IH]; intros count w.
  - cbn. f_equal. unfold countImplemented. cbn. lia.
  - pose proof (executeAdaptationStrategy_result s w) as Hs.
    destruct (executeAdaptationStrategy s w) as [r w1] eqn:E. cbn [fst] in Hs. subst r.
    rewrite (runStrategies_success _ _ _ _ _ _ _ E), IH. f_equal.
    unfold countImplemented. rewrite filter_cons.
    destruct (implemented s); destruct (decide _); try congruence; cbn [length]; lia.
Qed.

(** What [applyAdaptation] returns and records, by the number of the
    strategies that are implemented. *)
Lemma applyAdaptation_attempt (l : loc) (a : adaptation) (w : world) :
  exists b att,
    (applyAdaptation l a w).1 = Ok b
    /\ (b = true <-> (length (a_strategies a) < 2 * countImplemented (a_strategies a))%nat)
    /\ adaptations <$> heap (applyAdaptation l a w).2 !! l
       = (fun L => adaptations L ++ [att]) <$> heap w !! l
    /\ at_adaptation att = a
    /\ at_strategiesExecuted att = countImplemented (a_strategies a)
    /\ at_totalStrategies att = length (a_strategies a).
Proof.
  unfold applyAdaptation, applyAdaptationWith.
  pose proof (runStrategies_class (a_strategies a) 0 w) as Hrun.
  destruct (quiet_runStrategies executeAdaptationStrategy (a_strategies a) 0
              quiet_executeAdaptationStrategy w) as [Hheap _].
  rewrite (bind_ok _ _ w _ Hrun). cbn [Nat.add].
  set (w1 := (runStrategies executeAdaptationStrategy (a_strategies a) 0 w).2) in *.
  set (k := countImplemented (a_strategies a)).
  set (t := length (a_strategies a)).
  cbn [bind now modifyLoop modify ret fst snd heap set_heap tick_clock].
  eexists _, (mkAttempt a _ _ k t). split; [reflexivity|]. split.
  - destruct (0 <? t)%nat eqn:Et.
    + apply Nat.ltb_lt in Et. rewrite Qltb_lt. apply half_lt_ratio, Et.
    + apply Nat.ltb_ge in Et. split; [discriminate|].
      assert (Hk : (k <= t)%nat) by (subst k t; unfold countImplemented; apply length_filter).
      lia.
  - split; [|repeat split].
    rewrite lookup_alter_eq, Hheap. destruct (heap w !! l); reflexivity.
Qed.


Lemma general_strategies_unimplemented (adaptationType : string) (a : analysis) :
  countImplemented (generateGeneralStrategies adaptationType a) = 0%nat.
Proof.
  unfold generateGeneralStrategies.
  destruct (assoc_get generalStrategies adaptationType) as [names|] eqn:E; [|reflexivity].
  apply assoc_get_In in E. cbn [generalStrategies In] in E.
  repeat (destruct E as [E|E]; [injection E as _ <-; reflexivity|]).
  destruct E.
Qed.


(** ** Starting *)

Lemma startLoop_world (l : loc) (w : world) :
  (startLoop l w).1 = Ok tt
  /\ (startLoop l w).2 =
     match l_state (default blankLoop (heap w !! l)) with
     | active => w
     | inactive =>
         set_heap (alter (set_intervalId (Some (fresh (dom (timers w))))) l)
           (set_timers (insert (fresh (dom (timers w))) (LoopTimer l))
              (set_heap (alter (set_l_state active) l) w))
     end.
Proof.
  unfold startLoop, bind, getLoop, gets, setInterval, bind, gets.
  destruct (l_state (default blankLoop (heap w !! l))); split; reflexivity.
Qed.

Lemma fresh_timer_free (w : world) : timers w !! fresh (dom (timers w)) = None.
Proof. apply not_elem_of_dom, is_fresh. Qed.

(** One [startLoop] on an allocated loop object. *)
Lemma startLoop_schedules (l : loc) (w : world) (L : loopObj) :
  heap w !! l = Some L ->
  l_state L = inactive \/ scheduled w l ->
  timersHeld w ->
  scheduled (startLoop l w).2 l
  /\ (forall l', scheduled w l' -> scheduled (startLoop l w).2 l')
  /\ timersHeld (startLoop l w).2
  /\ (forall id l', timers (startLoop l w).2 !! id = Some (LoopTimer l') ->
        timers w !! id = Some (LoopTimer l') \/ l' = l)
  /\ (forall l' L', heap w !! l' = Some L' -> l_state L' = inactive -> l' <> l ->
        heap (startLoop l w).2 !! l' = Some L')
  /\ activeLoops (startLoop l w).2 = activeLoops w
  /\ isRunning (startLoop l w).2 = isRunning w
  /\ (forall id, timers w !! id = Some MetricsTimer ->
        timers (startLoop l w).2 !! id = Some MetricsTimer).
Proof.
  intros HL Hcase Hheld. rewrite (proj2 (startLoop_world l w)), HL. cbn [from_option id].
  destruct (l_state L) eqn:Hstate.
  - destruct Hcase as [Habs|Hs]; [discriminate|].
    repeat split; auto.
  - clear Hcase. set (id := fresh (dom (timers w))).
    pose proof (fresh_timer_free w) as Hfree. fold id in Hfree.
    unfold scheduled, timersHeld.
    cbn [heap timers activeLoops isRunning set_heap set_timers].
    split; [|split; [|split; [|split; [|split; [|split; [|split]]]]]]; try reflexivity.
    + exists (set_intervalId (Some id) (set_l_state active L)), id.
      rewrite !lookup_alter_eq, HL, lookup_insert_eq. repeat split.
    + intros l' (L' & id' & HL' & Hact & Hid & Ht).
      assert (Hne : l <> l') by (intros <-; congruence).
      exists L', id'. rewrite !lookup_alter_ne by exact Hne.
      rewrite lookup_insert_ne by congruence. auto.
    + intros id' l' Hlook. destruct (decide (id = id')) as [<-|Hne].
      * rewrite lookup_insert_eq in Hlook. injection Hlook as <-.
        exists (set_intervalId (Some id) (set_l_state active L)).
        rewrite !lookup_alter_eq, HL. repeat split.
      * rewrite lookup_insert_ne in Hlook by exact Hne.
        destruct (Hheld id' l' Hlook) as (L' & HL' & Hact & Hid).
        assert (Hnel : l <> l') by (intros <-; congruence).
        exists L'. rewrite !lookup_alter_ne by exact Hnel. auto.
    + intros id' l' Hlook. destruct (decide (id = id')) as [<-|Hne].
      * rewrite lookup_insert_eq in Hlook. injection Hlook as <-. right. reflexivity.
      * rewrite lookup_insert_ne in Hlook by exact Hne. left. exact Hlook.
    + intros l' L' HL' _ Hne. rewrite !lookup_alter_ne by congruence. exact HL'.
    + intros id' Hm. rewrite lookup_insert_ne by congruence. exact Hm.
Qed.

Lemma forEach_startLoop_ok (loops : list (string * loc)) (w : world) :
  (forEach (fun e => startLoop e.2) loops w).1 = Ok tt.
Proof.
  revert w. induction loops as [|e rest IH]; intros w; [reflexivity|].
  cbn [forEach]. rewrite (bind_ok _ _ w tt (proj1 (startLoop_world e.2 w))). apply IH.
Qed.

Lemma forEach_startLoop_schedules (loops : list (string * loc)) (w : world) :
  (forall e, e ∈ loops ->
     exists L, heap w !! e.2 = Some L /\ (l_state L = inactive \/ scheduled w e.2)) ->
  timersHeld w ->
  let w' := (forEach (fun e => startLoop e.2) loops w).2 in
  (forall e, e ∈ loops -> scheduled w' e.2)
  /\ (forall l, scheduled w l -> scheduled w' l)
  /\ timersHeld w'
  /\ (forall id l, timers w' !! id = Some (LoopTimer l) ->
        timers w !! id = Some (LoopTimer l) \/ l ∈ loops.*2)
  /\ activeLoops w' = activeLoops w
  /\ isRunning w' = isRunning w
  /\ (forall id, timers w !! id = Some MetricsTimer -> timers w' !! id = Some MetricsTimer).
Proof.
  revert w. induction loops as [|e rest IH]; intros w Hall Hheld w'; subst w'.
  - cbn. repeat split; auto. intros e He. apply elem_of_nil in He. contradiction.
  - cbn [forEach]. rewrite (bind_ok _ _ w tt (proj1 (startLoop_world e.2 w))).
    destruct (Hall e (list_elem_of_here _ _)) as (L & HL & Hcase).
    destruct (startLoop_schedules e.2 w L HL Hcase Hheld)
      as (Hsch & Hkeep & Hheld1 & Hnew & Hidle & Hreg & Hrun & Hmet).
    set (w1 := (startLoop e.2 w).2) in *.
    assert (Hall1 : forall e', e' ∈ rest ->
              exists L', heap w1 !! e'.2 = Some L'
                         /\ (l_state L' = inactive \/ scheduled w1 e'.2)).
    { intros e' He'. destruct (Hall e' (list_elem_of_further _ _ _ He')) as (L' & HL' & Hc').
      destruct (decide (e'.2 = e.2)) as [Heq|Hne].
      - rewrite Heq. destruct Hsch as (L1 & id1 & HL1 & ?). exists L1.
        split; [exact HL1|]. right. exists L1, id1. auto.
      - destruct Hc' as [Hin|Hs].
        + exists L'. split; [apply Hidle; assumption|left; exact Hin].
        + destruct (Hkeep _ Hs) as (L1 & id1 & HL1 & ?). exists L1.
          split; [exact HL1|]. right. exists L1, id1. auto. }
    destruct (IH w1 Hall1 Hheld1) as (Hs2 & Hk2 & Hh2 & Hn2 & Hr2 & Hi2 & Hm2).
    split; [|split; [|split; [|split; [|split; [|split]]]]].
    + intros e' He'. apply elem_of_cons in He' as [->|He']; [apply Hk2, Hsch|apply Hs2, He'].
    + intros l Hl. apply Hk2, Hkeep, Hl.
    + exact Hh2.
    + intros id l Hlook. cbn [fmap list_fmap]. destruct (Hn2 id l Hlook) as [H1|H1].
      * destruct (Hnew id l H1) as [H0 | ->]; [left; exact H0|right; apply list_elem_of_here].
      * right. apply list_elem_of_further. exact H1.
    + congruence.
    + congruence.
    + intros id Hm. apply Hm2, Hmet, Hm.
Qed.

Lemma start_world (w : world) :
  isRunning w = false ->
  (start w).1 = Ok tt
  /\ (start w).2
     = let w2 := (forEach (fun e => startLoop e.2) (activeLoops w) (set_isRunning true w)).2 in
       add_event started
         (set_metricsInterval (Some (fresh (dom (timers w2))))
            (set_timers (insert (fresh (dom (timers w2))) MetricsTimer) w2)).
Proof.
  intros Hrun. unfold start.
  rewrite (bind_ok _ _ w false) by (cbn; rewrite Hrun; reflexivity).
  cbn [gets snd].
  rewrite (bind_ok _ _ w tt) by reflexivity. cbn [modify snd].
  rewrite (bind_ok _ _ _ (activeLoops w)) by reflexivity. cbn [gets snd].
  rewrite (bind_ok _ _ _ tt (forEach_startLoop_ok _ _)).
  split; reflexivity.
Qed.

Lemma ownsTimer_true (w : world) (id : timerId) (l : loc) (L : loopObj) :
  heap w !! l = Some L -> l_state L = active -> intervalId L = Some id ->
  l ∈ (activeLoops w).*2 ->
  ownsTimer w id (LoopTimer l) = true.
Proof.
  intros HL Hact Hid Hreg. cbn [ownsTimer]. rewrite HL.
  rewrite !andb_true_iff, !bool_decide_eq_true. auto.
Qed.

(** X8. [start()] on a supervisor that is not running, whose registered
    loop objects are idle and which has no loop timer pending (as after
    construction, after registrations, or after a [stop()]): afterwards the
    supervisor is running, every registered loop is active and holds the
    handle of a pending timer that runs its cycles, every pending loop
    timer belongs to a registered loop, and one more timer, the metrics
    timer, is pending; the registry is unchanged. *)
Theorem start_schedules_every_loop (w : world) :
  isRunning w = false ->
  registeredIdle w ->
  noLoopTimer w ->
  (start w).1 = Ok tt
  /\ isRunning (start w).2 = true
  /\ activeLoops (start w).2 = activeLoops w
  /\ (forall e, e ∈ activeLoops w -> scheduled (start w).2 e.2)
  /\ timersOwned (start w).2
  /\ exists id, metricsInterval (start w).2 = Some id
                /\ timers w !! id = None
                /\ timers (start w).2 !! id = Some MetricsTimer.
Proof.
  intros Hrun Hidle Hnone. destruct (start_world w Hrun) as [Hok Hw]. rewrite Hw. clear Hw.
  split; [exact Hok|].
  assert (Hheld0 : timersHeld (set_isRunning true w)).
  { intros id l Hlook. exfalso. exact (Hnone id l Hlook). }
  assert (Hall : forall e, e ∈ activeLoops w ->
            exists L, heap (set_isRunning true w) !! e.2 = Some L
                      /\ (l_state L = inactive \/ scheduled (set_isRunning true w) e.2)).
  { intros e He. destruct (Hidle e He) as (L & HL & Hin & _). exists L. auto. }
  destruct (forEach_startLoop_schedules (activeLoops w) (set_isRunning true w) Hall Hheld0)
    as (Hsch & _ & Hheld & Hnew & Hreg & Hrun2 & _).
  set (w2 := (forEach (fun e => startLoop e.2) (activeLoops w) (set_isRunning true w)).2) in *.
  cbv zeta. set (idm := fresh (dom (timers w2))).
  pose proof (fresh_timer_free w2) as Hfree. fold idm in Hfree.
  cbn [isRunning activeLoops add_event set_metricsInterval set_timers metricsInterval timers].
  split; [exact Hrun2|]. split; [exact Hreg|]. split; [|split].
  - intros e He. destruct (Hsch e He) as (L & id & HL & Hact & Hid & Ht).
    exists L, id. cbn [heap timers add_event set_metricsInterval set_timers].
    rewrite lookup_insert_ne by congruence. auto.
  - intros id t Hlook. cbn [timers add_event set_metricsInterval set_timers] in Hlook.
    destruct t as [l|]; [|reflexivity].
    destruct (decide (idm = id)) as [<-|Hne];
      [rewrite lookup_insert_eq in Hlook; discriminate|].
    rewrite lookup_insert_ne in Hlook by exact Hne.
    destruct (Hheld id l Hlook) as (L & HL & Hact & Hid).
    apply (ownsTimer_true _ id l L); auto.
    cbn [activeLoops add_event set_metricsInterval set_timers]. rewrite Hreg.
    destruct (Hnew id l Hlook) as [Hold|Hin]; [|exact Hin].
    exfalso. exact (Hnone id l Hold).
  - exists idm. split; [reflexivity|]. split; [|apply lookup_insert_eq].
    destruct (timers w !! idm) as [[l|]|] eqn:E; [exfalso; exact (Hnone idm l E)| |reflexivity].
    exfalso.
    destruct (forEach_startLoop_schedules (activeLoops w) (set_isRunning true w) Hall Hheld0)
      as (_ & _ & _ & _ & _ & _ & Hmet).
    fold w2 in Hmet. rewrite (Hmet idm E) in Hfree. discriminate.
Qed.

(** ** Starting and stopping again *)

Lemma stopLoop_idle (l : loc) (w : world) :
  idleOrRunning w l ->
  idleAt (stopLoop l w).2 l
  /\ (forall l', l' <> l -> heap (stopLoop l w).2 !! l' = heap w !! l')
  /\ (forall l', idleAt w l' -> idleAt (stopLoop l w).2 l')
  /\ (forall id, timers w !! id = Some MetricsTimer ->
        timers (stopLoop l w).2 !! id = Some MetricsTimer)
  /\ timers (stopLoop l w).2 ⊆ timers w
  /\ activeLoops (stopLoop l w).2 = activeLoops w
  /\ isRunning (stopLoop l w).2 = isRunning w
  /\ metricsInterval (stopLoop l w).2 = metricsInterval w.
Proof.
  intros Hcase. rewrite (proj2 (stopLoop_world l w)).
  destruct Hcase as [(L & HL & Hin & Hnone)|(L & id & HL & Hact & Hid & Hnm)];
    rewrite HL.
  - rewrite Hin. repeat split; auto. exists L. auto.
  - rewrite Hact, Hid. unfold idleAt.
    cbn [heap timers activeLoops isRunning metricsInterval set_heap set_timers].
    split; [|split; [|split; [|split; [|split; [|repeat split]]]]].
    + eexists. rewrite !lookup_alter_eq, HL. cbn. repeat split.
    + intros l' Hne. rewrite !lookup_alter_ne by congruence. reflexivity.
    + intros l' (L' & HL' & Hin' & Hnone').
      assert (Hne : l <> l') by (intros <-; congruence).
      exists L'. rewrite !lookup_alter_ne by exact Hne. auto.
    + intros id' Hm. rewrite lookup_delete_ne by congruence. exact Hm.
    + apply delete_subseteq.
Qed.

Lemma idleOrRunning_stopLoop (l l' : loc) (w : world) :
  idleOrRunning w l -> idleOrRunning w l' -> idleOrRunning (stopLoop l w).2 l'.
Proof.
  intros Hl Hl'. destruct (stopLoop_idle l w Hl) as (Hidle & Hother & Hkeep & _ & Hsub & _).
  destruct (decide (l' = l)) as [->|Hne]; [left; exact Hidle|].
  destruct Hl' as [Hi|(L & id & HL & Hact & Hid & Hnm)]; [left; apply Hkeep, Hi|].
  right. exists L, id. rewrite (Hother l' Hne). repeat split; try assumption.
  intros Hm. apply Hnm. eapply lookup_weaken; eassumption.
Qed.

Lemma forEach_stopLoop_idle (loops : list (string * loc)) (w : world) :
  (forall e, e ∈ loops -> idleOrRunning w e.2) ->
  let w' := (forEach (fun e => stopLoop e.2) loops w).2 in
  (forall e, e ∈ loops -> idleAt w' e.2)
  /\ (forall l, idleAt w l -> idleAt w' l)
  /\ (forall id, timers w !! id = Some MetricsTimer -> timers w' !! id = Some MetricsTimer)
  /\ activeLoops w' = activeLoops w
  /\ isRunning w' = isRunning w
  /\ metricsInterval w' = metricsInterval w.
Proof.
  revert w. induction loops as [|e rest IH]; intros w Hall w'; subst w'.
  - cbn. repeat split; auto. intros e He. apply elem_of_nil in He. contradiction.
  - cbn [forEach]. rewrite (bind_ok _ _ w tt (proj1 (stopLoop_world e.2 w))).
    pose proof (Hall e (list_elem_of_here _ _)) as He.
    destruct (stopLoop_idle e.2 w He) as (Hidle & _ & Hkeep & Hmet & _ & Hreg & Hrun & Hmi).
    assert (Hall1 : forall e', e' ∈ rest -> idleOrRunning (stopLoop e.2 w).2 e'.2).
    { intros e' He'. apply idleOrRunning_stopLoop; [exact He|].
      apply Hall, list_elem_of_further, He'. }
    destruct (IH _ Hall1) as (Hi2 & Hk2 & Hm2 & Hr2 & Hrun2 & Hmi2).
    split; [|split; [|split; [|repeat split; congruence]]].
    + intros e' He'. apply elem_of_cons in He' as [->|He']; [apply Hk2, Hidle|apply Hi2, He'].
    + intros l Hl. apply Hk2, Hkeep, Hl.
    + intros id Hm. apply Hm2, Hmet, Hm.
Qed.


(** ** Instances of the adaptation and the start properties *)


(** ** The loop objects, the registry and the timers *)

Lemma consistent_same (w w' : world) :
  heap w' = heap w -> timers w' = timers w -> activeLoops w' = activeLoops w ->
  loopsConsistent w -> loopsConsistent w'.
Proof.
  unfold loopsConsistent, idleAt, scheduled. intros -> -> ->. auto.
Qed.

Lemma consistent_quiet {A} (m : M A) : quiet m -> maintains loopsConsistent m.
Proof.
  intros Hq w H. destruct (Hq w) as (Hh & Ht & Ha & _).
  apply (consistent_same w); assumption.
Qed.

Lemma consistent_updates (l : loc) (F : loopObj -> loopObj) (w w' : world) :
  updates l F w w' -> (forall L, sameIdentity L (F L)) ->
  loopsConsistent w -> loopsConsistent w'.
Proof.
  intros [Hh (Ht & Ha & _)] HF [Hreg Hall].
  unfold loopsConsistent, idleAt, scheduled. rewrite Hh, Ht, Ha. split.
  - intros e He. destruct (decide (l = e.2)) as [->|Hne].
    + rewrite lookup_alter_eq. apply fmap_is_Some, Hreg, He.
    + rewrite lookup_alter_ne by exact Hne. apply Hreg, He.
  - intros l' L' HL'. destruct (decide (l = l')) as [<-|Hne].
    + rewrite lookup_alter_eq in HL'. rewrite lookup_alter_eq.
      destruct (heap w !! l) as [L|] eqn:HL; [|discriminate].
      cbn in HL'. injection HL' as <-. destruct (HF L) as (_ & _ & Hs & Hi).
      destruct (Hall l L HL) as [(L0 & HL0 & Hin & Hno)|(L0 & id & HL0 & Hact & Hid & Hlook)];
        rewrite HL in HL0; injection HL0 as <-.
      * left. exists (F L). cbn. rewrite Hs, Hi. auto.
      * right. exists (F L), id. cbn. rewrite Hs, Hi. auto.
    + rewrite lookup_alter_ne in HL' by exact Hne. rewrite lookup_alter_ne by exact Hne.
      apply (Hall l' L' HL').
Qed.

Lemma consistent_executeLoop (l : loc) : maintains loopsConsistent (executeLoop l).
Proof.
  intros w H.
  destruct (executeLoopWith_touches getMetricValue executeAdaptationStrategy l w
              quiet_getMetricValue quiet_executeAdaptationStrategy)
    as (r & _ & F & Hu & HF).
  eapply consistent_updates; [exact Hu| |exact H]. intros L. apply HF.
Qed.

Lemma consistent_setInterval (t : timer) : maintains loopsConsistent (setInterval t).
Proof.
  intros w [Hreg Hall]. pose proof (fresh_timer_free w) as Hfree.
  split; [exact Hreg|]. intros l L HL. cbn in HL.
  destruct (Hall l L HL) as [Hi|(L0 & id & HL0 & Hact & Hid & Hlook)]; [left; exact Hi|].
  right. exists L0, id. cbn. rewrite lookup_insert_ne by congruence. auto.
Qed.

Lemma consistent_createFeedbackLoop (name : string) (config : loopConfig) :
  maintains loopsConsistent (createFeedbackLoop name config).
Proof.
  intros w [Hreg Hall].
  assert (Hfree : heap w !! fresh (dom (heap w)) = None) by apply not_elem_of_dom, is_fresh.
  set (l := fresh (dom (heap w))) in *.
  unfold loopsConsistent, idleAt, scheduled. cbn. fold l. split.
  - intros e He. apply elem_of_assoc_set in He as [->|He]; cbn.
    + rewrite lookup_insert_eq. eauto.
    + destruct (decide (l = e.2)) as [<-|Hne].
      * rewrite lookup_insert_eq. eauto.
      * rewrite lookup_insert_ne by exact Hne. apply Hreg, He.
  - intros l' L' HL'. destruct (decide (l = l')) as [<-|Hne].
    + rewrite lookup_insert_eq in HL'. injection HL' as <-.
      left. exists (newLoop name config). rewrite lookup_insert_eq. repeat split.
    + rewrite lookup_insert_ne in HL' by exact Hne. rewrite lookup_insert_ne by exact Hne.
      apply (Hall l' L' HL').
Qed.

Lemma consistent_startLoop (l : loc) : maintains loopsConsistent (startLoop l).
Proof.
  intros w [Hreg Hall]. rewrite (proj2 (startLoop_world l w)).
  destruct (l_state (default blankLoop (heap w !! l))) eqn:Hstate; [split; assumption|].
  pose proof (fresh_timer_free w) as Hfree. set (id := fresh (dom (timers w))) in *.
  unfold loopsConsistent, idleAt, scheduled. cbn [heap timers activeLoops set_heap set_timers].
  split.
  - intros e He. destruct (decide (l = e.2)) as [->|Hne].
    + rewrite !lookup_alter_eq. apply fmap_is_Some, fmap_is_Some, Hreg, He.
    + rewrite !lookup_alter_ne by exact Hne. apply Hreg, He.
  - intros l' L' HL'. destruct (decide (l = l')) as [<-|Hne].
    + right. rewrite !lookup_alter_eq in HL'. rewrite !lookup_alter_eq.
      destruct (heap w !! l) as [L|]; [|discriminate]. cbn in HL'. injection HL' as <-.
      eexists _, id. cbn. rewrite lookup_insert_eq. repeat split.
    + rewrite !lookup_alter_ne in HL' by exact Hne. rewrite !lookup_alter_ne by exact Hne.
      destruct (Hall l' L' HL') as [Hi|(L0 & id' & HL0 & Hact & Hid & Hlook)];
        [left; exact Hi|].
      right. exists L0, id'. rewrite lookup_insert_ne by congruence. auto.
Qed.

Lemma consistent_stopLoop (l : loc) : maintains loopsConsistent (stopLoop l).
Proof.
  intros w [Hreg Hall]. rewrite (proj2 (stopLoop_world l w)).
  destruct (heap w !! l) as [L|] eqn:HL; [|split; assumption].
  destruct (l_state L) eqn:Hstate; [|split; assumption].
  destruct (Hall l L HL) as [(L0 & HL0 & Hin & _)|(L0 & id & HL0 & _ & Hid & Hlook)];
    rewrite HL in HL0; injection HL0 as <-; [congruence|].
  rewrite Hid. unfold loopsConsistent, idleAt, scheduled.
  cbn [heap timers activeLoops set_heap set_timers]. split.
  - intros e He. destruct (decide (l = e.2)) as [->|Hne].
    + rewrite !lookup_alter_eq. apply fmap_is_Some, fmap_is_Some, Hreg, He.
    + rewrite !lookup_alter_ne by exact Hne. apply Hreg, He.
  - intros l' L' HL'. destruct (decide (l = l')) as [<-|Hne].
    + left. rewrite !lookup_alter_eq, HL in HL'. rewrite !lookup_alter_eq, HL.
      cbn in HL'. injection HL' as <-. eexists. cbn. repeat split.
    + rewrite !lookup_alter_ne in HL' by exact Hne. rewrite !lookup_alter_ne by exact Hne.
      destruct (Hall l' L' HL') as [Hi|(L0 & id' & HL0 & Hact & Hid' & Hlook')];
        [left; exact Hi|].
      right. exists L0, id'. rewrite lookup_delete_ne by congruence. auto.
Qed.

Lemma consistent_modify (f : world -> world) :
  (forall w, heap (f w) = heap w) -> (forall w, timers (f w) = timers w) ->
  (forall w, activeLoops (f w) = activeLoops w) ->
  maintains loopsConsistent (modify f).
Proof. intros Hh Ht Ha w H. apply (consistent_same w); cbn; auto. Qed.

Lemma consistent_start : maintains loopsConsistent start.
Proof.
  unfold start. apply maintains_bind; [apply consistent_quiet, quiet_gets|intros running].
  destruct running; [apply maintains_ret|].
  apply maintains_bind; [apply consistent_modify; reflexivity|intros _].
  apply maintains_bind; [apply consistent_quiet, quiet_gets|intros loops].
  apply maintains_bind;
    [apply maintains_forEach; intros x; apply consistent_startLoop|intros _].
  apply maintains_bind; [|intros _; apply consistent_quiet, quiet_emit].
  unfold startRealTimeMetrics.
  apply maintains_bind; [apply consistent_setInterval|intros id].
  apply consistent_modify; reflexivity.
Qed.

Lemma consistent_stop : maintains loopsConsistent stop.
Proof.
  unfold stop. apply maintains_bind; [apply consistent_quiet, quiet_gets|intros running].
  destruct running; cbn [negb]; [|apply maintains_ret].
  apply maintains_bind; [apply consistent_modify; reflexivity|intros _].
  apply maintains_bind; [apply consistent_quiet, quiet_gets|intros loops].
  apply maintains_bind;
    [apply maintains_forEach; intros x; apply consistent_stopLoop|intros _].
  apply consistent_quiet, quiet_emit.
Qed.

Lemma consistent_fire (id : timerId) : maintains loopsConsistent (fire id).
Proof.
  unfold fire. apply maintains_bind; [apply consistent_quiet, quiet_gets|].
  intros [[l|]|].
  - apply consistent_executeLoop.
  - apply consistent_quiet, quiet_updateRealTimeMetrics.
  - apply maintains_ret.
Qed.

Lemma consistent_perform (c : call) : maintains loopsConsistent (perform c).
Proof.
  destruct c; cbn [perform].
  - apply maintains_bind; [apply consistent_createFeedbackLoop|intros ?; apply maintains_ret].
  - apply consistent_start.
  - apply consistent_stop.
  - apply consistent_startLoop.
  - apply consistent_stopLoop.
  - apply consistent_executeLoop.
  - apply consistent_fire.
Qed.

Lemma constructor_maintains (I : world -> Prop) (clock : nat -> Z) (random : nat -> Q) :
  (forall name config, maintains I (createFeedbackLoop name config)) ->
  I (emptyWorld clock random) -> I (constructor clock random).
Proof.
  intros Hcreate. unfold constructor. generalize (emptyWorld clock random).
  change (maintains I initializeDefaultLoops). unfold initializeDefaultLoops.
  repeat (apply maintains_bind; [apply Hcreate|intros ?]).
  apply maintains_ret.
Qed.

Lemma consistent_constructor (clock : nat -> Z) (random : nat -> Q) :
  loopsConsistent (constructor clock random).
Proof.
  apply constructor_maintains; [apply consistent_createFeedbackLoop|].
  split; [intros e He; apply elem_of_nil in He; contradiction|].
  intros l L HL. cbn in HL. rewrite lookup_empty in HL. discriminate.
Qed.

Lemma constructor_noLoopTimer (clock : nat -> Z) (random : nat -> Q) :
  noLoopTimer (constructor clock random).
Proof.
  apply constructor_maintains.
  - intros name config w H. exact H.
  - intros id l. cbn. rewrite lookup_empty. discriminate.
Qed.

Lemma consistent_registeredIdle (w : world) :
  loopsConsistent w -> noLoopTimer w -> registeredIdle w.
Proof.
  intros [Hreg Hall] Hnone e He. destruct (Hreg e He) as [L HL].
  destruct (Hall e.2 L HL) as [Hi|(L0 & id & _ & _ & _ & Hlook)]; [exact Hi|].
  exfalso. exact (Hnone id e.2 Hlook).
Qed.

Lemma start_schedules_every_loop_witness :
  isRunning (constructor steadyClock midRandom) = false
  /\ isRunning (start (constructor steadyClock midRandom)).2 = true
  /\ timersOwned (start (constructor steadyClock midRandom)).2.
Proof.
  split; [reflexivity|].
  destruct (start_schedules_every_loop (constructor steadyClock midRandom))
    as (_ & Hrun & _ & _ & Hown & _).
  - reflexivity.
  - apply consistent_registeredIdle;
      [apply consistent_constructor|apply constructor_noLoopTimer].
  - apply constructor_noLoopTimer.
  - split; [exact Hrun|exact Hown].
Defined.

Lemma consistent_reachable (w : world) : reachable w -> loopsConsistent w.
Proof.
  induction 1 as [clock random|w c _ IH].
  - apply consistent_constructor.
  - apply consistent_perform, IH.
Qed.

(** X9. In every state that the supervisor can reach, the loop objects,
    the registry and the timers fit together: every registered loop object
    exists; every loop object is either inactive without a timer handle, or
    active holding the handle of a pending timer whose callback runs that
    very loop; and no two loop objects hold the same handle. *)
Theorem loops_and_timers_consistent (w : world) :
  reachable w ->
  loopsConsistent w
  /\ (forall l L, heap w !! l = Some L ->
        (l_state L = inactive /\ intervalId L = None)
        \/ (l_state L = active
            /\ exists id, intervalId L = Some id /\ timers w !! id = Some (LoopTimer l)))
  /\ (forall l1 l2 L1 L2 id,
        heap w !! l1 = Some L1 -> heap w !! l2 = Some L2 ->
        intervalId L1 = Some id -> intervalId L2 = Some id -> l1 = l2).
Proof.
  intros Hr. pose proof (consistent_reachable w Hr) as Hc. split; [exact Hc|].
  destruct Hc as [_ Hall].
  assert (Hshape : forall l L, heap w !! l = Some L ->
            (l_state L = inactive /\ intervalId L = None)
            \/ (l_state L = active
                /\ exists id, intervalId L = Some id /\ timers w !! id = Some (LoopTimer l))).
  { intros l L HL.
    destruct (Hall l L HL) as [(L0 & HL0 & Hin & Hno)|(L0 & id & HL0 & Hact & Hid & Hlook)];
      rewrite HL in HL0; injection HL0 as <-; [left; auto|right; eauto]. }
  split; [exact Hshape|].
  intros l1 l2 L1 L2 id H1 H2 Hi1 Hi2.
  destruct (Hshape l1 L1 H1) as [[_ Hn]|(_ & id1 & Hid1 & Ht1)]; [congruence|].
  destruct (Hshape l2 L2 H2) as [[_ Hn]|(_ & id2 & Hid2 & Ht2)]; [congruence|].
  congruence.
Qed.

Lemma loops_and_timers_consistent_witness :
  loopsConsistent replacedWorld.
Proof.
  apply loops_and_timers_consistent.
  unfold replacedWorld, run. cbn [foldl]. apply reach_call, reach_call, reach_call, reach_new.
Defined.

(** ** Stopping and starting again *)

Lemma consistent_idleOrRunning (w : world) (l : loc) :
  loopsConsistent w -> is_Some (heap w !! l) -> idleOrRunning w l.
Proof.
  intros [_ Hall] [L HL].
  destruct (Hall l L HL) as [Hi|(L0 & id & HL0 & Hact & Hid & Hlook)]; [left; exact Hi|].
  right. exists L0, id. repeat split; try assumption. congruence.
Qed.

Lemma stop_running (w : world) :
  loopsConsistent w -> isRunning w = true ->
  (stop w).1 = Ok tt
  /\ isRunning (stop w).2 = false
  /\ activeLoops (stop w).2 = activeLoops w
  /\ registeredIdle (stop w).2
  /\ metricsInterval (stop w).2 = metricsInterval w
  /\ (forall id, timers w !! id = Some MetricsTimer ->
        timers (stop w).2 !! id = Some MetricsTimer).
Proof.
  intros Hc Hrun. split.
  { unfold stop. rewrite (bind_ok _ _ w true) by (cbn; rewrite Hrun; reflexivity).
    cbn [negb gets snd]. rewrite (bind_ok _ _ w tt) by reflexivity. cbn [modify snd].
    rewrite (bind_ok _ _ _ (activeLoops w)) by reflexivity. cbn [gets snd].
    rewrite (bind_ok _ _ _ tt (forEach_stopLoop_ok _ _)). reflexivity. }
  rewrite (stop_world w Hrun).
  assert (Hall : forall e, e ∈ activeLoops w -> idleOrRunning (set_isRunning false w) e.2).
  { intros e He. apply (consistent_idleOrRunning (set_isRunning false w)).
    - apply (consistent_same w); [reflexivity..|exact Hc].
    - apply Hc, He. }
  destruct (forEach_stopLoop_idle (activeLoops w) (set_isRunning false w) Hall)
    as (Hidle & _ & Hmet & Hreg & Hrun' & Hmi).
  unfold registeredIdle.
  cbn [isRunning activeLoops metricsInterval timers heap add_event].
  repeat split; try assumption.
  intros e He. rewrite Hreg in He. apply (Hidle e He).
Qed.

(** X10. [stop()] on a running supervisor, in any state it can reach:
    afterwards the supervisor is not running and every registered loop
    object is inactive and holds no timer handle, but [stop()] never clears
    the metrics timer: every metrics timer that was pending is still
    pending, and [metricsInterval] still holds its handle. *)
Theorem stop_keeps_metrics_timer (w : world) :
  reachable w -> isRunning w = true ->
  (stop w).1 = Ok tt
  /\ isRunning (stop w).2 = false
  /\ activeLoops (stop w).2 = activeLoops w
  /\ registeredIdle (stop w).2
  /\ metricsInterval (stop w).2 = metricsInterval w
  /\ (forall id, timers w !! id = Some MetricsTimer ->
        timers (stop w).2 !! id = Some MetricsTimer).
Proof. intros Hr. apply stop_running, consistent_reachable, Hr. Qed.

Lemma stop_keeps_metrics_timer_witness :
  isRunning runningWorld = true
  /\ registeredIdle (stop runningWorld).2
  /\ timers (stop runningWorld).2 !! 5%nat = Some MetricsTimer.
Proof.
  split; [reflexivity|].
  destruct (stop_keeps_metrics_timer runningWorld) as (_ & _ & _ & Hidle & _ & Hmet).
  - unfold runningWorld, run. cbn [foldl]. apply reach_call, reach_new.
  - reflexivity.
  - split; [exact Hidle|]. apply Hmet. vm_compute. reflexivity.
Defined.

Lemma startLoop_timers_grow (l : loc) (w : world) :
  timers w ⊆ timers (startLoop l w).2
  /\ isRunning (startLoop l w).2 = isRunning w
  /\ metricsInterval (startLoop l w).2 = metricsInterval w
  /\ activeLoops (startLoop l w).2 = activeLoops w.
Proof.
  rewrite (proj2 (startLoop_world l w)).
  destruct (l_state (default blankLoop (heap w !! l))); [repeat split; reflexivity|].
  cbn [timers isRunning metricsInterval activeLoops set_heap set_timers].
  repeat split. apply insert_subseteq, fresh_timer_free.
Qed.

Lemma forEach_startLoop_timers_grow (loops : list (string * loc)) (w : world) :
  let w' := (forEach (fun e => startLoop e.2) loops w).2 in
  timers w ⊆ timers w'
  /\ isRunning w' = isRunning w
  /\ metricsInterval w' = metricsInterval w
  /\ activeLoops w' = activeLoops w.
Proof.
  revert w. induction loops as [|e rest IH]; intros w w'; subst w'.
  - cbn. repeat split; reflexivity.
  - cbn [forEach]. rewrite (bind_ok _ _ w tt (proj1 (startLoop_world e.2 w))).
    destruct (startLoop_timers_grow e.2 w) as (Hs & Hr & Hm & Ha).
    destruct (IH (startLoop e.2 w).2) as (Hs2 & Hr2 & Hm2 & Ha2).
    repeat split; [etransitivity; eassumption|congruence..].
Qed.

Lemma start_adds_metrics_timer (w : world) :
  isRunning w = false ->
  (start w).1 = Ok tt
  /\ isRunning (start w).2 = true
  /\ activeLoops (start w).2 = activeLoops w
  /\ timers w ⊆ timers (start w).2
  /\ exists id, metricsInterval (start w).2 = Some id
                /\ timers w !! id = None
                /\ timers (start w).2 !! id = Some MetricsTimer.
Proof.
  intros Hrun. destruct (start_world w Hrun) as [Hok Hw]. rewrite Hw. clear Hw.
  split; [exact Hok|].
  destruct (forEach_startLoop_timers_grow (activeLoops w) (set_isRunning true w))
    as (Hs & Hr & Hm & Ha).
  set (w2 := (forEach (fun e => startLoop e.2) (activeLoops w) (set_isRunning true w)).2) in *.
  cbv zeta. pose proof (fresh_timer_free w2) as Hfree. set (id := fresh (dom (timers w2))) in *.
  cbn [isRunning activeLoops timers metricsInterval add_event set_metricsInterval set_timers].
  cbn [isRunning activeLoops timers set_isRunning] in Hs, Hr, Ha.
  split; [exact Hr|]. split; [exact Ha|]. split.
  - etransitivity; [exact Hs|]. apply insert_subseteq, Hfree.
  - exists id. split; [reflexivity|]. split; [|apply lookup_insert_eq].
    destruct (timers w !! id) as [t|] eqn:E; [|reflexivity].
    apply (lookup_weaken _ _ _ _ E) in Hs. congruence.
Qed.

(** X11. Stopping a running supervisor and starting it again leaks a
    timer: the metrics timers that were pending before are all still
    pending afterwards, and [metricsInterval] now holds the handle of one
    more pending metrics timer, which is none of them. *)
Theorem restart_leaks_metrics_timer (w : world) :
  reachable w -> isRunning w = true ->
  (start (stop w).2).1 = Ok tt
  /\ isRunning (start (stop w).2).2 = true
  /\ activeLoops (start (stop w).2).2 = activeLoops w
  /\ (forall id, timers w !! id = Some MetricsTimer ->
        timers (start (stop w).2).2 !! id = Some MetricsTimer)
  /\ exists id, metricsInterval (start (stop w).2).2 = Some id
                /\ timers (start (stop w).2).2 !! id = Some MetricsTimer
                /\ timers w !! id <> Some MetricsTimer.
Proof.
  intros Hr Hrun.
  destruct (stop_running w (consistent_reachable w Hr) Hrun)
    as (_ & Hoff & Hreg & _ & _ & Hmet).
  destruct (start_adds_metrics_timer (stop w).2 Hoff)
    as (Hok & Hon & Hreg2 & Hsub & id & Hmi & Hfree & Hnew).
  split; [exact Hok|]. split; [exact Hon|]. split; [congruence|]. split.
  - intros id' Hm. eapply lookup_weaken; [apply Hmet, Hm|exact Hsub].
  - exists id. split; [exact Hmi|]. split; [exact Hnew|].
    intros Hm. apply Hmet in Hm. congruence.
Qed.

Lemma restart_leaks_metrics_timer_witness :
  isRunning runningWorld = true
  /\ timers (start (stop runningWorld).2).2 !! 5%nat = Some MetricsTimer
  /\ exists id, metricsInterval (start (stop runningWorld).2).2 = Some id
                /\ timers (start (stop runningWorld).2).2 !! id = Some MetricsTimer
                /\ timers runningWorld !! id <> Some MetricsTimer.
Proof.
  split; [reflexivity|].
  destruct (restart_leaks_metrics_timer runningWorld) as (_ & _ & _ & Hmet & Hnew).
  - unfold runningWorld, run. cbn [foldl]. apply reach_call, reach_new.
  - reflexivity.
  - split; [|exact Hnew]. apply Hmet. vm_compute. reflexivity.
Defined.

Lemma forEach_stopLoop_isRunning (loops : list (string * loc)) (w : world) :
  isRunning (forEach (fun e => stopLoop e.2) loops w).2 = isRunning w.
Proof.
  revert w. induction loops as [|e rest IH]; intros w; [reflexivity|].
  cbn [forEach]. rewrite (bind_ok _ _ w tt (proj1 (stopLoop_world e.2 w))).
  rewrite IH, (proj2 (stopLoop_world e.2 w)).
  destruct (heap w !! e.2) as [L|]; [|reflexivity].
  destruct (l_state L); [|reflexivity]. destruct (intervalId L); reflexivity.
Qed.

(** X12. [start()] and [stop()] are idempotent in every state: a second
    [start()] right after a [start()], and a second [stop()] right after a
    [stop()], returns at the guard and changes nothing, so no loop object
    gets a second timer. *)
Theorem start_stop_idempotent (w : world) :
  start (start w).2 = (Ok tt, (start w).2)
  /\ stop (stop w).2 = (Ok tt, (stop w).2).
Proof.
  split.
  - assert (Hon : isRunning (start w).2 = true).
    { destruct (isRunning w) eqn:Hrun.
      - unfold start. rewrite (bind_ok _ _ w true) by (cbn; rewrite Hrun; reflexivity).
        exact Hrun.
      - apply (start_adds_metrics_timer w Hrun). }
    unfold start at 1. rewrite (bind_ok _ _ _ true) by exact (f_equal Ok Hon).
    reflexivity.
  - assert (Hoff : isRunning (stop w).2 = false).
    { destruct (isRunning w) eqn:Hrun.
      - rewrite (stop_world w Hrun). cbn [isRunning add_event].
        apply forEach_stopLoop_isRunning.
      - unfold stop. rewrite (bind_ok _ _ w false) by (cbn; rewrite Hrun; reflexivity).
        exact Hrun. }
    unfold stop at 1. rewrite (bind_ok _ _ _ false) by exact (f_equal Ok Hoff).
    reflexivity.
Qed.

(** ** Which adaptations can succeed *)

Lemma countImplemented_app (xs ys : list strategy) :
  countImplemented (xs ++ ys) = (countImplemented xs + countImplemented ys)%nat.
Proof. unfold countImplemented. rewrite filter_app, length_app. reflexivity. Qed.

Lemma countImplemented_named (mk : string -> strategy) (names : list string) :
  (forall n, s_name (mk n) = n) ->
  countImplemented (map mk names)
  = length (filter (fun n => is_Some (assoc_get strategyExecutors n)) names).
Proof.
  intros Hmk. unfold countImplemented.
  induction names as [|n rest IH]; [reflexivity|].
  cbn [map]. rewrite !filter_cons.
  destruct (decide (implemented (mk n) = true)) as [Hb|Hb];
    destruct (decide (is_Some (assoc_get strategyExecutors n))) as [Hs|Hs];
    cbn [length]; try (rewrite IH; reflexivity).
  - unfold implemented in Hb. rewrite (Hmk n) in Hb.
    apply bool_decide_eq_true in Hb. contradiction.
  - exfalso. apply Hb. unfold implemented. rewrite (Hmk n).
    apply bool_decide_eq_true, Hs.
Qed.

(** Of the two strategies generated for an issue at most one is
    implemented, unless the issue is on [response_time] under
    [performance_optimization]. *)
Lemma issue_strategies_half (i : issue) (adaptationType : string) :
  (adaptationType = "performance_optimization"%string /\ i_metric i = "response_time"%string)
  \/ (2 * countImplemented (generateStrategiesForIssue i adaptationType)
      <= length (generateStrategiesForIssue i adaptationType))%nat.
Proof.
  unfold generateStrategiesForIssue.
  rewrite countImplemented_named by reflexivity. rewrite length_map.
  destruct (assoc_get strategyMap adaptationType) as [m|] eqn:Em; [|right; cbn; lia].
  cbn [mbind option_bind].
  destruct (assoc_get m (i_metric i)) as [names|] eqn:En; [|right; cbn; lia].
  cbn [from_option id].
  apply assoc_get_In in Em. cbn [strategyMap In] in Em.
  repeat (destruct Em as [Em|Em];
    [injection Em as <- <-; apply assoc_get_In in En; cbn [In] in En;
     repeat (destruct En as [En|En];
       [injection En as Hmetric <-;
        first [right; vm_compute; lia | left; split; [reflexivity|symmetry; exact Hmetric]]|]);
     destruct En|]).
  destruct Em.
Qed.

Lemma issues_strategies_half (iss : list issue) (adaptationType : string) :
  (adaptationType = "performance_optimization"%string
   /\ exists i, i ∈ iss /\ i_metric i = "response_time"%string)
  \/ (2 * countImplemented
            (concat (map (fun i => generateStrategiesForIssue i adaptationType) iss))
      <= length (concat (map (fun i => generateStrategiesForIssue i adaptationType) iss)))%nat.
Proof.
  induction iss as [|i rest IH]; [right; cbn; lia|].
  destruct IH as [(HT & i' & Hin & Hm)|IH].
  { left. split; [exact HT|]. exists i'. split; [apply list_elem_of_further, Hin|exact Hm]. }
  destruct (issue_strategies_half i adaptationType) as [[HT Hm]|Hi].
  { left. split; [exact HT|]. exists i. split; [apply list_elem_of_here|exact Hm]. }
  right. cbn [map concat]. rewrite countImplemented_app, length_app. lia.
Qed.

(** X13. An adaptation that [generateAdaptation] builds can be applied
    successfully only for a loop whose adaptation type is
    [performance_optimization], and only when the analysis reports an issue
    on [response_time]: in every other case at most half of the generated
    strategies are implemented and [applyAdaptation] returns [false]. *)
Theorem success_needs_response_time_issue (L : loopObj) (an : analysis) (l : loc) (w : world)
    (a : adaptation) :
  (generateAdaptation L an w).1 = Ok a ->
  (applyAdaptation l a (generateAdaptation L an w).2).1 = Ok true ->
  c_adaptation (l_config L) = "performance_optimization"%string
  /\ exists i, i ∈ issues an /\ i_metric i = "response_time"%string.
Proof.
  unfold generateAdaptation. cbn [bind now ret fst snd]. intros [= <-] Happ.
  destruct (applyAdaptation_attempt l
              (mkAdaptation (c_adaptation (l_config L)) (l_name L) (issues an)
                 (concat (map (fun i => generateStrategiesForIssue i (c_adaptation (l_config L)))
                              (issues an))
                  ++ generateGeneralStrategies (c_adaptation (l_config L)) an)
                 (calculateAdaptationPriority an) (estimateAdaptationImpact an)
                 (clock w (clockReads w)))
              (tick_clock w)) as (b & att & Hb & Hiff & _).
  rewrite Hb in Happ. injection Happ as ->.
  assert (Hlt := proj1 Hiff eq_refl). cbn [a_strategies] in Hlt.
  rewrite countImplemented_app, length_app, general_strategies_unimplemented in Hlt.
  destruct (issues_strategies_half (issues an) (c_adaptation (l_config L))) as [H|H];
    [exact H|lia].
Qed.

Lemma success_needs_response_time_issue_witness :
  c_adaptation (l_config improvingLoop) = "performance_optimization"%string
  /\ exists i,
       i ∈ [mkIssue "response_time" 2000 1000 medium] /\ i_metric i = "response_time"%string.
Proof.
  destruct (generateAdaptation improvingLoop
              (mkAnalysis fair [mkIssue "response_time" 2000 1000 medium] (Fin 0.5) [])
              (constructor steadyClock midRandom)).1 as [a|e] eqn:Ha;
    [|vm_compute in Ha; discriminate].
  apply (success_needs_response_time_issue improvingLoop
           (mkAnalysis fair [mkIssue "response_time" 2000 1000 medium] (Fin 0.5) [])
           0%nat (constructor steadyClock midRandom) a Ha).
  unfold generateAdaptation in Ha. cbn [bind now ret fst snd] in Ha. injection Ha as <-.
  vm_compute. reflexivity.
Defined.


(** ** Edge cases of the evaluator *)

Lemma analyzeEntries_undefined (metrics : metricsObj) (t : tally) :
  ((exists n v, (n, Some v) ∈ metrics) -> exists e, analyzeEntries None metrics t = Throw e)
  /\ ((forall n v, (n, Some v) ∉ metrics) -> analyzeEntries None metrics t = Ok t).
Proof.
  induction metrics as [|[n [v|]] rest [IHt IHo]]; cbn [analyzeEntries].
  - split; [intros (n & v & H); apply elem_of_nil in H; contradiction|reflexivity].
  - split; [eauto|]. intros H. exfalso. apply (H n v), list_elem_of_here.
  - split.
    + intros (n' & v' & H). apply IHt. exists n', v'.
      apply elem_of_cons in H as [H|H]; [discriminate|exact H].
    + intros H. apply IHo. intros n' v' Hin. apply (H n' v'), list_elem_of_further, Hin.
Qed.

Lemma classic_sample (metrics : metricsObj) :
  (exists n v, (n, Some v) ∈ metrics) \/ (forall n v, (n, Some v) ∉ metrics).
Proof.
  induction metrics as [|[n [v|]] rest IH].
  - right. intros n v H. apply elem_of_nil in H. contradiction.
  - left. exists n, v. apply list_elem_of_here.
  - destruct IH as [(n' & v' & H)|H].
    + left. exists n', v'. apply list_elem_of_further, H.
    + right. intros n' v' Hin. apply elem_of_cons in Hin as [Heq|Hin];
        [discriminate Heq|exact (H n' v' Hin)].
Qed.

Lemma analyzeMetrics_undefined (metrics : metricsObj) :
  ((exists e, analyzeMetrics None metrics = Throw e) <-> exists n v, (n, Some v) ∈ metrics)
  /\ ((forall n v, (n, Some v) ∉ metrics) ->
      analyzeMetrics None metrics
      = Ok (mkAnalysis poor [] (Fin 0) [mkRecommendation general_improvement None None])).
Proof.
  unfold analyzeMetrics.
  destruct (analyzeEntries_undefined metrics (mkTally (Fin 0) 0 [])) as [Ht Ho].
  split; [split|].
  - intros [e He]. 
    destruct (classic_sample metrics) as [H|H]; [exact H|].
    rewrite (Ho H) in He. discriminate He.
  - intros H. destruct (Ht H) as [e ->]. eauto.
  - intros H. rewrite (Ho H). reflexivity.
Qed.

(** X14. For a loop registered without a threshold table, [analyzeMetrics]
    throws exactly when some sample has a value (it then reads a property
    of [undefined]); when every sample is [null] it returns the empty
    analysis: score 0, status poor, no issue. *)
Theorem analyzeMetrics_without_thresholds (metrics : metricsObj) :
  ((exists e, analyzeMetrics None metrics = Throw e) <-> exists n v, (n, Some v) ∈ metrics)
  /\ ((forall n v, (n, Some v) ∉ metrics) ->
      analyzeMetrics None metrics
      = Ok (mkAnalysis poor [] (Fin 0) [mkRecommendation general_improvement None None])).
Proof. exact (analyzeMetrics_undefined metrics). Qed.

Lemma matched_none (ths : gmap string Q) (metrics : metricsObj) :
  (forall n v, (n, Some v) ∈ metrics -> ths !! n = None) -> matched ths metrics = [].
Proof.
  induction metrics as [|[n [v|]] rest IH]; intros H; [reflexivity| |].
  - rewrite matched_cons_value, (H n v (list_elem_of_here _ _)).
    apply IH. intros n' v' Hin. apply (H n' v'), list_elem_of_further, Hin.
  - rewrite matched_cons_null. apply IH.
    intros n' v' Hin. apply (H n' v'), list_elem_of_further, Hin.
Qed.

(** X15. When no sample that has a value has a threshold (the table
    configures other metrics, or every source failed), the analysis is the
    empty one, score 0 and status poor without any issue, and
    [needsAdaptation] answers [true] for every loop: such a loop adapts on
    every cycle. *)
Theorem unmatched_samples_force_adaptation (ths : gmap string Q) (metrics : metricsObj)
    (L : loopObj) :
  (forall n v, (n, Some v) ∈ metrics -> ths !! n = None) ->
  exists a,
    analyzeMetrics (Some ths) metrics = Ok a
    /\ score a = Fin 0 /\ overall a = poor /\ issues a = []
    /\ needsAdaptation L a = true.
Proof.
  intros H. rewrite analyzeMetrics_matched. cbv zeta.
  unfold metricScores. rewrite (matched_none ths metrics H).
  eexists. split; [reflexivity|]. repeat split.
Qed.

Lemma unmatched_samples_force_adaptation_witness :
  exists a,
    analyzeMetrics (Some performanceThresholdTable)
      [("idea_quality"%string, Some 0.9); ("no_such_metric"%string, None)] = Ok a
    /\ score a = Fin 0 /\ overall a = poor /\ issues a = []
    /\ needsAdaptation improvingLoop a = true.
Proof.
  apply unmatched_samples_force_adaptation.
  intros n v Hin. apply list_elem_of_In in Hin. cbn [In] in Hin.
  destruct Hin as [[= <- <-]|[[=]|[]]]. vm_compute. reflexivity.
Defined.

(** ** The recent snapshots *)

Lemma insertDesc_perm (e : Z * metricsObj) (l : list (Z * metricsObj)) :
  insertDesc e l ≡ₚ e :: l.
Proof.
  induction l as [|x rest IH]; cbn [insertDesc]; [reflexivity|].
  destruct (x.1 <? e.1)%Z; [reflexivity|].
  rewrite IH. apply Permutation_swap.
Qed.

Lemma sortDesc_perm (l : list (Z * metricsObj)) : sortDesc l ≡ₚ l.
Proof.
  unfold sortDesc. induction l as [|x rest IH]; cbn [foldr]; [reflexivity|].
  rewrite insertDesc_perm, IH. reflexivity.
Qed.

Lemma insertDesc_sorted (e : Z * metricsObj) (l : list (Z * metricsObj)) :
  newestFirst l -> newestFirst (insertDesc e l).
Proof.
  unfold newestFirst. induction 1 as [|x rest Hs IH Hx]; cbn [insertDesc].
  - constructor; constructor.
  - destruct (x.1 <? e.1)%Z eqn:E.
    + apply Z.ltb_lt in E. constructor; [constructor; assumption|].
      constructor; [lia|]. eapply Forall_impl; [exact Hx|]. cbn. intros y Hy. lia.
    + apply Z.ltb_ge in E. constructor; [exact IH|].
      rewrite insertDesc_perm. constructor; assumption.
Qed.

Lemma sortDesc_sorted (l : list (Z * metricsObj)) : newestFirst (sortDesc l).
Proof.
  unfold sortDesc. induction l as [|x rest IH]; cbn [foldr].
  - constructor.
  - apply insertDesc_sorted, IH.
Qed.

Lemma newestFirst_split (l1 l2 : list (Z * metricsObj)) :
  newestFirst (l1 ++ l2) ->
  newestFirst l1 /\ forall a b, a ∈ l1 -> b ∈ l2 -> (b.1 <= a.1)%Z.
Proof.
  unfold newestFirst. induction l1 as [|x rest IH]; cbn [app]; intros H.
  - split; [constructor|]. intros a b Ha. apply elem_of_nil in Ha. contradiction.
  - inversion H as [|? ? Hs Hx]; subst. destruct (IH Hs) as [Hrest Hcross].
    apply Forall_app in Hx as [Hx1 Hx2]. split; [constructor; assumption|].
    intros a b Ha Hb. apply elem_of_cons in Ha as [->|Ha]; [|apply Hcross; assumption].
    rewrite Forall_forall in Hx2. apply Hx2, Hb.
Qed.

(** X16. [getRecentMetrics] returns the [count] newest snapshots of the
    loop, newest first: as many as asked for or all there are, ordered by
    falling timestamp, each one a snapshot of the loop, and no snapshot
    left out is newer than one returned. *)
Theorem getRecentMetrics_newest (L : loopObj) (count : nat) :
  length (getRecentMetrics L count) = Nat.min count (length (l_metrics L))
  /\ newestFirst (getRecentMetrics L count)
  /\ exists older,
       l_metrics L ≡ₚ getRecentMetrics L count ++ older
       /\ forall a b, a ∈ getRecentMetrics L count -> b ∈ older -> (b.1 <= a.1)%Z.
Proof.
  unfold getRecentMetrics.
  pose proof (sortDesc_sorted (l_metrics L)) as Hs.
  rewrite <- (take_drop count (sortDesc (l_metrics L))) in Hs.
  apply newestFirst_split in Hs as [Hs Hcross].
  split; [|split; [exact Hs|]].
  - rewrite length_take, (Permutation_length (sortDesc_perm _)). reflexivity.
  - exists (drop count (sortDesc (l_metrics L))). split; [|exact Hcross].
    rewrite take_drop. symmetry. apply sortDesc_perm.
Qed.

(** ** Priority, impact and status of an analysis *)

Lemma matched_lookup (ths : gmap string Q) (metrics : metricsObj) (n : string) (v l : Q) :
  (n, v, l) ∈ matched ths metrics -> ths !! n = Some l /\ (n, Some v) ∈ metrics.
Proof.
  induction metrics as [|[n0 [v0|]] rest IH].
  - intros H. apply elem_of_nil in H. contradiction.
  - rewrite matched_cons_value. destruct (ths !! n0) as [l0|] eqn:E.
    + intros H. apply elem_of_cons in H as [[= -> -> ->]|H].
      * split; [exact E|apply list_elem_of_here].
      * destruct (IH H). split; [assumption|apply list_elem_of_further; assumption].
    + intros H. destruct (IH H). split; [assumption|apply list_elem_of_further; assumption].
  - rewrite matched_cons_null. intros H. destruct (IH H).
    split; [assumption|apply list_elem_of_further; assumption].
Qed.

(** With a limit that is not negative a per-metric score never exceeds 1,
    whatever the sample. *)
Lemma scoreMetric_atMost (n : string) (v l : Q) :
  0 <= l -> atMost 1 (fst (scoreMetric n v l)).
Proof.
  intros Hl. unfold scoreMetric. destruct (isHigherBetterMetric n); cbn [fst].
  - destruct (Qle_bool l v) eqn:E; [cbn; lra|]. apply Qle_bool_gt in E.
    cbn [num_div]. destruct (Qeq_bool l 0) eqn:Ez.
    + apply Qeq_bool_iff in Ez. rewrite Qsign_neg by lra. exact I.
    + apply Qeq_bool_false_neq in Ez. cbn [atMost].
      apply Qlt_le_weak, Qdiv_lt_one; [|exact E].
      destruct (Qlt_le_dec 0 l) as [H|H]; [exact H|]. exfalso. apply Ez. lra.
  - destruct (Qle_bool v l) eqn:E; [cbn; lra|]. apply Qle_bool_gt in E.
    cbn [num_div]. destruct (Qeq_bool v 0) eqn:Ez.
    + apply Qeq_bool_iff in Ez. exfalso. lra.
    + cbn [atMost]. apply Qlt_le_weak, Qdiv_lt_one; lra.
Qed.

Lemma foldl_num_add_atMost (scores : list number) (acc : number) (b : Q) :
  atMost b acc -> Forall (atMost 1) scores ->
  atMost (b + of_nat (length scores)) (foldl num_add acc scores).
Proof.
  intros Hacc H. revert acc b Hacc. induction H as [|x xs Hx _ IH]; intros acc b Hacc.
  - cbn [foldl length]. change (of_nat 0) with 0.
    destruct acc; cbn [atMost] in *; try assumption. lra.
  - cbn [foldl length].
    assert (Hstep : atMost (b + 1) (num_add acc x)).
    { destruct acc, x; cbn [atMost num_add] in *; try contradiction; try exact I. lra. }
    specialize (IH _ _ Hstep).
    destruct (foldl num_add (num_add acc x) xs); cbn [atMost] in *; try assumption.
    rewrite of_nat_S. lra.
Qed.

Lemma num_mean_atMost (scores : list number) :
  Forall (atMost 1) scores -> atMost 1 (num_mean scores).
Proof.
  intros H. unfold num_mean, num_sum.
  assert (H0 : atMost 0 (Fin 0)) by (cbn; lra).
  pose proof (foldl_num_add_atMost scores (Fin 0) 0 H0 H) as Hsum.
  destruct scores as [|x xs]; [cbn; lra|].
  set (n := length (x :: xs)) in *.
  assert (Hn : 0 < of_nat n) by (apply of_nat_pos; subst n; simpl; lia).
  destruct (foldl num_add (Fin 0) (x :: xs)) as [q| | |]; try contradiction.
  - rewrite (num_div_fin _ _ (Qpos_neq0 _ Hn)). cbn [atMost] in *.
    apply Qle_shift_div_r; [exact Hn|]. lra.
  - cbn [num_div].
    replace (Qle_bool 0 (of_nat n)) with true
      by (symmetry; apply Qle_bool_iff, Qlt_le_weak, Hn).
    exact I.
Qed.

Lemma estimateAdaptationImpact_bounds (a : analysis) :
  atMost 1 (score a) ->
  exists q, estimateAdaptationImpact a = Fin q /\ 0 <= q /\ q <= 0.3.
Proof.
  unfold estimateAdaptationImpact. destruct (score a) as [s| | |]; try contradiction.
  - cbn [atMost num_sub num_neg num_add num_mul num_min num_ltb]. intros Hs.
    destruct (Qltb ((1.0 + - s) * 0.5) 0.3) eqn:E.
    + apply Qltb_lt in E. eexists. split; [reflexivity|]. lra.
    + eexists. split; [reflexivity|]. lra.
  - intros _. exists 0.3. split; [reflexivity|]. lra.
Qed.

Ltac buckets :=
  repeat match goal with
  | H : Qltb _ _ = true |- _ => apply Qltb_lt in H
  | H : Qltb _ _ = false |- _ => apply Qltb_ge in H
  | H : Qle_bool _ _ = true |- _ => apply Qle_bool_iff in H
  | H : Qle_bool _ _ = false |- _ => apply Qle_bool_gt in H
  end.

(** X17. For every threshold table and every metrics object, the priority
    and the expected impact that [generateAdaptation] computes from the
    analysis fit its status: the priority is critical exactly when the
    status is poor and high exactly when it is fair, a medium priority
    comes with status good, and status excellent with priority low; when no
    limit of the table is negative, the expected impact is a finite number
    between 0 and 0.3, also for a score of [-Infinity]. *)
Theorem priority_and_impact_fit_status (ths : gmap string Q) (metrics : metricsObj) :
  exists a,
    analyzeMetrics (Some ths) metrics = Ok a
    /\ (calculateAdaptationPriority a = "critical"%string <-> overall a = poor)
    /\ (calculateAdaptationPriority a = "high"%string <-> overall a = fair)
    /\ (calculateAdaptationPriority a = "medium"%string -> overall a = good)
    /\ (overall a = excellent -> calculateAdaptationPriority a = "low"%string)
    /\ (map_Forall (fun _ l => 0 <= l) ths ->
        exists q, estimateAdaptationImpact a = Fin q /\ 0 <= q /\ q <= 0.3).
Proof.
  rewrite analyzeMetrics_matched. cbv zeta. eexists. split; [reflexivity|].
  assert (Hfin : finiteOrNInf (num_mean (metricScores ths metrics))).
  { apply num_mean_finiteOrNInf. unfold metricScores. apply Forall_forall.
    intros s Hs. apply list_elem_of_fmap in Hs as ([[n v] l] & -> & _).
    apply scoreMetric_finiteOrNInf. }
  split; [|split; [|split; [|split]]].
  5: { intros Hths. apply estimateAdaptationImpact_bounds. cbn [score].
       apply num_mean_atMost. unfold metricScores. apply Forall_forall.
       intros s Hs. apply list_elem_of_fmap in Hs as ([[n v] l] & -> & Hin).
       apply matched_lookup in Hin as [Hl _].
       apply scoreMetric_atMost. exact (Hths n l Hl). }
  all: unfold calculateAdaptationPriority, overallOf; cbn [score overall];
    destruct (num_mean (metricScores ths metrics)) as [q| | |]; try contradiction;
    cbn [num_ltb num_geb];
    try solve [split; intros; first [discriminate | reflexivity]];
    try solve [intros; first [discriminate | reflexivity]].
  all: destruct (Qltb q 0.5) eqn:E1; destruct (Qltb q 0.7) eqn:E2;
    destruct (Qltb q 0.85) eqn:E3; destruct (Qle_bool 0.9 q) eqn:E4;
    destruct (Qle_bool 0.7 q) eqn:E5; destruct (Qle_bool 0.5 q) eqn:E6;
    buckets; try (exfalso; lra);
    try solve [split; intros; first [discriminate | reflexivity]];
    try solve [intros; first [discriminate | reflexivity]].
Qed.

(** ** Starting and stopping one loop *)

(** X18. [startLoop] followed by [stopLoop] on an idle loop object leaves
    no trace: both return normally and the supervisor, with its loop
    objects and its pending timers, is exactly as before. *)
Theorem startLoop_stopLoop_round_trip (l : loc) (w : world) :
  idleAt w l ->
  (startLoop l w).1 = Ok tt
  /\ scheduled (startLoop l w).2 l
  /\ stopLoop l (startLoop l w).2 = (Ok tt, w).
Proof.
  intros (L & HL & Hin & Hnone).
  split; [apply startLoop_world|].
  pose proof (fresh_timer_free w) as Hfree.
  assert (Hw : (startLoop l w).2
               = set_heap (alter (set_intervalId (Some (fresh (dom (timers w))))) l)
                   (set_timers (insert (fresh (dom (timers w))) (LoopTimer l))
                      (set_heap (alter (set_l_state active) l) w))).
  { rewrite (proj2 (startLoop_world l w)), HL. cbn [from_option id]. rewrite Hin.
    reflexivity. }
  set (id := fresh (dom (timers w))) in *.
  split.
  - rewrite Hw. exists (set_intervalId (Some id) (set_l_state active L)), id.
    cbn [heap timers set_heap set_timers].
    rewrite !lookup_alter_eq, HL, lookup_insert_eq. repeat split.
  - apply injective_projections; [apply stopLoop_world|].
    rewrite (proj2 (stopLoop_world l _)), Hw.
    cbn [heap timers set_heap set_timers]. rewrite !lookup_alter_eq, HL.
    cbn [fmap option_fmap option_map l_state intervalId set_intervalId set_l_state].
    destruct w as [h al pt ih rt run mi tm ev ck cr rd rr].
    cbn [heap timers set_heap set_timers activeLoops performanceThresholds
         improvementHistory realTimeMetrics isRunning metricsInterval events clock
         clockReads random randomReads] in *.
    unfold set_heap, set_timers.
    cbn [snd heap timers activeLoops performanceThresholds improvementHistory
         realTimeMetrics isRunning metricsInterval events clock clockReads random
         randomReads].
    f_equal.
    + apply map_eq. intros l'. destruct (decide (l = l')) as [<-|Hne].
      * rewrite !lookup_alter_eq, HL. cbn. f_equal.
        destruct L. cbn in *. subst. reflexivity.
      * rewrite !lookup_alter_ne by exact Hne. reflexivity.
    + apply map_eq. intros id'. destruct (decide (id = id')) as [<-|Hne].
      * rewrite lookup_delete_eq. symmetry. exact Hfree.
      * rewrite lookup_delete_ne, lookup_insert_ne by exact Hne. reflexivity.
Qed.

Lemma startLoop_stopLoop_round_trip_witness :
  stopLoop 0%nat (startLoop 0%nat (constructor steadyClock midRandom)).2
  = (Ok tt, constructor steadyClock midRandom).
Proof.
  apply startLoop_stopLoop_round_trip.
  apply (consistent_registeredIdle (constructor steadyClock midRandom)
           (consistent_constructor _ _) (constructor_noLoopTimer _ _)
           ("performance"%string, 0%nat)).
  apply list_elem_of_In. vm_compute. left. reflexivity.
Defined.


(** ** The status report *)

Lemma countsBounded_cycle (r : result unit) (L L' : loopObj) :
  cycleEffect r L L' -> countsBounded L -> countsBounded L'.
Proof.
  unfold countsBounded. intros [_ Heff] HL. destruct r as [u|e].
  - destruct Heff as (Hexec & _ & [Hsame|[Hgrow _]]); lia.
  - destruct Heff as (Hexec & Himp & _). lia.
Qed.

Lemma reachable_countsBounded (w : world) : reachable w -> loopsSatisfy countsBounded w.
Proof.
  apply reachable_loopsSatisfy.
  - intros name config. unfold countsBounded. cbn. lia.
  - intros s L H. exact H.
  - intros i L H. exact H.
  - apply countsBounded_cycle.
Qed.

Lemma foldl_counts_le (Ls : list loopObj) (a b : nat) :
  (a <= b)%nat -> Forall countsBounded Ls ->
  (foldl (fun sum L => sum + improvementCount L) a Ls
   <= foldl (fun sum L => sum + executionCount L) b Ls)%nat.
Proof.
  intros Hab H. revert a b Hab. induction H as [|L rest HL _ IH]; intros a b Hab.
  - exact Hab.
  - cbn [foldl]. apply IH. unfold countsBounded in HL. lia.
Qed.

Lemma foldl_assoc_set_elem {A V} (f : string * A -> V) (xs : list (string * A))
    (acc : list (string * V)) (x : string * V) :
  x ∈ foldl (fun o e => assoc_set o e.1 (f e)) acc xs ->
  x ∈ acc \/ exists e, e ∈ xs /\ x = (e.1, f e).
Proof.
  revert acc. induction xs as [|e rest IH]; intros acc; cbn [foldl].
  - intros H. left. exact H.
  - intros H. destruct (IH _ H) as [Hacc|(e' & He' & ->)].
    + apply elem_of_assoc_set in Hacc as [->|Hacc]; [|left; exact Hacc].
      right. exists e. split; [apply list_elem_of_here|reflexivity].
    + right. exists e'. split; [apply list_elem_of_further, He'|reflexivity].
Qed.

(** X19. In every state that the supervisor can reach, the report of
    [getStatus] is coherent: the total of improvements does not exceed the
    total of executions; every entry of [loops] describes a loop object
    that is registered under that name, whose improvements do not exceed
    its executions and which, if reported active, has its timer pending;
    and [recentImprovements] holds the last entries of the ledger, at most
    10. *)
Theorem getStatus_coherent (w : world) :
  reachable w ->
  (st_totalImprovements (getStatus w) <= st_totalExecutions (getStatus w))%nat
  /\ (forall name ls, (name, ls) ∈ st_loops (getStatus w) ->
        exists l L,
          (name, l) ∈ activeLoops w /\ heap w !! l = Some L /\ ls = statusOf L
          /\ (ls_improvementCount ls <= ls_executionCount ls)%nat
          /\ (ls_state ls = active ->
              exists id, intervalId L = Some id /\ timers w !! id = Some (LoopTimer l)))
  /\ (length (st_recentImprovements (getStatus w)) <= 10)%nat
  /\ st_recentImprovements (getStatus w) `suffix_of` improvementHistory w.
Proof.
  intros Hr. pose proof (reachable_countsBounded w Hr) as Hcount.
  destruct (consistent_reachable w Hr) as [Hreg Hall].
  unfold getStatus. cbn [st_totalImprovements st_totalExecutions st_loops st_recentImprovements].
  split; [|split; [|split]].
  - apply foldl_counts_le; [lia|]. unfold loopValues. apply Forall_forall.
    intros L HL. apply list_elem_of_fmap in HL as (e & -> & He).
    destruct (Hreg e He) as [L HL]. rewrite HL. cbn [from_option id]. apply (Hcount _ _ HL).
  - intros name ls Hin. apply foldl_assoc_set_elem in Hin as [Hin|(e & He & Heq)];
      [apply elem_of_nil in Hin; contradiction|].
    injection Heq as -> ->. destruct (Hreg e He) as [L HL].
    exists e.2, L. rewrite HL. cbn [from_option id].
    split; [destruct e; exact He|]. split; [reflexivity|]. split; [reflexivity|].
    split; [apply (Hcount _ _ HL)|]. cbn [statusOf ls_state]. intros Hact.
    destruct (Hall e.2 L HL) as [(L0 & HL0 & Hin & _)|(L0 & id & HL0 & _ & Hid & Hlook)];
      rewrite HL in HL0; injection HL0 as <-; [congruence|eauto].
  - rewrite lastN_length. lia.
  - apply lastN_suffix.
Qed.

Lemma getStatus_coherent_witness :
  (st_totalImprovements (getStatus (run [Start; Fire 0%nat] (constructor steadyClock midRandom)))
   <= st_totalExecutions (getStatus (run [Start; Fire 0%nat] (constructor steadyClock midRandom))))%nat.
Proof.
  apply getStatus_coherent.
  unfold run. cbn [foldl]. apply reach_call, reach_call, reach_new.
Defined.

(** ** The trend on an empty baseline *)

Lemma foldl_Qplus_nonneg (values : list Q) (acc : Q) :
  0 <= acc -> Forall (fun v => 0 <= v) values -> 0 <= foldl Qplus acc values.
Proof.
  intros Hacc H. revert acc Hacc. induction H as [|v rest Hv _ IH]; intros acc Hacc.
  - exact Hacc.
  - cbn [foldl]. apply IH. lra.
Qed.

Lemma calculateAverageScore_allNull (metrics : metricsObj) :
  allNull metrics -> calculateAverageScore metrics = 0.
Proof.
  intros H. unfold calculateAverageScore.
  replace (omap snd metrics) with (@nil Q); [reflexivity|].
  induction metrics as [|[n v] rest IH]; [reflexivity|].
  pose proof (H (n, v) (list_elem_of_here _ _)) as Hv. cbn [snd] in Hv. subst v.
  cbn [omap list_omap snd]. apply IH. intros e He. apply H, list_elem_of_further, He.
Qed.

Lemma calculateAverageScore_nonneg (metrics : metricsObj) :
  samplesNonneg metrics -> 0 <= calculateAverageScore metrics.
Proof.
  intros H. unfold calculateAverageScore.
  assert (Hall : Forall (fun v => 0 <= v) (omap snd metrics)).
  { apply Forall_forall. intros v Hv. apply list_elem_of_omap in Hv as ([n o] & Hin & Ho).
    cbn in Ho. subst o. apply (H n v Hin). }
  destruct (0 <? length (omap snd metrics))%nat eqn:E; [|lra].
  apply Nat.ltb_lt in E. apply Qdiv_nonneg; [|apply of_nat_pos, E].
  apply foldl_Qplus_nonneg; [lra|exact Hall].
Qed.

(** X20. When the oldest of the recent snapshots of a loop holds no value
    (every metric source failed on that cycle) and the newest holds no
    negative sample, the trend is a division by zero, [NaN] or [Infinity],
    and the trend rule of [needsAdaptation] never fires: an adaptation is
    needed exactly when the score is below 0.7 or an issue of high severity
    exists. *)
Theorem trend_rule_silent_on_empty_baseline (L : loopObj) (a : analysis)
    (oldest newest : Z * metricsObj) :
  last (getRecentMetrics L 5) = Some oldest ->
  head (getRecentMetrics L 5) = Some newest ->
  allNull oldest.2 -> samplesNonneg newest.2 ->
  ((2 <= length (getRecentMetrics L 5))%nat ->
   calculateTrend (getRecentMetrics L 5) = NaN
   \/ calculateTrend (getRecentMetrics L 5) = PInf)
  /\ (needsAdaptation L a = true <->
      num_ltb (score a) (Fin 0.7) = true
      \/ exists i, i ∈ issues a /\ i_severity i = high).
Proof.
  intros Hlast Hhead Hnull Hnonneg.
  assert (Htrend : (2 <= length (getRecentMetrics L 5))%nat ->
                   calculateTrend (getRecentMetrics L 5) = NaN
                   \/ calculateTrend (getRecentMetrics L 5) = PInf).
  { intros Hlen. apply Nat.ltb_ge in Hlen.
    unfold calculateTrend. rewrite Hlen, Hlast, Hhead.
    cbn [fmap option_fmap option_map from_option id].
    rewrite (calculateAverageScore_allNull _ Hnull).
    pose proof (calculateAverageScore_nonneg _ Hnonneg) as Hn.
    cbn [num_sub num_neg num_add num_div]. change (Qeq_bool 0 0) with true. cbv iota.
    unfold Qsign. destruct (Qcompare_spec (calculateAverageScore newest.2 + - 0) 0) as [H|H|H].
    - left. reflexivity.
    - exfalso. lra.
    - right. reflexivity. }
  split; [exact Htrend|].
  rewrite needsAdaptation_iff. split.
  - intros [H|[H|[Hlen H]]]; [left; exact H|right; exact H|].
    destruct Htrend as [E|E]; [lia|rewrite E in H; discriminate H..].
  - intros [H|H]; [left; exact H|right; left; exact H].
Qed.

Lemma trend_rule_silent_on_empty_baseline_witness :
  calculateTrend (getRecentMetrics staleLoop 5) = PInf
  /\ needsAdaptation staleLoop (mkAnalysis excellent [] (Fin 1) []) = false.
Proof.
  destruct (trend_rule_silent_on_empty_baseline staleLoop (mkAnalysis excellent [] (Fin 1) [])
              (1000%Z, [("response_time"%string, None)])
              (3000%Z, [("response_time"%string, Some 500)]))
    as [_ _].
  - vm_compute. reflexivity.
  - vm_compute. reflexivity.
  - intros e He. apply list_elem_of_In in He. cbn [In snd] in He.
    destruct He as [<-|[]]. reflexivity.
  - intros n v Hin. apply list_elem_of_In in Hin. cbn [In snd] in Hin.
    destruct Hin as [[= <- <-]|[]]. discriminate.
  - split; vm_compute; reflexivity.
Defined.


(** ** Loops whose samples always meet their limits *)

Lemma constructor_default_configs (clock : nat -> Z) (random : nat -> Q) :
  (forall l, assoc_get (activeLoops (constructor clock random)) "learning"%string = Some l ->
     l_config <$> heap (constructor clock random) !! l = Some learningConfig)
  /\ (forall l, assoc_get (activeLoops (constructor clock random)) "innovation"%string = Some l ->
        l_config <$> heap (constructor clock random) !! l = Some innovationConfig).
Proof.
  split; intros l Hl.
  - assert (E : assoc_get (activeLoops (constructor clock random)) "learning"%string
                = Some 1%nat) by (vm_compute; reflexivity).
    rewrite E in Hl. injection Hl as <-. vm_compute. reflexivity.
  - assert (E : assoc_get (activeLoops (constructor clock random)) "innovation"%string
                = Some 4%nat) by (vm_compute; reflexivity).
    rewrite E in Hl. injection Hl as <-. vm_compute. reflexivity.
Qed.

Lemma collectInto_samples (P : string -> Q -> Prop) (names : list string)
    (metrics : metricsObj) (w : world) (obj : metricsObj) :
  (forall n w' v, (forall k, 0 <= random w' k) -> (getMetricValue n w').1 = Ok v -> P n v) ->
  (forall k, 0 <= random w k) ->
  (forall n v, (n, Some v) ∈ metrics -> P n v) ->
  (collectInto getMetricValue names metrics w).1 = Ok obj ->
  forall n v, (n, Some v) ∈ obj -> P n v.
Proof.
  intros HP. revert metrics w. induction names as [|n rest IH]; intros metrics w Hrand Hm.
  - cbn. intros [= <-]. exact Hm.
  - cbn [collectInto]. unfold bind at 1, try_catch, bind, ret.
    pose proof (HP n w) as Hv.
    destruct (getMetricValue_world n w) as [_ Hor].
    destruct (getMetricValue n w) as [[x|e] w1]; cbn [fst snd] in *;
      (apply IH;
       [intros k; rewrite Hor; apply Hrand
       |intros n' v' Hin; apply elem_of_assoc_set in Hin as [Heq|Hin];
        [injection Heq as -> E; try discriminate E|eapply Hm, Hin]]).
    subst v'. apply Hv; auto.
Qed.

Lemma matched_intro (ths : gmap string Q) (metrics : metricsObj) (n : string) (v l : Q) :
  (n, Some v) ∈ metrics -> ths !! n = Some l -> (n, v, l) ∈ matched ths metrics.
Proof.
  intros Hin Hl. induction metrics as [|[n0 [v0|]] rest IH].
  - apply elem_of_nil in Hin. contradiction.
  - rewrite matched_cons_value. apply elem_of_cons in Hin as [[= <- <-]|Hin].
    + rewrite Hl. apply list_elem_of_here.
    + destruct (ths !! n0); [apply list_elem_of_further|]; apply IH, Hin.
  - rewrite matched_cons_null. apply elem_of_cons in Hin as [[=]|Hin]. apply IH, Hin.
Qed.

Lemma foldl_num_add_ones (scores : list number) (acc : Q) :
  Forall (fun s => s = Fin 1) scores ->
  exists q, foldl num_add (Fin acc) scores = Fin q /\ q == acc + of_nat (length scores).
Proof.
  intros H. revert acc. induction H as [|s rest -> _ IH]; intros acc.
  - exists acc. split; [reflexivity|]. change (of_nat (length (@nil number))) with 0. lra.
  - cbn [foldl num_add]. destruct (IH (acc + 1)) as (q & Hq & Heq).
    exists q. split; [exact Hq|]. cbn [length]. rewrite of_nat_S. lra.
Qed.

Lemma num_mean_ones (scores : list number) :
  (0 < length scores)%nat -> Forall (fun s => s = Fin 1) scores ->
  exists q, num_mean scores = Fin q /\ q == 1.
Proof.
  intros Hlen H. destruct (foldl_num_add_ones scores 0 H) as (q & Hq & Heq).
  pose proof (of_nat_pos _ Hlen) as Hpos.
  unfold num_mean, num_sum. destruct scores as [|s rest]; [cbn in Hlen; lia|].
  rewrite Hq, (num_div_fin _ _ (Qpos_neq0 _ Hpos)).
  eexists. split; [reflexivity|]. rewrite Heq. field. apply Qpos_neq0, Hpos.
Qed.

Lemma concat_map_nil {A B} (g : A -> list B) (ms : list A) :
  (forall m, m ∈ ms -> g m = []) -> concat (map g ms) = [].
Proof.
  induction ms as [|m rest IH]; intros H; [reflexivity|].
  cbn [map concat]. rewrite (H m (list_elem_of_here _ _)). cbn [app].
  apply IH. intros m' Hm'. apply H, list_elem_of_further, Hm'.
Qed.

(** When every sample that the sources can produce meets its limit, and
    one of the metrics of the loop has both a source and a limit, every
    evaluation is perfect. *)
Lemma sourcesMeet_perfect (names : list string) (ths : gmap string Q) (w : world) (n0 : string) :
  sourcesMeet ths ->
  n0 ∈ names -> is_Some (assoc_get metricCalculators n0) -> is_Some (ths !! n0) ->
  (forall k, 0 <= random w k) ->
  exists metrics a,
    (collectMetrics names w).1 = Ok metrics
    /\ analyzeMetrics (Some ths) metrics = Ok a
    /\ score a =n= Fin 1 /\ overall a = excellent /\ issues a = [].
Proof.
  intros Hmeet Hn0 Hcalc [l0 Hl0] Hrand.
  destruct (collectInto_contains getMetricValue names [] w) as (metrics & Hm & _).
  exists metrics. eexists. split; [exact Hm|].
  split; [apply analyzeMetrics_matched|]. cbv zeta. cbn [score overall issues].
  assert (Hsample : forall n v, (n, Some v) ∈ metrics ->
            forall l, ths !! n = Some l -> scoreMetric n v l = (Fin 1, [])).
  { apply (collectInto_samples
             (fun n v => forall l, ths !! n = Some l -> scoreMetric n v l = (Fin 1, []))
             names [] w metrics); [|exact Hrand| |exact Hm].
    - intros n w' v Hr. unfold getMetricValue.
      destruct (assoc_get metricCalculators n) as [f|] eqn:E; [|discriminate].
      apply assoc_get_In in E.
      cbn [bind gets mathRandom ret fst snd]. intros [= <-] l Hl.
      apply (Hmeet n f _ _ l E (Hr _) Hl).
    - intros n v Hin. apply elem_of_nil in Hin. contradiction. }
  assert (Hall : forall m, m ∈ matched ths metrics ->
            scoreMetric m.1.1 m.1.2 m.2 = (Fin 1, [])).
  { intros [[n v] l] Hin. apply matched_lookup in Hin as [Hl Hin].
    apply (Hsample n v Hin l Hl). }
  assert (Hne : (0 < length (metricScores ths metrics))%nat).
  { unfold metricScores. rewrite length_map.
    destruct (collectInto_known names [] w metrics n0 Hcalc (or_introl Hn0) Hm) as (v & Hv).
    apply assoc_get_In, list_elem_of_In in Hv.
    pose proof (matched_intro ths metrics n0 v l0 Hv Hl0) as Hin.
    destruct (matched ths metrics); [apply elem_of_nil in Hin; contradiction|cbn; lia]. }
  destruct (num_mean_ones (metricScores ths metrics) Hne) as (q & Hq & Heq).
  { unfold metricScores. apply Forall_forall. intros s Hs.
    apply list_elem_of_fmap in Hs as (m & -> & Hin). rewrite (Hall m Hin). reflexivity. }
  rewrite Hq. split; [exact Heq|]. split.
  - unfold overallOf. cbn [num_geb].
    replace (Qle_bool 0.9 q) with true; [reflexivity|].
    symmetry. apply Qle_bool_iff. lra.
  - apply concat_map_nil. intros m Hin. rewrite (Hall m Hin). reflexivity.
Qed.

Ltac meets :=
  let Hin := fresh "Hin" in let Hr := fresh "Hr" in let Hl := fresh "Hl" in
  intros ? ? ? ? ? Hin Hr Hl; cbn [metricCalculators In] in Hin;
  repeat (destruct Hin as [Hin|Hin];
    [injection Hin as <- <-; vm_compute in Hl; try discriminate Hl;
     injection Hl as <-; unfold scoreMetric;
     match goal with
     | |- context [isHigherBetterMetric ?n] =>
         replace (isHigherBetterMetric n) with true by (vm_compute; reflexivity)
     end;
     match goal with
     | |- context [Qle_bool ?a ?b] =>
         replace (Qle_bool a b) with true by (symmetry; apply Qle_bool_iff; lra)
     end;
     match goal with
     | |- context [Qltb ?a ?b] =>
         replace (Qltb a b) with false by (symmetry; apply Qltb_ge; lra)
     end;
     reflexivity|]);
  destruct Hin.

Lemma learning_sourcesMeet :
  sourcesMeet (list_to_map [("learning_velocity"%string, 0.7);
                             ("pattern_recognition"%string, 0.8);
                             ("adaptation_success"%string, 0.6)]).
Proof. meets. Qed.

Lemma innovation_sourcesMeet :
  sourcesMeet (list_to_map [("idea_quality"%string, 0.7);
                             ("implementation_success"%string, 0.8);
                             ("user_satisfaction"%string, 0.85)]).
Proof. meets. Qed.

(** X21. The learning loop and the innovation loop that the constructor
    registers can never find a violation: each of their metric sources
    draws its sample at or above the limit configured for it, so whenever
    [Math.random] returns no negative number the samples collected for such
    a loop score 1 on every metric, and the analysis is excellent without
    any issue. *)
Theorem learning_and_innovation_never_violate (clock : nat -> Z) (random0 : nat -> Q)
    (name : string) (l : loc) (L : loopObj) (w : world) :
  name = "learning"%string \/ name = "innovation"%string ->
  assoc_get (activeLoops (constructor clock random0)) name = Some l ->
  heap (constructor clock random0) !! l = Some L ->
  (forall k, 0 <= random w k) ->
  exists metrics a,
    (collectMetrics (c_metrics (l_config L)) w).1 = Ok metrics
    /\ analyzeMetrics (c_threshold (l_config L)) metrics = Ok a
    /\ score a =n= Fin 1 /\ overall a = excellent /\ issues a = [].
Proof.
  intros Hname Hl HL Hrand.
  destruct (constructor_default_configs clock random0) as [Hlearn Hinnov].
  destruct Hname as [-> | ->].
  - specialize (Hlearn l Hl). rewrite HL in Hlearn. injection Hlearn as ->.
    apply (sourcesMeet_perfect _ _ w "learning_velocity"%string learning_sourcesMeet);
      [apply list_elem_of_here|vm_compute; eauto|vm_compute; eauto|exact Hrand].
  - specialize (Hinnov l Hl). rewrite HL in Hinnov. injection Hinnov as ->.
    apply (sourcesMeet_perfect _ _ w "idea_quality"%string innovation_sourcesMeet);
      [apply list_elem_of_here|vm_compute; eauto|vm_compute; eauto|exact Hrand].
Qed.

Lemma learning_and_innovation_never_violate_witness :
  exists metrics a,
    (collectMetrics (c_metrics learningConfig) runningWorld).1 = Ok metrics
    /\ analyzeMetrics (c_threshold learningConfig) metrics = Ok a
    /\ score a =n= Fin 1 /\ overall a = excellent /\ issues a = [].
Proof.
  apply (learning_and_innovation_never_violate steadyClock midRandom "learning" 1%nat
           (newLoop "learning" learningConfig) runningWorld).
  - left. reflexivity.
  - vm_compute. reflexivity.
  - vm_compute. reflexivity.
  - intros k. vm_compute. discriminate.
Defined.


(** ** The improvement rate on record *)

Lemma bind_result_ok {A B} (m : M A) (k : A -> M B) (w : world) (b : B) :
  (bind m k w).1 = Ok b ->
  exists a, (k a (m w).2).1 = Ok b /\ (bind m k w).2 = (k a (m w).2).2.
Proof.
  unfold bind. destruct (m w) as [[a|e] w1]; cbn [fst snd]; [eauto|discriminate].
Qed.

(** A cycle that completes ends with the performance update and the
    count of the execution. *)
Lemma executeLoopTry_finish (source : string -> M Q) (executor : strategy -> M bool)
    (l : loc) (startTime : Z) (w : world) (L' : loopObj) :
  (executeLoopTry source executor l startTime w).1 = Ok tt ->
  heap (executeLoopTry source executor l startTime w).2 !! l = Some L' ->
  (0 < executionCount L')%nat
  /\ improvementRate (l_performance L')
     == of_nat (improvementCount L') / of_nat (executionCount L').
Proof.
  unfold executeLoopTry. intros H.
  do 8 (apply bind_result_ok in H as (? & H & ->); cbv beta in H; cbv beta).
  clear H. unfold updateLoopPerformance.
  cbn [bind now modifyLoop modify emit fst snd heap set_heap add_event tick_clock].
  rewrite !lookup_alter_eq.
  match goal with |- context [heap ?w1 !! l] => destruct (heap w1 !! l) as [L1|] end;
    [|discriminate].
  cbn [fmap option_fmap option_map]. intros [= <-].
  cbn [executionCount improvementCount l_performance improvementRate set_lastExecution
       set_executionCount set_l_performance].
  split; [lia|]. rewrite of_nat_S. reflexivity.
Qed.

Lemma rateRecorded_executeLoop (l : loc) :
  maintains (loopsSatisfy rateRecorded) (executeLoop l).
Proof.
  intros w H l' L'.
  destruct (executeLoopWith_touches getMetricValue executeAdaptationStrategy l w
              quiet_getMetricValue quiet_executeAdaptationStrategy)
    as (r & Hthrows & F & [Hh _] & HF).
  destruct (decide (l = l')) as [<-|Hne].
  2: { unfold executeLoop. rewrite Hh, lookup_alter_ne by exact Hne. apply H. }
  destruct r as [u|e].
  - unfold cycleThrows in Hthrows. intros HL'. right.
    unfold executeLoop, executeLoopWith in HL'. unfold bind at 1 in HL'.
    cbn [now] in HL'. unfold try_catch in HL'.
    pose proof (executeLoopTry_finish getMetricValue executeAdaptationStrategy l
                  (clock w (clockReads w)) (tick_clock w) L') as Hfin.
    destruct (executeLoopTry getMetricValue executeAdaptationStrategy l
                (clock w (clockReads w)) (tick_clock w)) as [[[]|e] w1];
      [|discriminate Hthrows].
    cbn [fst snd] in *. apply (Hfin eq_refl HL').
  - unfold executeLoop. rewrite Hh, lookup_alter_eq.
    destruct (heap w !! l) as [L|] eqn:E; [|discriminate].
    intros [= <-]. destruct (HF L) as (_ & Hexec & Himp & Hperf).
    unfold rateRecorded. rewrite Hexec, Himp, Hperf. apply (H l L E).
Qed.

Lemma rateRecorded_perform (c : call) : maintains (loopsSatisfy rateRecorded) (perform c).
Proof.
  assert (Hstate : forall s L, rateRecorded L -> rateRecorded (set_l_state s L))
    by (intros s L HL; exact HL).
  assert (Hint : forall i L, rateRecorded L -> rateRecorded (set_intervalId i L))
    by (intros i L HL; exact HL).
  destruct c; cbn [perform].
  - apply maintains_bind; [|intros _; apply maintains_ret].
    apply maintains_createFeedbackLoop. intros name' config'. left. split; reflexivity.
  - apply maintains_start; assumption.
  - apply maintains_stop; assumption.
  - apply maintains_startLoop; assumption.
  - apply maintains_stopLoop; assumption.
  - apply rateRecorded_executeLoop.
  - unfold fire. apply maintains_bind; [apply maintains_quiet, quiet_gets|].
    intros [[l|]|].
    + apply rateRecorded_executeLoop.
    + apply maintains_quiet, quiet_updateRealTimeMetrics.
    + apply maintains_ret.
Qed.

Lemma reachable_rateRecorded (w : world) : reachable w -> loopsSatisfy rateRecorded w.
Proof.
  induction 1 as [clock random|w c _ IH].
  - apply (constructor_maintains (loopsSatisfy rateRecorded)).
    + intros name config. apply maintains_createFeedbackLoop.
      intros name' config'. left. split; reflexivity.
    + intros l L. cbn. rewrite lookup_empty. discriminate.
  - apply rateRecorded_perform, IH.
Qed.

(** X22. In every state that the supervisor can reach, the improvement
    rate that [updateLoopPerformance] keeps for a loop is exact: for every
    loop object that has completed a cycle, [performance.improvementRate]
    equals [improvementCount / executionCount]; it lies between 0 and 1,
    and [improvementCount] never exceeds [executionCount]. *)
Theorem improvementRate_exact (w : world) (l : loc) (L : loopObj) :
  reachable w -> heap w !! l = Some L ->
  (improvementCount L <= executionCount L)%nat
  /\ ((0 < executionCount L)%nat ->
      improvementRate (l_performance L)
      == of_nat (improvementCount L) / of_nat (executionCount L))
  /\ 0 <= improvementRate (l_performance L) /\ improvementRate (l_performance L) <= 1.
Proof.
  intros Hr HL.
  pose proof (reachable_countsBounded w Hr l L HL) as Hle.
  pose proof (reachable_rateRecorded w Hr l L HL) as Hrate.
  unfold countsBounded in Hle. split; [exact Hle|].
  destruct Hrate as [[Hzero Hrate]|[Hpos Hrate]].
  - split; [intros Hpos; lia|]. rewrite Hrate. split; lra.
  - split; [intros _; exact Hrate|]. rewrite Hrate.
    pose proof (of_nat_pos _ Hpos) as Hec.
    pose proof (of_nat_nonneg (improvementCount L)) as Hic.
    assert (Hq : of_nat (improvementCount L) <= of_nat (executionCount L)).
    { unfold of_nat. rewrite <- Zle_Qle. lia. }
    split.
    + apply Qle_shift_div_l; [exact Hec|]. lra.
    + apply Qle_shift_div_r; [exact Hec|]. lra.
Qed.

Lemma improvementRate_exact_witness :
  exists L,
    heap (run [Start; Fire 0%nat] (constructor steadyClock midRandom)) !! 0%nat = Some L
    /\ (improvementCount L <= executionCount L)%nat
    /\ improvementRate (l_performance L) <= 1.
Proof.
  destruct (heap (run [Start; Fire 0%nat] (constructor steadyClock midRandom)) !! 0%nat)
    as [L|] eqn:HL; [|vm_compute in HL; discriminate].
  exists L. split; [reflexivity|].
  destruct (improvementRate_exact (run [Start; Fire 0%nat] (constructor steadyClock midRandom))
              0%nat L) as (Hle & _ & _ & Hone).
  - unfold run. cbn [foldl]. apply reach_call, reach_call, reach_new.
  - exact HL.
  - split; [exact Hle|exact Hone].
Defined.


(** ** The feedback loop challenge *)

Lemma stop_ok (w : world) : (stop w).1 = Ok tt.
Proof.
  unfold stop. rewrite (bind_ok _ _ w (isRunning w)) by reflexivity. cbn [gets snd].
  destruct (isRunning w); cbn [negb]; [|reflexivity].
  rewrite (bind_ok _ _ w tt) by reflexivity. cbn [modify snd].
  rewrite (bind_ok _ _ _ (activeLoops w)) by reflexivity. cbn [gets snd].
  rewrite (bind_ok _ _ _ tt (forEach_stopLoop_ok _ _)). reflexivity.
Qed.

(** While only timers with a period above the wait are loop timers, a
    wait changes no loop object. *)
Lemma elapse_slow_loops (ms : Z) (firings : list timerId) (w : world) :
  (forall id l, timers w !! id = Some (LoopTimer l) -> (ms < period w (LoopTimer l))%Z) ->
  (elapse ms firings w).1 = Ok tt
  /\ heap (elapse ms firings w).2 = heap w
  /\ timers (elapse ms firings w).2 = timers w
  /\ activeLoops (elapse ms firings w).2 = activeLoops w.
Proof.
  unfold elapse. revert w. induction firings as [|id rest IH]; intros w Hslow.
  - cbn. auto.
  - cbn [forEach].
    match goal with |- context [bind ?m0 _ w] => set (m := m0) end.
    assert (Hstep : (m w).1 = Ok tt /\ heap (m w).2 = heap w /\ timers (m w).2 = timers w
                    /\ activeLoops (m w).2 = activeLoops w).
    { subst m. rewrite (bind_ok _ _ w (period w <$> timers w !! id)) by reflexivity.
      cbn [gets snd]. destruct (timers w !! id) as [[l|]|] eqn:E;
        cbn [fmap option_fmap option_map]; [| |auto].
      - specialize (Hslow id l E). destruct (period w (LoopTimer l) <=? ms)%Z eqn:Ep;
          [apply Z.leb_le in Ep; lia|auto].
      - destruct (period w MetricsTimer <=? ms)%Z; [|auto].
        unfold fire. rewrite (bind_ok _ _ w (timers w !! id)) by reflexivity.
        cbn [gets snd]. rewrite E.
        destruct (updateRealTimeMetrics_post w) as (Hok & _).
        destruct (quiet_updateRealTimeMetrics w) as (Hh & Ht & Ha & _). auto. }
    destruct Hstep as (Hok & Hh & Ht & Ha).
    rewrite (bind_ok _ _ w tt Hok).
    destruct (IH (m w).2) as (Hok2 & Hh2 & Ht2 & Ha2).
    { intros id' l. rewrite Ht. unfold period. rewrite Hh. apply Hslow. }
    rewrite Hok2, Hh2, Ht2, Ha2. auto.
Qed.

(** X23. The feedback loop challenge of the validation system can never
    pass: it starts a new supervisor and reads the status after a wait of
    two seconds, but the shortest interval of the five default loops is
    five seconds, so whatever timers fire during the wait no loop has
    executed; the status shows 5 loops and 0 executions, [passed] is false
    (it asks for 3 executions) and the score is 5/12. *)
Theorem challengeFeedbackLoops_never_passes (clock : nat -> Z) (random : nat -> Q)
    (firings : list timerId) :
  exists r,
    (challengeFeedbackLoops firings (constructor clock random)).1 = Ok r
    /\ ch_passed r = false
    /\ ch_score r == 5 / 12.
Proof.
  unfold challengeFeedbackLoops. unfold bind at 1. cbn [now].
  set (w0 := tick_clock (constructor clock random)).
  assert (Hoff : isRunning w0 = false) by reflexivity.
  destruct (start_world w0 Hoff) as [Hstart _].
  set (w1 := (start w0).2) in *.
  assert (Hslow : forall id l, timers w1 !! id = Some (LoopTimer l) ->
                    (2000 < period w1 (LoopTimer l))%Z).
  { assert (Hall : map_Forall (fun _ t =>
              match t with
              | LoopTimer l => (2000 <? period w1 (LoopTimer l))%Z
              | MetricsTimer => true
              end = true) (timers w1))
      by (apply (bool_decide_unpack _); vm_compute; reflexivity).
    intros id l Hlook. specialize (Hall id _ Hlook). cbn beta iota in Hall.
    apply Z.ltb_lt, Hall. }
  destruct (elapse_slow_loops 2000 firings w1 Hslow) as (Hwait & Hh & _ & Ha).
  set (w2 := (elapse 2000 firings w1).2) in *.
  assert (Hactive : st_activeLoops (getStatus w2) = 5%nat).
  { unfold getStatus. cbn [st_activeLoops]. rewrite Ha. vm_compute. reflexivity. }
  assert (Hexec : st_totalExecutions (getStatus w2) = 0%nat).
  { unfold getStatus, loopValues. cbn [st_totalExecutions]. rewrite Ha, Hh.
    vm_compute. reflexivity. }
  unfold try_catch.
  rewrite (bind_ok _ _ w0 tt Hstart). fold w1.
  rewrite (bind_ok _ _ w1 tt Hwait). fold w2.
  rewrite (bind_ok _ _ w2 (getStatus w2)) by reflexivity. cbn [gets snd]. cbv zeta.
  rewrite (bind_ok _ _ w2 tt (stop_ok w2)).
  unfold bind, now, ret. cbn [fst snd]. rewrite Hactive, Hexec.
  eexists. split; [reflexivity|]. cbn [ch_passed ch_score]. split; [reflexivity|].
  vm_compute. reflexivity.
Qed.

(** ** When a cycle throws *)






